(** * Data Cleaner: a shallow embedding of [nodes/DataCleaner/utils.ts]

    The development embeds the algorithmic core of the Data Cleaner node
    (similarity metrics, fuzzy deduplication, case conversion, key
    transformation, phone normalisation and the rule-based parsers),
    together with the handler [executeDeduplicateFuzzy] of the node, and
    states the properties of the specification over that embedding.

    Modelling conventions.
    - A JavaScript string is a [list ascii] ([jsstring]).  The embedding is
      exact for strings whose UTF-16 code units lie in the ASCII range;
      a character above 127 is treated as a caseless character that is
      neither white space, nor a digit, nor a letter of [[a-zA-Z]].
    - A JavaScript number used as a score or a threshold is an exact
      rational of [Q]: the rounding of IEEE doubles and the value [NaN]
      are not modelled.
    - A dynamically typed value is a [JsValue]; a number stored in a record
      is an integer, and properties inherited from a prototype are not
      modelled.
    - [Set<number>] is a [gset nat]; arrays are lists, read with [!!] and
      written with [<[i:=x]>]; a [for] loop over an index range is a
      [fold_left] over [seq].
    - A function that may throw returns an [Outcome]; reading an array
      entry that is [undefined] and calling a method on it throws.
    - A regular expression is embedded as the function that computes its
      matches; the comment of each function quotes the expression. *)

From Stdlib Require Import ZArith QArith Qminmax Lqa Ascii String DecimalString List Lia Bool.
From stdpp Require Import gmap list sorting.
Import ListNotations.

Open Scope nat_scope.
Set Warnings "-register-all,-clear-no-such-hyp".

(* ================================================================== *)
(** * JavaScript strings *)
(* ================================================================== *)

Module JS.

Abbreviation jsstring := (list ascii).

(** String literals. *)
Definition js (s : string) : jsstring := list_ascii_of_string s.

Definition code (c : ascii) : nat := nat_of_ascii c.

Definition char_eqb (a b : ascii) : bool := Ascii.eqb a b.

Fixpoint str_eqb (a b : jsstring) : bool :=
  match a, b with
  | [], [] => true
  | x :: a', y :: b' => char_eqb x y && str_eqb a' b'
  | _, _ => false
  end.

(** [\d] and [[0-9]]. *)
Definition isDigit (c : ascii) : bool := (48 <=? code c) && (code c <=? 57).
(** [[a-z]]. *)
Definition isLower (c : ascii) : bool := (97 <=? code c) && (code c <=? 122).
(** [[A-Z]]. *)
Definition isUpper (c : ascii) : bool := (65 <=? code c) && (code c <=? 90).
(** [[a-zA-Z]]. *)
Definition isAlpha (c : ascii) : bool := isLower c || isUpper c.
(** [\w], that is [[a-zA-Z0-9_]]. *)
Definition isWord (c : ascii) : bool := isAlpha c || isDigit c || (code c =? 95).
(** [\s], and the characters removed by [trim]: TAB, LF, VT, FF, CR, SP. *)
Definition isSpace (c : ascii) : bool :=
  ((9 <=? code c) && (code c <=? 13)) || (code c =? 32).

Definition lowerChar (c : ascii) : ascii :=
  if isUpper c then ascii_of_nat (code c + 32) else c.
Definition upperChar (c : ascii) : ascii :=
  if isLower c then ascii_of_nat (code c - 32) else c.

Definition toLowerCase (s : jsstring) : jsstring := map lowerChar s.
Definition toUpperCase (s : jsstring) : jsstring := map upperChar s.

Fixpoint dropWhile (p : ascii -> bool) (s : jsstring) : jsstring :=
  match s with
  | [] => []
  | c :: s' => if p c then dropWhile p s' else s
  end.

Fixpoint takeWhile (p : ascii -> bool) (s : jsstring) : jsstring :=
  match s with
  | [] => []
  | c :: s' => if p c then c :: takeWhile p s' else []
  end.

Definition trimStart (s : jsstring) : jsstring := dropWhile isSpace s.
Definition trimEnd (s : jsstring) : jsstring := rev (dropWhile isSpace (rev s)).
Definition trim (s : jsstring) : jsstring := trimEnd (trimStart s).

Fixpoint startsWith (s p : jsstring) : bool :=
  match p, s with
  | [], _ => true
  | x :: p', y :: s' => char_eqb x y && startsWith s' p'
  | _ :: _, [] => false
  end.

(** [s.slice(k)] for [0 <= k]. *)
Definition slice_from (k : nat) (s : jsstring) : jsstring := drop k s.
(** [s.slice(a, b)] for [0 <= a] and [0 <= b]. *)
Definition slice (a b : nat) (s : jsstring) : jsstring := take (b - a) (drop a s).

(** [s.charAt(0)]: the empty string when [s] is empty. *)
Definition charAt0 (s : jsstring) : jsstring := take 1 s.

(** [s.includes(c)] for a one-character needle. *)
Definition includesChar (c : ascii) (s : jsstring) : bool := existsb (char_eqb c) s.

(** [s.replace(/[class]/g, '')]. *)
Definition removeAll (p : ascii -> bool) (s : jsstring) : jsstring :=
  List.filter (fun c => negb (p c)) s.

(** [s.replace(/[class]+/g, r)]: every maximal run of characters of the
    class is replaced by [r]. *)
Fixpoint replaceRuns (p : ascii -> bool) (r : jsstring) (s : jsstring) : jsstring :=
  match s with
  | [] => []
  | c :: s' =>
      if p c then
        match s' with
        | d :: _ => if p d then replaceRuns p r s' else r ++ replaceRuns p r s'
        | [] => r
        end
      else c :: replaceRuns p r s'
  end.

(** [s.split(c)] for a one-character separator: never the empty array. *)
Fixpoint splitChar (c : ascii) (s : jsstring) : list jsstring :=
  match s with
  | [] => [[]]
  | x :: s' =>
      if char_eqb x c then [] :: splitChar c s'
      else match splitChar c s' with
           | w :: ws => (x :: w) :: ws
           | [] => [[x]]
           end
  end.

(** [parts.join(sep)]. *)
Fixpoint join (sep : jsstring) (parts : list jsstring) : jsstring :=
  match parts with
  | [] => []
  | [w] => w
  | w :: ws => w ++ sep ++ join sep ws
  end.

Definition nonEmpty (s : jsstring) : bool := negb (length s =? 0).

End JS.
Import JS.

(* ================================================================== *)
(** * Dynamically typed values *)
(* ================================================================== *)

Inductive JsValue : Type :=
  | VUndefined
  | VNull
  | VBool (b : bool)
  | VNum (n : Z)
  | VStr (s : jsstring)
  | VArr (xs : list JsValue)
  | VObj (kvs : list (jsstring * JsValue)).

(** Truthiness, as tested by [!v] and [v || d]. *)
Definition truthy (v : JsValue) : bool :=
  match v with
  | VUndefined | VNull => false
  | VBool b => b
  | VNum n => negb (n =? 0)%Z
  | VStr s => nonEmpty s
  | VArr _ | VObj _ => true
  end.

(** [v || ''] *)
Definition orEmpty (v : JsValue) : JsValue := if truthy v then v else VStr [].

(* ================================================================== *)
(** * Phone normalisation *)
(* ================================================================== *)

(** [cleanPhoneNumber(phone, defaultCountryCode)], utils.ts 348-405. *)
Definition cleanPhoneNumber (phone : JsValue) (defaultCountryCode : jsstring) : JsValue :=
  match phone with
  | VStr p =>
      if negb (truthy phone) then orEmpty phone
      else
        let hasPlus := startsWith (trim p) (js "+") in
        let digitsOnly := removeAll (fun c => negb (isDigit c)) p in
        if length digitsOnly =? 0 then phone
        else if 15 <? length digitsOnly then phone
        else if hasPlus then VStr (js "+" ++ digitsOnly)
        else if (length digitsOnly =? 11) && startsWith digitsOnly (js "1")
        then VStr (js "+" ++ digitsOnly)
        else if length digitsOnly =? 10
        then VStr (js "+" ++ defaultCountryCode ++ digitsOnly)
        else if (length digitsOnly =? 11) && startsWith digitsOnly (js "0")
        then VStr (js "+44" ++ slice_from 1 digitsOnly)
        else if (length digitsOnly =? 12) && startsWith digitsOnly (js "44")
        then VStr (js "+" ++ digitsOnly)
        else if (7 <=? length digitsOnly) && (length digitsOnly <=? 10)
        then VStr (js "+" ++ defaultCountryCode ++ digitsOnly)
        else VStr (js "+" ++ digitsOnly)
  | _ => orEmpty phone
  end.

(** The quantities the specification classifies a phone string by. *)
Definition phoneDigits (p : jsstring) : jsstring := removeAll (fun c => negb (isDigit c)) p.
Definition phoneHasPlus (p : jsstring) : bool := startsWith (trim p) (js "+").

(** The digit-count patterns listed by the specification of the normaliser. *)
Definition listedPhonePattern (p : jsstring) : bool :=
  let d := phoneDigits p in
  phoneHasPlus p
  || ((length d =? 11) && startsWith d (js "1"))
  || (length d =? 10)
  || ((length d =? 11) && startsWith d (js "0"))
  || ((length d =? 12) && startsWith d (js "44"))
  || ((7 <=? length d) && (length d <=? 10)).


(* ================================================================== *)
(** * Similarity metrics *)
(* ================================================================== *)

(** A count or a length used as a JavaScript number. *)
Definition Qn (n : nat) : Q := inject_Z (Z.of_nat n).

(** [s[i] === t[j]] on characters read by index ([undefined] out of range). *)
Definition charAt_eqb (s : jsstring) (i : nat) (t : jsstring) (j : nat) : bool :=
  match s !! i, t !! j with
  | Some x, Some y => char_eqb x y
  | None, None => true
  | _, _ => false
  end.

(** One row of the dynamic program: the loop over [j] of
    [levenshteinDistance], writing [currentRow] in place. *)
Definition levenshteinRow (longer shorter : jsstring) (i : nat)
    (previousRow currentRow : list nat) : list nat :=
  fold_left
    (fun cur j =>
       let cost := if charAt_eqb longer (i - 1) shorter (j - 1) then 0 else 1 in
       <[j := Nat.min (nth (j - 1) cur 0 + 1)
                (Nat.min (nth j previousRow 0 + 1)
                         (nth (j - 1) previousRow 0 + cost))]> cur)
    (seq 1 (length shorter))
    (<[0 := i]> currentRow).

(** [levenshteinDistance(str1, str2)], utils.ts 34-71. *)
Definition levenshteinDistance (str1 str2 : jsstring) : nat :=
  let s1 := trim (toLowerCase str1) in
  let s2 := trim (toLowerCase str2) in
  if str_eqb s1 s2 then 0
  else if length s1 =? 0 then length s2
  else if length s2 =? 0 then length s1
  else
    let '(shorter, longer) :=
      if length s1 <=? length s2 then (s1, s2) else (s2, s1) in
    let previousRow := seq 0 (length shorter + 1) in
    let currentRow := replicate (length shorter + 1) 0 in
    let rows :=
      fold_left
        (fun '(prev, cur) i =>
           let cur' := levenshteinRow longer shorter i prev cur in
           (cur', prev))
        (seq 1 (length longer))
        (previousRow, currentRow) in
    nth (length shorter) (fst rows) 0.

(** [levenshteinSimilarity(str1, str2)], utils.ts 81-89. *)
Definition levenshteinSimilarity (str1 str2 : jsstring) : Q :=
  if negb (nonEmpty str1) && negb (nonEmpty str2) then 1
  else if negb (nonEmpty str1) || negb (nonEmpty str2) then 0
  else
    let distance := levenshteinDistance str1 str2 in
    let maxLength := Nat.max (length str1) (length str2) in
    if maxLength =? 0 then 1 else (1 - Qn distance / Qn maxLength)%Q.

(** The inner loop of the matching phase of [jaroSimilarity]: the first
    [j] of [start, start + span) with [s2Matches[j]] unset and
    [s1[i] === s2[j]]. *)
Fixpoint jaroFindMatch (s1 s2 : jsstring) (s2Matches : list bool)
    (i j span : nat) : option nat :=
  match span with
  | 0 => None
  | S span' =>
      if nth j s2Matches false || negb (charAt_eqb s1 i s2 j)
      then jaroFindMatch s1 s2 s2Matches i (S j) span'
      else Some j
  end.

(** The state of the matching phase: [s1Matches], [s2Matches], [matches]. *)
Definition jaroMatchStep (s1 s2 : jsstring) (matchWindowSize : nat)
    (st : list bool * list bool * nat) (i : nat) : list bool * list bool * nat :=
  let '(s1Matches, s2Matches, matches) := st in
  let start := i - matchWindowSize in
  let end_ := Nat.min (i + matchWindowSize + 1) (length s2) in
  match jaroFindMatch s1 s2 s2Matches i start (end_ - start) with
  | Some j => (<[i := true]> s1Matches, <[j := true]> s2Matches, S matches)
  | None => st
  end.

Definition jaroMatches (s1 s2 : jsstring) : list bool * list bool * nat :=
  let matchWindowSize := Nat.max (length s1) (length s2) / 2 - 1 in
  fold_left (jaroMatchStep s1 s2 matchWindowSize)
    (seq 0 (length s1))
    (replicate (length s1) false, replicate (length s2) false, 0).

(** The offset of the first [true] of a list. *)
Fixpoint firstTrue (l : list bool) : option nat :=
  match l with
  | [] => None
  | b :: l' => if b then Some 0 else S <$> firstTrue l'
  end.

(** [while (!s2Matches[k]) k++]: the index the loop stops at; [None] when no
    entry from [k] on is set, where the loop of the source never exits. *)
Definition jaroSkipUnmatched (s2Matches : list bool) (k : nat) : option nat :=
  (fun d => k + d) <$> firstTrue (drop k s2Matches).

(** One iteration of the transposition count, on the state
    [(k, transpositions)]. *)
Definition jaroTranspositionStep (s1 s2 : jsstring) (s1Matches s2Matches : list bool)
    (st : option (nat * nat)) (i : nat) : option (nat * nat) :=
  match st with
  | None => None
  | Some (k, transpositions) =>
      if negb (nth i s1Matches false) then st
      else
        match jaroSkipUnmatched s2Matches k with
        | None => None
        | Some k' =>
            Some (S k',
                  if negb (charAt_eqb s1 i s2 k')
                  then S transpositions else transpositions)
        end
  end.

Definition jaroTranspositions (s1 s2 : jsstring) (s1Matches s2Matches : list bool)
    : option nat :=
  snd <$> fold_left (jaroTranspositionStep s1 s2 s1Matches s2Matches)
            (seq 0 (length s1)) (Some (0, 0)).

(** [jaroSimilarity(str1, str2)], utils.ts 103-152; [None] stands for a
    run in which the [while] loop of the transposition count never exits. *)
Definition jaroSimilarityRun (str1 str2 : jsstring) : option Q :=
  let s1 := trim (toLowerCase str1) in
  let s2 := trim (toLowerCase str2) in
  if str_eqb s1 s2 then Some 1%Q
  else if (length s1 =? 0) || (length s2 =? 0) then Some 0%Q
  else
    let '(s1Matches, s2Matches, matches) := jaroMatches s1 s2 in
    if matches =? 0 then Some 0%Q
    else
      match jaroTranspositions s1 s2 s1Matches s2Matches with
      | None => None
      | Some transpositions =>
          Some ((Qn matches / Qn (length s1) + Qn matches / Qn (length s2)
                 + (Qn matches - Qn transpositions / 2) / Qn matches) / 3)%Q
      end.

(** The value returned by [jaroSimilarity]; [jaroSimilarity_returns] shows
    that every run returns. *)
Definition jaroSimilarity (str1 str2 : jsstring) : Q :=
  default 0%Q (jaroSimilarityRun str1 str2).

(** The loop over the common prefix of [jaroWinklerSimilarity]. *)
Fixpoint jaroPrefixLength (maxPrefixLength : nat) (s1 s2 : jsstring) : nat :=
  match maxPrefixLength, s1, s2 with
  | S n, x :: s1', y :: s2' =>
      if char_eqb x y then S (jaroPrefixLength n s1' s2') else 0
  | _, _, _ => 0
  end.

(** [jaroWinklerSimilarity(str1, str2, prefixScale)], utils.ts 163-191. *)
Definition jaroWinklerSimilarity (str1 str2 : jsstring) (prefixScale : Q) : Q :=
  let jaroSim := jaroSimilarity str1 str2 in
  if Qeq_bool jaroSim 0 then 0%Q
  else
    let s1 := trim (toLowerCase str1) in
    let s2 := trim (toLowerCase str2) in
    let maxPrefixLength := Nat.min 4 (Nat.min (length s1) (length s2)) in
    let prefixLength := jaroPrefixLength maxPrefixLength s1 s2 in
    let boundedScale := Qmin prefixScale (1 # 4) in
    (jaroSim + Qn prefixLength * boundedScale * (1 - jaroSim))%Q.

Definition defaultPrefixScale : Q := 1 # 10.

(** [fuzzyMatch(str1, str2)], utils.ts 201-209. *)
Definition fuzzyMatch (str1 str2 : jsstring) : Q :=
  if (length str1 <? 10) && (length str2 <? 10)
  then jaroWinklerSimilarity str1 str2 defaultPrefixScale
  else levenshteinSimilarity str1 str2.



(* ================================================================== *)
(** * Records and string coercion *)
(* ================================================================== *)

(** A record: the own enumerable properties of a plain object, in the
    order of [Object.entries].  Properties inherited from the prototype
    are not modelled. *)
Abbreviation Record_ := (list (jsstring * JsValue)).

(** [obj[key]]: [undefined] when the key is absent. *)
Fixpoint getProperty (obj : Record_) (key : jsstring) : JsValue :=
  match obj with
  | [] => VUndefined
  | (k, v) :: obj' => if str_eqb k key then v else getProperty obj' key
  end.

(** [v ?? d] *)
Definition nullish (v d : JsValue) : JsValue :=
  match v with
  | VUndefined | VNull => d
  | _ => v
  end.

(** The decimal rendering of an integer. *)
Definition decimal (n : Z) : jsstring :=
  js (DecimalString.NilZero.string_of_int (Z.to_int n)).

(** [String(v)]. *)
Fixpoint String_ (v : JsValue) : jsstring :=
  match v with
  | VUndefined => js "undefined"
  | VNull => js "null"
  | VBool true => js "true"
  | VBool false => js "false"
  | VNum n => decimal n
  | VStr s => s
  | VArr xs =>
      join (js ",")
        (map (fun x => match x with
                       | VUndefined | VNull => []
                       | _ => String_ x
                       end) xs)
  | VObj _ => js "[object Object]"
  end.

(* ================================================================== *)
(** * Fuzzy deduplication *)
(* ================================================================== *)

(** [DuplicateGroup], utils.ts 539-546. *)
Record DuplicateGroup : Type := mkGroup {
  keepIndex : nat;
  duplicateIndices : list nat;
  similarityScores : list Q
}.

(** [items[i]] for an index inside the array. *)
Definition itemAt (items : list Record_) (i : nat) : Record_ :=
  default [] (items !! i).

(** The body of the loop over [fieldsToCheck], on the state
    [(totalSimilarity, fieldCount)]. *)
Definition fieldStep (item1 item2 : Record_) (acc : Q * nat) (field : jsstring)
    : Q * nat :=
  let '(totalSimilarity, fieldCount) := acc in
  let value1 := String_ (nullish (getProperty item1 field) (VStr [])) in
  let value2 := String_ (nullish (getProperty item2 field) (VStr [])) in
  if negb (nonEmpty value1) && negb (nonEmpty value2) then acc
  else ((totalSimilarity + fuzzyMatch value1 value2)%Q, S fieldCount).

(** [averageSimilarity] of the records at [i] and [j]. *)
Definition averageSimilarity (items : list Record_) (fieldsToCheck : list jsstring)
    (i j : nat) : Q :=
  let '(totalSimilarity, fieldCount) :=
    fold_left (fieldStep (itemAt items i) (itemAt items j)) fieldsToCheck (0%Q, 0) in
  if 0 <? fieldCount then (totalSimilarity / Qn fieldCount)%Q else 0%Q.

(** The body of the loop over [j], on the state
    [(currentGroup, processedIndices)]. *)
Definition innerStep (items : list Record_) (fieldsToCheck : list jsstring)
    (threshold : Q) (i : nat) (st : DuplicateGroup * gset nat) (j : nat)
    : DuplicateGroup * gset nat :=
  let '(currentGroup, processedIndices) := st in
  if bool_decide (j ∈ processedIndices) then st
  else
    let averageSimilarity := averageSimilarity items fieldsToCheck i j in
    if Qle_bool threshold averageSimilarity then
      (mkGroup (keepIndex currentGroup)
               (duplicateIndices currentGroup ++ [j])
               (similarityScores currentGroup ++ [averageSimilarity]),
       {[ j ]} ∪ processedIndices)
    else st.

(** The body of the loop over [i], on the state
    [(duplicateGroups, processedIndices)]. *)
Definition outerStep (items : list Record_) (fieldsToCheck : list jsstring)
    (threshold : Q) (st : list DuplicateGroup * gset nat) (i : nat)
    : list DuplicateGroup * gset nat :=
  let '(duplicateGroups, processedIndices) := st in
  if bool_decide (i ∈ processedIndices) then st
  else
    let '(currentGroup, processedIndices') :=
      fold_left (innerStep items fieldsToCheck threshold i)
        (seq (i + 1) (length items - (i + 1)))
        (mkGroup i [] [], processedIndices) in
    if 0 <? length (duplicateIndices currentGroup)
    then (duplicateGroups ++ [currentGroup], processedIndices')
    else (duplicateGroups, processedIndices').

(** [findFuzzyDuplicates(items, fieldsToCheck, threshold)], utils.ts 556-611. *)
Definition findFuzzyDuplicates (items : list Record_) (fieldsToCheck : list jsstring)
    (threshold : Q) : list DuplicateGroup :=
  fst (fold_left (outerStep items fieldsToCheck threshold)
         (seq 0 (length items)) ([], ∅)).

(** [items.filter((_, index) => keep(index))], with [index] counted from
    [start]. *)
Fixpoint filterIndex {A : Type} (keep : nat -> bool) (start : nat) (items : list A)
    : list A :=
  match items with
  | [] => []
  | x :: items' =>
      if keep start then x :: filterIndex keep (S start) items'
      else filterIndex keep (S start) items'
  end.

Record DeduplicateResult : Type := mkDeduplicateResult {
  deduplicated : list Record_;
  removedCount : nat;
  duplicateGroups : list DuplicateGroup
}.

(** The set built by the two nested loops of [deduplicateFuzzy]. *)
Definition collectIndicesToRemove (groups : list DuplicateGroup) : gset nat :=
  fold_left
    (fun acc group =>
       fold_left (fun acc' dupIndex => {[ dupIndex ]} ∪ acc')
                 (duplicateIndices group) acc)
    groups ∅.

(** [deduplicateFuzzy(items, fieldsToCheck, threshold)], utils.ts 621-648. *)
Definition deduplicateFuzzy (items : list Record_) (fieldsToCheck : list jsstring)
    (threshold : Q) : DeduplicateResult :=
  let duplicateGroups := findFuzzyDuplicates items fieldsToCheck threshold in
  let indicesToRemove := collectIndicesToRemove duplicateGroups in
  let deduplicated :=
    filterIndex (fun index => negb (bool_decide (index ∈ indicesToRemove))) 0 items in
  mkDeduplicateResult deduplicated (size indicesToRemove) duplicateGroups.






(** ** Vocabulary of the specification of the deduplicator *)





(** [j] is a duplicate in the group whose master is [i]. *)
Definition joined (groups : list DuplicateGroup) (i j : nat) : Prop :=
  exists g, g ∈ groups /\ keepIndex g = i /\ j ∈ duplicateIndices g.

(** [j] has been marked processed by the end of the run. *)
Definition processed (groups : list DuplicateGroup) (j : nat) : Prop :=
  exists i, joined groups i j.

(** [j] has been marked processed when the loop reaches the master [i]. *)
Definition processedBefore (groups : list DuplicateGroup) (i j : nat) : Prop :=
  exists k, k < i /\ joined groups k j.

(** The test of the inner loop at a master [i], against the set of the
    indices processed when the loop over [j] starts. *)
Definition joins (items : list Record_) (fieldsToCheck : list jsstring)
    (threshold : Q) (P : gset nat) (i j : nat) : bool :=
  negb (bool_decide (j ∈ P))
  && Qle_bool threshold (averageSimilarity items fieldsToCheck i j).

(** All the indices that a group mentions. *)
Definition groupIndices (g : DuplicateGroup) : list nat :=
  keepIndex g :: duplicateIndices g.

(** The number of groups that list [j] among their duplicates. *)
Definition duplicateGroupCount (groups : list DuplicateGroup) (j : nat) : nat :=
  length (List.filter (fun g => bool_decide (j ∈ duplicateIndices g)) groups).

(** The input indices of the records of the deduplicated sequence, in the
    order of that sequence. *)
Definition keptIndices (items : list Record_) (fieldsToCheck : list jsstring)
    (threshold : Q) : list nat :=
  let indicesToRemove :=
    collectIndicesToRemove (findFuzzyDuplicates items fieldsToCheck threshold) in
  filterIndex (fun index => negb (bool_decide (index ∈ indicesToRemove))) 0
    (seq 0 (length items)).


(** The invariant of the loop over [i] of [findFuzzyDuplicates], on the
    state [(groups, P)] reached when the loop arrives at the index [i]. *)
Record DedupInvariant (items : list Record_) (fieldsToCheck : list jsstring)
    (threshold : Q) (i : nat) (groups : list DuplicateGroup) (P : gset nat)
    : Prop := mkDedupInvariant {
  inv_processed : forall j, j ∈ P <-> processed groups j;
  inv_keep : forall g, g ∈ groups -> keepIndex g < i;
  inv_sound : forall k j, joined groups k j ->
      k < j < length items /\ (k ∉ P) /\ ~ processedBefore groups k j /\
      (threshold <= averageSimilarity items fieldsToCheck k j)%Q;
  inv_complete : forall k j,
      k < i -> k < j < length items -> (k ∉ P) -> ~ processedBefore groups k j ->
      (threshold <= averageSimilarity items fieldsToCheck k j)%Q ->
      joined groups k j;
  inv_scores : forall g, g ∈ groups ->
      similarityScores g
        = map (averageSimilarity items fieldsToCheck (keepIndex g)) (duplicateIndices g);
  inv_nodup : NoDup (concat (map groupIndices groups))
}.


(** The example of the specification: three records compared on [name]. *)
Definition exampleRecords : list Record_ :=
  [ [(js "name", VStr (js "John Smith"))];
    [(js "name", VStr (js "Jon Smith"))];
    [(js "name", VStr (js "Jane Doe"))] ].


(* ================================================================== *)
(** * Case conversion *)
(* ================================================================== *)

(** [s.replace(/([a-z])([A-Z])/g, '$1' + sep + '$2')]: the separator is put
    between a lower-case letter and the upper-case letter that follows it;
    a match consumes both letters. *)
Fixpoint splitLowerUpper (sep : jsstring) (s : jsstring) : jsstring :=
  match s with
  | c1 :: ((c2 :: rest) as t) =>
      if isLower c1 && isUpper c2
      then c1 :: sep ++ c2 :: splitLowerUpper sep rest
      else c1 :: splitLowerUpper sep t
  | _ => s
  end.

(** [s.replace(/([A-Z]+)([A-Z][a-z])/g, '$1_$2')]: a match is a run of at
    least two upper-case letters followed by a lower-case letter, and the
    underscore goes in front of the last upper-case letter of the run.
    So an underscore is put in front of every upper-case letter that
    follows an upper-case letter and precedes a lower-case letter;
    [prevUpper] tells whether the previous character is an upper-case
    letter. *)
Fixpoint splitAcronym (prevUpper : bool) (s : jsstring) : jsstring :=
  match s with
  | c1 :: ((c2 :: _) as t) =>
      if prevUpper && isUpper c1 && isLower c2
      then "_"%char :: c1 :: splitAcronym (isUpper c1) t
      else c1 :: splitAcronym (isUpper c1) t
  | _ => s
  end.

Definition isUnderscore (c : ascii) : bool := char_eqb c "_"%char.

(** The class [[\s\-.]]. *)
Definition isSnakeSeparator (c : ascii) : bool :=
  isSpace c || char_eqb c "-"%char || char_eqb c "."%char.

(** The class [[_\-.\s]]. *)
Definition isCamelSeparator (c : ascii) : bool :=
  char_eqb c "_"%char || char_eqb c "-"%char || char_eqb c "."%char || isSpace c.

(** [s.replace(/^_+|_+$/g, '')] *)
Definition stripUnderscores (s : jsstring) : jsstring :=
  rev (dropWhile isUnderscore (rev (dropWhile isUnderscore s))).

(** [toSnakeCase(str)], utils.ts 271-289. *)
Definition toSnakeCase (str : jsstring) : jsstring :=
  if negb (nonEmpty str) then []
  else
    let s1 := splitLowerUpper (js "_") str in
    let s2 := splitAcronym false s1 in
    let s3 := replaceRuns isSnakeSeparator (js "_") s2 in
    let s4 := removeAll (fun c => negb (isWord c)) s3 in
    let s5 := toLowerCase s4 in
    let s6 := stripUnderscores s5 in
    replaceRuns isUnderscore (js "_") s6.

(** [word.charAt(0).toUpperCase() + word.slice(1)] *)
Definition capitalize (word : jsstring) : jsstring :=
  toUpperCase (charAt0 word) ++ slice_from 1 word.

(** [words.map((word, index) => index === 0 ? word : capitalize(word))] *)
Definition camelWords (words : list jsstring) : list jsstring :=
  match words with
  | [] => []
  | w :: ws => w :: map capitalize ws
  end.

(** [toCamelCase(str)], utils.ts 298-319. *)
Definition toCamelCase (str : jsstring) : jsstring :=
  if negb (nonEmpty str) then []
  else
    let s1 := replaceRuns isCamelSeparator (js " ") str in
    let s2 := toLowerCase (trim s1) in
    let words := List.filter nonEmpty (splitChar " " s2) in
    join [] (camelWords words).

(** [str.split(/(\s+)/)]: the words and, between them, the runs of white
    space that separate them. *)
Fixpoint splitKeepSpaces (s : jsstring) : list jsstring :=
  match s with
  | [] => [[]]
  | c :: s' =>
      if isSpace c then
        match s' with
        | d :: _ =>
            if isSpace d then
              match splitKeepSpaces s' with
              | w :: sep :: rest => w :: (c :: sep) :: rest
              | other => other
              end
            else [] :: [c] :: splitKeepSpaces s'
        | [] => [[]; [c]; []]
        end
      else
        match splitKeepSpaces s' with
        | w :: rest => (c :: w) :: rest
        | [] => [[c]]
        end
  end.

Definition inSet (words : list string) (w : jsstring) : bool :=
  existsb (fun x => str_eqb (js x) w) words.

Definition titleExceptions : list string :=
  ["a"; "an"; "the"; "and"; "but"; "or"; "for"; "nor"; "so"; "yet";
   "at"; "by"; "in"; "of"; "on"; "to"; "up"; "as"; "is"; "it"]%string.

Definition titleUppercaseExceptions : list string :=
  ["usa"; "uk"; "uae"; "nyc"; "la"; "dc"; "ibm"; "nasa"; "fbi"; "cia";
   "ceo"; "cfo"; "cto"; "coo"; "vp"; "svp"; "evp"; "md"; "phd"; "llc";
   "inc"; "ltd"; "ii"; "iii"; "iv"; "vi"; "vii"; "viii"; "ix"; "xi"]%string.

(** The callback of the [map] of [toTitleCase]. *)
Definition titleWord (len : nat) (index : nat) (word : jsstring) : jsstring :=
  if nonEmpty word && forallb isSpace word then word
  else
    let lowerWord := toLowerCase word in
    if inSet titleUppercaseExceptions lowerWord then toUpperCase word
    else
      let isFirstOrLast := (index =? 0) || (index =? len - 1) in
      if negb isFirstOrLast && inSet titleExceptions lowerWord then lowerWord
      else toUpperCase (charAt0 word) ++ toLowerCase (slice_from 1 word).

(** [toTitleCase(str)], utils.ts 222-262. *)
Definition toTitleCase (str : jsstring) : jsstring :=
  if negb (nonEmpty str) then []
  else
    let array := splitKeepSpaces (toLowerCase str) in
    join [] (imap (titleWord (length array)) array).

(* ================================================================== *)
(** * Key transformation *)
(* ================================================================== *)

Inductive CaseType : Type := snake_case | camelCase.

(** The value of a canonical array index ["0"], ["1"], ... below [2^32 - 1]:
    such keys are enumerated first, in increasing order. *)
Definition arrayIndex (key : jsstring) : option N :=
  match key with
  | [] => None
  | c :: rest =>
      if forallb isDigit key && (negb (char_eqb c "0"%char) || (length rest =? 0))
      then
        let n := fold_left (fun acc d => (10 * acc + N.of_nat (code d - 48))%N) key 0%N in
        if (length key <=? 10) && (n <? 4294967295)%N then Some n else None
      else None
  end.

Fixpoint hasProperty (obj : Record_) (key : jsstring) : bool :=
  match obj with
  | [] => false
  | (k, _) :: obj' => str_eqb k key || hasProperty obj' key
  end.

Fixpoint replaceProperty (obj : Record_) (key : jsstring) (value : JsValue) : Record_ :=
  match obj with
  | [] => []
  | (k, v) :: obj' =>
      if str_eqb k key then (k, value) :: obj'
      else (k, v) :: replaceProperty obj' key value
  end.

(** The place of a new array-index key: in front of the first key that is
    a larger index or no index at all. *)
Fixpoint insertIndexProperty (obj : Record_) (n : N) (key : jsstring) (value : JsValue)
    : Record_ :=
  match obj with
  | [] => [(key, value)]
  | (k, v) :: obj' =>
      match arrayIndex k with
      | Some m =>
          if (n <? m)%N then (key, value) :: obj
          else (k, v) :: insertIndexProperty obj' n key value
      | None => (key, value) :: obj
      end
  end.

(** [obj[key] = value] on a plain object, keeping the order in which
    [Object.entries] enumerates it.  The key ["__proto__"] is never
    written by [transformObjectKeys]: neither transformer returns it. *)
Definition setProperty (obj : Record_) (key : jsstring) (value : JsValue) : Record_ :=
  if hasProperty obj key then replaceProperty obj key value
  else
    match arrayIndex key with
    | Some n => insertIndexProperty obj n key value
    | None => obj ++ [(key, value)]
    end.

Definition keyTransformer (caseType : CaseType) : jsstring -> jsstring :=
  match caseType with
  | snake_case => toSnakeCase
  | camelCase => toCamelCase
  end.

(** [transformObjectKeys(obj, caseType)], utils.ts 495-530.  [Date]
    objects are not values of the model. *)
Fixpoint transformObjectKeys (obj : JsValue) (caseType : CaseType) : JsValue :=
  match obj with
  | VUndefined | VNull => obj
  | VArr xs => VArr (map (fun item => transformObjectKeys item caseType) xs)
  | VObj kvs =>
      VObj (fold_left
              (fun result kv =>
                 setProperty result (keyTransformer caseType (fst kv))
                   (transformObjectKeys (snd kv) caseType))
              kvs [])
  | _ => obj
  end.


(* ================================================================== *)
(** * Outcomes of a call *)
(* ================================================================== *)

(** A call returns a value, throws, or runs a loop beyond the fuel given
    to the model of that loop. *)
Inductive Outcome (A : Type) : Type :=
  | Returns (a : A)
  | Throws (message : jsstring)
  | Diverges.
Arguments Returns {A} a.
Arguments Throws {A} message.
Arguments Diverges {A}.

Definition bindOutcome {A B : Type} (c : Outcome A) (k : A -> Outcome B) : Outcome B :=
  match c with
  | Returns a => k a
  | Throws m => Throws m
  | Diverges => Diverges
  end.

Notation "'let*' x ':=' c 'in' k" := (bindOutcome c (fun x => k))
  (at level 10, x name, c at level 100, k at level 200).

(** [parts[i]] as the receiver of a method call or the argument of a
    string operation: a [TypeError] when the entry is [undefined]. *)
Definition readIndex (parts : list jsstring) (i : nat) : Outcome jsstring :=
  match parts !! i with
  | Some x => Returns x
  | None => Throws (js "TypeError: cannot read properties of undefined")
  end.

(* ================================================================== *)
(** * Regular expressions of the parsers *)
(* ================================================================== *)

Definition isWordOpt (c : option ascii) : bool :=
  match c with Some x => isWord x | None => false end.

(** [\b] between the character before and the character after. *)
Definition wordBoundary (prev next : option ascii) : bool :=
  xorb (isWordOpt prev) (isWordOpt next).

(** [s] starts with [p], letters compared without case (flag [i]). *)
Definition startsWithCI (s : jsstring) (p : string) : bool :=
  startsWith (toLowerCase s) (toLowerCase (js p)).

(** The leftmost match of an unanchored expression: [m prev s] is the
    match at the position whose rest is [s] and whose previous character
    is [prev]. *)
Fixpoint searchFrom {R : Type} (m : option ascii -> jsstring -> option R)
    (prev : option ascii) (s : jsstring) : option R :=
  match m prev s with
  | Some r => Some r
  | None =>
      match s with
      | [] => None
      | c :: s' => searchFrom m (Some c) s'
      end
  end.

(** [s.replace(re, '')] for a global expression: [m prev s] is the length
    of the match at a position; [skip] characters of a match remain to be
    dropped. *)
Fixpoint removeMatches (m : option ascii -> jsstring -> option nat)
    (prev : option ascii) (skip : nat) (s : jsstring) : jsstring :=
  match s with
  | [] => []
  | c :: s' =>
      match skip with
      | S k => removeMatches m (Some c) k s'
      | 0 =>
          match m prev s with
          | Some (S k) => removeMatches m (Some c) k s'
          | _ => c :: removeMatches m (Some c) 0 s'
          end
      end
  end.

(** [s.replace(pat, rep)] for a string pattern: the first occurrence. *)
Fixpoint replaceFirst (pat rep s : jsstring) : jsstring :=
  if startsWith s pat then rep ++ drop (length pat) s
  else
    match s with
    | [] => []
    | c :: s' => c :: replaceFirst pat rep s'
    end.

(** [s.split(/[class]+/)] *)
Fixpoint splitRuns (p : ascii -> bool) (s : jsstring) : list jsstring :=
  match s with
  | [] => [[]]
  | c :: s' =>
      if p c then
        match s' with
        | d :: _ => if p d then splitRuns p s' else [] :: splitRuns p s'
        | [] => [[]; []]
        end
      else
        match splitRuns p s' with
        | w :: ws => (c :: w) :: ws
        | [] => [[c]]
        end
  end.

Fixpoint firstSome {R : Type} (l : list (option R)) : option R :=
  match l with
  | [] => None
  | Some r :: _ => Some r
  | None :: l' => firstSome l'
  end.

(** [\s*(\d+)] at the start of [s]: the digits, with the text matched. *)
Definition spacesThenDigits (s : jsstring) : option (jsstring * jsstring) :=
  let spaces := takeWhile isSpace s in
  let digits := takeWhile isDigit (dropWhile isSpace s) in
  if nonEmpty digits then Some (spaces ++ digits, digits) else None.

(** A keyword, an optional ['.'] when [optDot], then [tail]: the text
    matched and the group captured by [tail]. *)
Definition keywordThen (tail : jsstring -> option (jsstring * jsstring))
    (kw : string) (optDot : bool) (s : jsstring) : option (jsstring * jsstring) :=
  if startsWithCI s kw then
    let n := String.length kw in
    let r := drop n s in
    let withDot :=
      if optDot && startsWith r (js ".")
      then match tail (drop 1 r) with
           | Some (text, group) => Some (take (n + 1) s ++ text, group)
           | None => None
           end
      else None in
    match withDot with
    | Some m => Some m
    | None =>
        match tail r with
        | Some (text, group) => Some (take n s ++ text, group)
        | None => None
        end
    end
  else None.

(** [/(?:ext\.?|x|extension)\s*(\d+)/i] at a position: the text matched
    and the digits captured. *)
Definition extensionAt (s : jsstring) : option (jsstring * jsstring) :=
  firstSome [ keywordThen spacesThenDigits "ext" true s;
              keywordThen spacesThenDigits "x" false s;
              keywordThen spacesThenDigits "extension" false s ].

Definition extensionMatch (s : jsstring) : option (jsstring * jsstring) :=
  searchFrom (fun _ r => extensionAt r) None s.

(** [/^\+[1-9]\d{1,14}$/.test(phone)], utils.ts 413-417. *)
Definition isValidE164 (phone : jsstring) : bool :=
  match phone with
  | p :: d :: rest =>
      char_eqb p "+"%char && isDigit d && negb (char_eqb d "0"%char)
      && forallb isDigit rest && (1 <=? length rest) && (length rest <=? 14)
  | _ => false
  end.

(** [/\b(\d{5}(?:-\d{4})?)\b/] at a position. *)
Definition zipAt (prev : option ascii) (s : jsstring) : option jsstring :=
  let d5 := take 5 s in
  if wordBoundary prev (head s) && (length d5 =? 5) && forallb isDigit d5 then
    let r := drop 5 s in
    let plus4 := take 5 r in
    if (length plus4 =? 5) && startsWith plus4 (js "-")
       && forallb isDigit (drop 1 plus4)
       && wordBoundary (last plus4) (head (drop 5 r))
    then Some (d5 ++ plus4)
    else if wordBoundary (last d5) (head r) then Some d5 else None
  else None.

(** [/\b([A-Z]\d[A-Z]\s?\d[A-Z]\d)\b/i] at a position. *)
Definition caPostalAt (prev : option ascii) (s : jsstring) : option jsstring :=
  match s with
  | a :: b :: c :: rest =>
      if wordBoundary prev (Some a) && isAlpha a && isDigit b && isAlpha c then
        let '(sp, rest') :=
          match rest with
          | x :: r' => if isSpace x then ([x], r') else ([], rest)
          | [] => ([], [])
          end in
        match rest' with
        | d :: e :: f :: tail =>
            if isDigit d && isAlpha e && isDigit f && wordBoundary (Some f) (head tail)
            then Some ([a; b; c] ++ sp ++ [d; e; f])
            else None
        | _ => None
        end
      else None
  | _ => None
  end.

(** [/\b(USA|United States|US|Canada|CA)\b/gi] at a position: the length
    of the match. *)
Definition countryNameAt (prev : option ascii) (s : jsstring) : option nat :=
  if wordBoundary prev (head s) then
    firstSome
      (map (fun name : string =>
              let n := String.length name in
              if startsWithCI s name && wordBoundary (last (take n s)) (head (drop n s))
              then Some n else None)
           ["USA"; "United States"; "US"; "Canada"; "CA"]%string)
  else None.

(** The class [[a-z0-9-]] under the flag [i]. *)
Definition isUnitChar (c : ascii) : bool :=
  isAlpha c || isDigit c || char_eqb c "-"%char.

(** [\s*([a-z0-9-]+)] at the start of [s]. *)
Definition spacesThenUnit (s : jsstring) : option (jsstring * jsstring) :=
  let spaces := takeWhile isSpace s in
  let unit_ := takeWhile isUnitChar (dropWhile isSpace s) in
  if nonEmpty unit_ then Some (spaces ++ unit_, unit_) else None.

(** [/(?:apt\.?|apartment|unit|suite|ste\.?|#)\s*([a-z0-9-]+)/i] at a
    position. *)
Definition unitAt (s : jsstring) : option (jsstring * jsstring) :=
  firstSome [ keywordThen spacesThenUnit "apt" true s;
              keywordThen spacesThenUnit "apartment" false s;
              keywordThen spacesThenUnit "unit" false s;
              keywordThen spacesThenUnit "suite" false s;
              keywordThen spacesThenUnit "ste" true s;
              keywordThen spacesThenUnit "#" false s ].

Definition unitMatch (s : jsstring) : option (jsstring * jsstring) :=
  searchFrom (fun _ r => unitAt r) None s.

(** [s] starts with [\s+(?:apt\.?|apartment|unit|suite|ste\.?|#)]. *)
Definition unitKeywordAhead (s : jsstring) : bool :=
  let r := dropWhile isSpace s in
  nonEmpty (takeWhile isSpace s)
  && existsb (startsWithCI r) ["apt"; "apartment"; "unit"; "suite"; "ste"; "#"]%string.

(** The lazy group [(.+?)] of the street expression on a non-empty rest:
    the shortest non-empty prefix after which the string ends or the unit
    keyword follows. *)
Fixpoint lazyStreetName (s : jsstring) : jsstring :=
  match s with
  | [] => []
  | c :: s' =>
      if (length s' =? 0) || unitKeywordAhead s' then [c]
      else c :: lazyStreetName s'
  end.

(** [/^(\d+(?:-\d+)?[a-z]?)\s+(.+?)U?$/i] on a street part, where [U] is
    the group [\s+(?:apt\.?|apartment|unit|suite|ste\.?|#)] followed by any
    characters: the two groups captured.  A street part is trimmed and
    holds no line terminator, so the white space after the number is
    followed by a character and [.] matches every character. *)
Definition streetMatch (s : jsstring) : option (jsstring * jsstring) :=
  let d1 := takeWhile isDigit s in
  if nonEmpty d1 then
    let r1 := dropWhile isDigit s in
    let '(g2, r2) :=
      match r1 with
      | c :: t =>
          if char_eqb c "-"%char && nonEmpty (takeWhile isDigit t)
          then (d1 ++ c :: takeWhile isDigit t, dropWhile isDigit t)
          else (d1, r1)
      | [] => (d1, r1)
      end in
    let '(g3, r3) :=
      match r2 with
      | c :: t => if isAlpha c then (g2 ++ [c], t) else (g2, r2)
      | [] => (g2, r2)
      end in
    let rest := dropWhile isSpace r3 in
    if nonEmpty (takeWhile isSpace r3) && nonEmpty rest
    then Some (g3, lazyStreetName rest)
    else None
  else None.


(* ================================================================== *)
(** * Name parsing *)
(* ================================================================== *)

(** [ParsedName], utils.ts 726-741.  [full] is a [JsValue]: [parseUsername]
    stores its argument there before it tests its type. *)
Record ParsedName : Type := mkParsedName {
  full : JsValue;
  firstName : jsstring;
  middleName : jsstring;
  lastName : jsstring;
  prefix : jsstring;
  suffix : jsstring;
  initials : jsstring
}.

Definition NAME_PREFIXES : list string :=
  ["mr"; "mrs"; "ms"; "miss"; "dr"; "prof"; "professor";
   "rev"; "reverend"; "fr"; "father"; "sr"; "sister";
   "hon"; "honorable"; "judge"; "justice";
   "sir"; "dame"; "lord"; "lady"; "capt"; "captain";
   "col"; "colonel"; "gen"; "general"; "lt"; "lieutenant";
   "sgt"; "sergeant"; "cpl"; "corporal"; "pvt"; "private";
   "adm"; "admiral"; "cmdr"; "commander"; "maj"; "major"]%string.

Definition NAME_SUFFIXES : list string :=
  ["jr"; "sr"; "i"; "ii"; "iii"; "iv"; "v"; "vi"; "vii"; "viii"; "ix"; "x";
   "phd"; "md"; "dds"; "dvm"; "jd"; "esq"; "esquire";
   "cpa"; "rn"; "rph"; "pe"; "ra"; "aia"; "faia";
   "ret"; "retired"; "usn"; "usmc"; "usaf"; "usa"]%string.

Definition isDot (c : ascii) : bool := char_eqb c "."%char.
Definition isComma (c : ascii) : bool := char_eqb c ","%char.

(** The [while] loop of [parseName] that moves trailing suffixes from
    [parts] to [suffixes]. *)
Fixpoint suffixLoop (fuel : nat) (parts suffixes : list jsstring)
    : Outcome (list jsstring * list jsstring) :=
  if 1 <? length parts then
    match fuel with
    | 0 => Diverges
    | S fuel' =>
        let* lastRaw := readIndex parts (length parts - 1) in
        let lastPart := removeAll isComma (removeAll isDot (toLowerCase lastRaw)) in
        if inSet NAME_SUFFIXES lastPart then
          suffixLoop fuel' (take (length parts - 1) parts)
            (default [] (last parts) :: suffixes)
        else Returns (parts, suffixes)
    end
  else Returns (parts, suffixes).

(** The block of [parseName] that extracts the prefix: the prefix and the
    parts that remain. *)
Definition extractPrefix (parts : list jsstring)
    : Outcome (jsstring * list jsstring) :=
  if 1 <? length parts then
    let* p0 := readIndex parts 0 in
    let firstPart := removeAll isDot (toLowerCase p0) in
    if inSet NAME_PREFIXES firstPart
    then Returns (default [] (head parts), drop 1 parts)
    else Returns ([], parts)
  else Returns ([], parts).

(** The assignment of the remaining parts to first, middle and last name,
    shared by [parseName] and [parseUsername]. *)
Definition assignNameParts (parts : list jsstring)
    : Outcome (jsstring * jsstring * jsstring) :=
  if length parts =? 1 then
    let* p0 := readIndex parts 0 in
    Returns (p0, [], [])
  else if length parts =? 2 then
    let* p0 := readIndex parts 0 in
    let* p1 := readIndex parts 1 in
    Returns (p0, [], p1)
  else if 3 <=? length parts then
    let* p0 := readIndex parts 0 in
    let* pl := readIndex parts (length parts - 1) in
    Returns (p0, join (js " ") (take (length parts - 2) (drop 1 parts)), pl)
  else Returns ([], [], []).

(** The initials of the non-empty names among first, middle and last. *)
Definition makeInitials (first middle last_ : jsstring) : jsstring :=
  let initialParts :=
    map (fun p => toUpperCase (charAt0 p))
        (List.filter nonEmpty [first; middle; last_]) in
  join (js ".") initialParts ++ (if 0 <? length initialParts then js "." else []).

Definition emptyParsedName (full_ : JsValue) : ParsedName :=
  mkParsedName full_ [] [] [] [] [] [].

(** [parseName(fullName)], utils.ts 773-849. *)
Definition parseName (fullName : JsValue) : Outcome ParsedName :=
  match fullName with
  | VStr s =>
      if negb (truthy fullName) then Returns (emptyParsedName (VStr []))
      else
        let name := replaceRuns isSpace (js " ") (trim s) in
        let full_ := VStr name in
        let name :=
          if includesChar "," name then
            match map trim (splitChar "," name) with
            | lastPart :: rest =>
                if 0 <? length rest
                then join (js " ") rest ++ js " " ++ lastPart
                else name
            | [] => name
            end
          else name in
        let parts := List.filter nonEmpty (splitChar " " name) in
        if length parts =? 0 then Returns (emptyParsedName full_)
        else
          let* shifted := extractPrefix parts in
          let '(prefix_, parts) := shifted in
          let* popped := suffixLoop (length parts) parts [] in
          let '(parts, suffixes) := popped in
          let* names := assignNameParts parts in
          let '(first, middle, last_) := names in
          Returns (mkParsedName full_ first middle last_ prefix_
                     (join (js " ") suffixes) (makeInitials first middle last_))
  | _ => Returns (emptyParsedName (VStr []))
  end.

Definition isUsernameSeparator (c : ascii) : bool :=
  char_eqb c "_"%char || char_eqb c "."%char || char_eqb c "-"%char.

(** [parseUsername(username)], utils.ts 858-922. *)
Definition parseUsername (username : JsValue) : Outcome ParsedName :=
  match username with
  | VStr s =>
      if negb (truthy username) then Returns (emptyParsedName (orEmpty username))
      else
        let noPrefix :=
          match s with
          | c :: s' => if char_eqb c "@"%char || char_eqb c "#"%char then s' else s
          | [] => s
          end in
        let cleaned := rev (dropWhile isDigit (rev noPrefix)) in
        let parts :=
          if includesChar "_" cleaned || includesChar "." cleaned
             || includesChar "-" cleaned
          then List.filter nonEmpty (splitRuns isUsernameSeparator cleaned)
          else
            let camelParts := splitChar " " (splitLowerUpper (js " ") cleaned) in
            if 1 <? length camelParts then camelParts else [cleaned] in
        let parts := map toTitleCase parts in
        let* names := assignNameParts parts in
        let '(first, middle, last_) := names in
        let full_ := join (js " ") (List.filter nonEmpty [first; middle; last_]) in
        Returns (mkParsedName (VStr full_) first middle last_ [] []
                   (makeInitials first middle last_))
  | _ => Returns (emptyParsedName (orEmpty username))
  end.

(* ================================================================== *)
(** * Phone parsing *)
(* ================================================================== *)

(** [ParsedPhoneNumber], utils.ts 931-950. *)
Record ParsedPhoneNumber : Type := mkParsedPhoneNumber {
  original : JsValue;
  e164 : jsstring;
  national : jsstring;
  international : jsstring;
  countryCode : jsstring;
  areaCode : jsstring;
  localNumber : jsstring;
  extension : jsstring;
  isValid : bool
}.

(** The country code and the national number found by [parsePhoneNumber]. *)
Definition detectCountryCode (hasPlus : bool) (digitsOnly defaultCountryCode : jsstring)
    : jsstring * jsstring :=
  let len := length digitsOnly in
  if hasPlus then
    if startsWith digitsOnly (js "1") && (len =? 11)
    then (js "1", slice_from 1 digitsOnly)
    else if startsWith digitsOnly (js "44") && (12 <=? len)
    then (js "44", slice_from 2 digitsOnly)
    else if startsWith digitsOnly (js "91") && (len =? 12)
    then (js "91", slice_from 2 digitsOnly)
    else if startsWith digitsOnly (js "86") && (len =? 13)
    then (js "86", slice_from 2 digitsOnly)
    else if startsWith digitsOnly (js "49") && (11 <=? len)
    then (js "49", slice_from 2 digitsOnly)
    else if 10 <? len then
      let ccLength := len - 10 in
      (slice 0 (Nat.min ccLength 3) digitsOnly,
       slice_from (Nat.min ccLength 3) digitsOnly)
    else (defaultCountryCode, digitsOnly)
  else if (len =? 11) && startsWith digitsOnly (js "1")
  then (js "1", slice_from 1 digitsOnly)
  else if (len =? 11) && startsWith digitsOnly (js "0")
  then (js "44", slice_from 1 digitsOnly)
  else (defaultCountryCode, digitsOnly).

(** The extension found by [parsePhoneNumber] and the string that is left
    for the digit count. *)
Definition extractExtension (phone : jsstring) : jsstring * jsstring :=
  match extensionMatch phone with
  | Some (text, digits) => (digits, trim (replaceFirst text [] phone))
  | None => ([], phone)
  end.

(** [parsePhoneNumber(phone, defaultCountryCode)], utils.ts 959-1072. *)
Definition parsePhoneNumber (phone : JsValue) (defaultCountryCode : jsstring)
    : Outcome ParsedPhoneNumber :=
  let original_ := orEmpty phone in
  match phone with
  | VStr s =>
      if negb (truthy phone)
      then Returns (mkParsedPhoneNumber original_ [] [] [] [] [] [] [] false)
      else
        let '(extension_, phone') := extractExtension s in
        let hasPlus := startsWith (trim phone') (js "+") in
        let digitsOnly := removeAll (fun c => negb (isDigit c)) phone' in
        if (length digitsOnly <? 7) || (15 <? length digitsOnly)
        then Returns (mkParsedPhoneNumber original_ [] [] [] [] [] [] extension_ false)
        else
          let '(countryCode_, nationalNumber) :=
            detectCountryCode hasPlus digitsOnly defaultCountryCode in
          let '(areaCode_, localNumber_) :=
            if 10 <=? length nationalNumber
            then (slice 0 3 nationalNumber, slice_from 3 nationalNumber)
            else if 7 <=? length nationalNumber then ([], nationalNumber)
            else ([], []) in
          let e164_ := js "+" ++ countryCode_ ++ nationalNumber in
          let national_ :=
            if length nationalNumber =? 10
            then js "(" ++ slice 0 3 nationalNumber ++ js ") "
                 ++ slice 3 6 nationalNumber ++ js "-" ++ slice_from 6 nationalNumber
            else if length nationalNumber =? 7
            then slice 0 3 nationalNumber ++ js "-" ++ slice_from 3 nationalNumber
            else nationalNumber in
          let international_ :=
            if length nationalNumber =? 10
            then js "+" ++ countryCode_ ++ js " " ++ slice 0 3 nationalNumber ++ js " "
                 ++ slice 3 6 nationalNumber ++ js " " ++ slice_from 6 nationalNumber
            else js "+" ++ countryCode_ ++ js " " ++ nationalNumber in
          let '(national_, international_) :=
            if nonEmpty extension_
            then (national_ ++ js " ext. " ++ extension_,
                  international_ ++ js " ext. " ++ extension_)
            else (national_, international_) in
          Returns (mkParsedPhoneNumber original_ e164_ national_ international_
                     countryCode_ areaCode_ localNumber_ extension_
                     (isValidE164 e164_))
  | _ => Returns (mkParsedPhoneNumber original_ [] [] [] [] [] [] [] false)
  end.



(* ================================================================== *)
(** * Address parsing *)
(* ================================================================== *)

(** [ParsedAddress], utils.ts 1284-1303. *)
Record ParsedAddress : Type := mkParsedAddress {
  addressOriginal : JsValue;
  streetNumber : jsstring;
  streetName : jsstring;
  unit_ : jsstring;
  city : jsstring;
  state : jsstring;
  postalCode : jsstring;
  country : jsstring;
  streetAddress : jsstring
}.

Definition US_STATES : list (string * string) :=
  [("alabama", "AL"); ("alaska", "AK"); ("arizona", "AZ"); ("arkansas", "AR");
   ("california", "CA"); ("colorado", "CO"); ("connecticut", "CT"); ("delaware", "DE");
   ("florida", "FL"); ("georgia", "GA"); ("hawaii", "HI"); ("idaho", "ID");
   ("illinois", "IL"); ("indiana", "IN"); ("iowa", "IA"); ("kansas", "KS");
   ("kentucky", "KY"); ("louisiana", "LA"); ("maine", "ME"); ("maryland", "MD");
   ("massachusetts", "MA"); ("michigan", "MI"); ("minnesota", "MN"); ("mississippi", "MS");
   ("missouri", "MO"); ("montana", "MT"); ("nebraska", "NE"); ("nevada", "NV");
   ("new hampshire", "NH"); ("new jersey", "NJ"); ("new mexico", "NM"); ("new york", "NY");
   ("north carolina", "NC"); ("north dakota", "ND"); ("ohio", "OH"); ("oklahoma", "OK");
   ("oregon", "OR"); ("pennsylvania", "PA"); ("rhode island", "RI"); ("south carolina", "SC");
   ("south dakota", "SD"); ("tennessee", "TN"); ("texas", "TX"); ("utah", "UT");
   ("vermont", "VT"); ("virginia", "VA"); ("washington", "WA"); ("west virginia", "WV");
   ("wisconsin", "WI"); ("wyoming", "WY"); ("district of columbia", "DC")]%string.

Definition STATE_ABBREVS : list string := map snd US_STATES.

(** [US_STATES[key]]: [undefined] is [None]. *)
Definition lookupState (key : jsstring) : option jsstring :=
  match List.find (fun kv => str_eqb (js (fst kv)) key) US_STATES with
  | Some kv => Some (js (snd kv))
  | None => None
  end.

(** [s.replace(/,.*$/, '')]: cut at the first comma. *)
Definition cutAtComma (s : jsstring) : jsstring :=
  takeWhile (fun c => negb (isComma c)) s.

(** The street fields computed from [parts[0]]: number, name, unit and
    street address. *)
Definition parseStreetPart (streetPart : jsstring)
    : jsstring * jsstring * jsstring * jsstring :=
  let unit1 :=
    match unitMatch streetPart with
    | Some (_, u) => u
    | None => []
    end in
  let '(streetNumber_, streetName_) :=
    match streetMatch streetPart with
    | Some (number, name) => (number, trim (cutAtComma name))
    | None => ([], trim (cutAtComma streetPart))
    end in
  let streetAddress_ :=
    if nonEmpty streetNumber_ then streetNumber_ ++ js " " ++ streetName_
    else streetName_ in
  let streetAddress_ :=
    if nonEmpty unit1 then streetAddress_ ++ js " #" ++ unit1 else streetAddress_ in
  (streetNumber_, streetName_, unit1, streetAddress_).

(** The block of [parseAddress] that extracts the postal code: the
    postal code, the country and the string that remains. *)
Definition extractPostalCode (normalized : jsstring)
    : jsstring * jsstring * jsstring :=
  let usZipMatch := searchFrom zipAt None normalized in
  let caPostalMatch := searchFrom caPostalAt None normalized in
  match usZipMatch, caPostalMatch with
  | Some zip, _ =>
      (zip, js "USA", trim (replaceFirst zip [] normalized))
  | None, Some postal =>
      (map (fun c => if isSpace c then " "%char else c) (toUpperCase postal),
       js "Canada", trim (replaceFirst postal [] normalized))
  | None, None => ([], [], normalized)
  end.

(** The block of [parseAddress] on [parts[0]]. *)
Definition streetOfParts (parts : list jsstring)
    : Outcome (jsstring * jsstring * jsstring * jsstring) :=
  if 1 <=? length parts then
    let* streetPart := readIndex parts 0 in
    Returns (parseStreetPart streetPart)
  else Returns ([], [], [], []).

(** The block of [parseAddress] on [parts[1]]. *)
Definition cityOfParts (parts : list jsstring) : Outcome jsstring :=
  if 2 <=? length parts then readIndex parts 1 else Returns [].

(** The block of [parseAddress] on [parts[2]]. *)
Definition stateOfParts (parts : list jsstring) : Outcome jsstring :=
  if 3 <=? length parts then
    let* p2 := readIndex parts 2 in
    let statePart := trim p2 in
    let stateUpper := toUpperCase statePart in
    if inSet STATE_ABBREVS stateUpper then Returns stateUpper
    else
      let stateLower := toLowerCase statePart in
      match lookupState stateLower with
      | Some abbrev => Returns abbrev
      | None => Returns statePart
      end
  else Returns [].

(** The last block of [parseAddress]: a state abbreviation that ends the
    city; the city and the state that result. *)
Definition stateFromCity (city_ state_ : jsstring) : Outcome (jsstring * jsstring) :=
  if negb (nonEmpty state_) && nonEmpty city_ then
    let cityStateParts := splitRuns isSpace city_ in
    if 2 <=? length cityStateParts then
      let* lastRaw := readIndex cityStateParts (length cityStateParts - 1) in
      let lastPart := toUpperCase lastRaw in
      if inSet STATE_ABBREVS lastPart
      then Returns (join (js " ") (take (length cityStateParts - 1) cityStateParts),
                    lastPart)
      else Returns (city_, state_)
    else Returns (city_, state_)
  else Returns (city_, state_).

(** [parseAddress(address)], utils.ts 1336-1435. *)
Definition parseAddress (address : JsValue) : Outcome ParsedAddress :=
  let original_ := orEmpty address in
  match address with
  | VStr s =>
      if negb (truthy address)
      then Returns (mkParsedAddress original_ [] [] [] [] [] [] [] [])
      else
        let normalized := replaceRuns isSpace (js " ") (trim s) in
        let '(postalCode_, country_, normalized) := extractPostalCode normalized in
        let normalized := trim (removeMatches countryNameAt None 0 normalized) in
        let parts := List.filter nonEmpty (map trim (splitChar "," normalized)) in
        let* street := streetOfParts parts in
        let '(streetNumber_, streetName_, unit1, streetAddress_) := street in
        let* city_ := cityOfParts parts in
        let* state_ := stateOfParts parts in
        let* cityState := stateFromCity city_ state_ in
        let '(city_, state_) := cityState in
        Returns (mkParsedAddress original_ streetNumber_ streetName_ unit1 city_
                   state_ postalCode_ country_ streetAddress_)
  | _ => Returns (mkParsedAddress original_ [] [] [] [] [] [] [] [])
  end.


(** A value that is not a non-empty string: the inputs that the guard at
    the head of every parser sends to the default result. *)
Definition notNonEmptyString (v : JsValue) : Prop :=
  forall s, v = VStr s -> s = [].

Definition defaultParsedPhoneNumber (original_ : JsValue) (extension_ : jsstring)
    : ParsedPhoneNumber :=
  mkParsedPhoneNumber original_ [] [] [] [] [] [] extension_ false.

Definition defaultParsedAddress (original_ : JsValue) : ParsedAddress :=
  mkParsedAddress original_ [] [] [] [] [] [] [] [].





(** ** Normal forms of the key transformation *)

(** The characters of a snake-case key. *)
Definition isSnakeChar (c : ascii) : bool := isLower c || isDigit c || isUnderscore c.

Fixpoint noDoubleUnderscore (s : jsstring) : bool :=
  match s with
  | c1 :: ((c2 :: _) as t) =>
      negb (isUnderscore c1 && isUnderscore c2) && noDoubleUnderscore t
  | _ => true
  end.

Definition headIs (p : ascii -> bool) (s : jsstring) : bool :=
  match head s with Some c => p c | None => false end.

Definition lastIs (p : ascii -> bool) (s : jsstring) : bool :=
  match last s with Some c => p c | None => false end.

(** The strings that [toSnakeCase] returns: lower-case letters, digits and
    single underscores, with no underscore at either end. *)
Definition snakeNormal (s : jsstring) : bool :=
  forallb isSnakeChar s && negb (headIs isUnderscore s)
  && negb (lastIs isUnderscore s) && noDoubleUnderscore s.

(** The order in which [Object.entries] lists two keys: array indices in
    increasing order first, then the other keys. *)
Definition keyBefore (k1 k2 : jsstring) : Prop :=
  match arrayIndex k1, arrayIndex k2 with
  | Some a, Some b => (a <= b)%N
  | Some _, None => True
  | None, Some _ => False
  | None, None => True
  end.

(** An object as [setProperty] builds it: distinct keys in the order of
    [Object.entries]. *)
Definition canonicalObject (obj : Record_) : Prop :=
  NoDup (map fst obj) /\ StronglySorted keyBefore (map fst obj).


(** ** Vocabulary of the properties of the similarity metrics *)

(** The edit distance of two strings by its defining recurrence: the least
    number of insertions, deletions and substitutions of one character
    that turn one string into the other. *)
Fixpoint editDistance (a b : jsstring) : nat :=
  match a with
  | [] => length b
  | x :: a' =>
      (fix against (b : jsstring) : nat :=
         match b with
         | [] => S (length a')
         | y :: b' =>
             Nat.min (against b' + 1)
               (Nat.min (editDistance a' b + 1)
                  (editDistance a' b' + (if char_eqb x y then 0 else 1)))
         end) b
  end.

(** The invariant of the rows of [levenshteinDistance]: the row computed
    for the first [i] characters of [longer] holds, at every [j], the
    distance of that prefix to the first [j] characters of [shorter]. *)
Definition levenshteinRowOf (longer shorter : jsstring) (i : nat) (row : list nat) : Prop :=
  length row = length shorter + 1 /\
  forall j, j <= length shorter ->
    nth j row 0 = editDistance (rev (take i longer)) (rev (take j shorter)).


(** ** Vocabulary of the properties of the case conversions *)

(** Every key of [v], at every depth, satisfies [p]. *)
Fixpoint keysAll (p : jsstring -> bool) (v : JsValue) : bool :=
  match v with
  | VArr xs => forallb (keysAll p) xs
  | VObj kvs => forallb (fun kv => p (fst kv) && keysAll p (snd kv)) kvs
  | _ => true
  end.


(* ================================================================== *)
(** * Text formatting *)
(* ================================================================== *)

(** The class [[.!?]]. *)
Definition isSentenceEnd (c : ascii) : bool :=
  char_eqb c "."%char || char_eqb c "!"%char || char_eqb c "?"%char.

(** [\s*\w] ([minSpaces] 0) or [\s+\w] ([minSpaces] 1) at the head of [s]:
    the matched text and the rest.  The star takes every white-space
    character; giving one back cannot help, since none is a word
    character. *)
Definition wordAfterSpaces (minSpaces : nat) (s : jsstring)
    : option (jsstring * jsstring) :=
  let spaces := takeWhile isSpace s in
  match dropWhile isSpace s with
  | w :: rest =>
      if isWord w && (minSpaces <=? length spaces)
      then Some (spaces ++ [w], rest) else None
  | [] => None
  end.

(** [/(^\s*\w|[.!?]\s+\w)/] at the head of [s]; [atStart] tells whether the
    head of [s] is the start of the text, where alone [^] matches. *)
Definition sentenceMatch (atStart : bool) (s : jsstring)
    : option (jsstring * jsstring) :=
  match (if atStart then wordAfterSpaces 0 s else None) with
  | Some m => Some m
  | None =>
      match s with
      | p :: s' =>
          if isSentenceEnd p then
            match wordAfterSpaces 1 s' with
            | Some (m, rest) => Some (p :: m, rest)
            | None => None
            end
          else None
      | [] => None
      end
  end.

(** [s.replace(/(^\s*\w|[.!?]\s+\w)/g, match => match.toUpperCase())]:
    the leftmost match is replaced and the search goes on behind it; a
    character at which no match starts is copied.  Every match holds a
    character, so [fuel] at least the length of [s] is never used up. *)
Fixpoint sentenceReplace (fuel : nat) (atStart : bool) (s : jsstring) : jsstring :=
  match fuel with
  | 0 => s
  | S fuel' =>
      match sentenceMatch atStart s with
      | Some (m, rest) => toUpperCase m ++ sentenceReplace fuel' false rest
      | None =>
          match s with
          | c :: s' => c :: sentenceReplace fuel' false s'
          | [] => []
          end
      end
  end.

(** [toSentenceCase(text)], utils.ts 1269-1275. *)
Definition toSentenceCase (text : jsstring) : jsstring :=
  if negb (nonEmpty text) then []
  else sentenceReplace (length text) true (toLowerCase text).

(** The values of [caseType] that [formatText] acts on. *)
Inductive TextCase : Type := lower | upper | title | sentence.

(** [FormatTextOptions], utils.ts 1177-1195; [None] is an option left
    [undefined] ([null] for [caseType]).  [maxLength] is an integer. *)
Record FormatTextOptions : Type := mkFormatTextOptions {
  trimWhitespace : option bool;
  removeLineBreaks : option bool;
  caseType : option TextCase;
  removeSpecialChars : option bool;
  removeNumbers : option bool;
  removePunctuation : option bool;
  maxLength : option Z;
  truncationIndicator : option jsstring
}.

(** The truth value of an optional flag. *)
Definition flagSet (flag : option bool) : bool := default false flag.

(** The class [[\r\n]]. *)
Definition isLineBreak (c : ascii) : bool := (code c =? 13) || (code c =? 10).

(** The class of [removePunctuation]: the characters [. , ! ? ; :], the
    single and the double quote (code 34), and the brackets [( ) [ ] { }]. *)
Definition isPunctuation (c : ascii) : bool :=
  existsb (char_eqb c)
    ["."; ","; "!"; "?"; ";"; ":"; "'"; "("; ")"; "["; "]"; "{"; "}"]%char
  || (code c =? 34).

(** [s.slice(0, n)] for an integer [n]: a negative [n] counts from the end. *)
Definition sliceTo (n : Z) (s : jsstring) : jsstring :=
  if (0 <=? n)%Z then take (Z.to_nat n) s
  else take (length s - Z.to_nat (- n)) s.

(** [formatText(text, options)], utils.ts 1204-1261. *)
Definition formatText (text : JsValue) (options : FormatTextOptions) : JsValue :=
  match text with
  | VStr t =>
      if negb (truthy text) then orEmpty text
      else
        let result := t in
        let result :=
          if flagSet (removeLineBreaks options)
          then replaceRuns isLineBreak (js " ") result else result in
        let result :=
          match trimWhitespace options with
          | Some false => result
          | _ => trim (replaceRuns isSpace (js " ") result)
          end in
        let result :=
          if flagSet (removeSpecialChars options)
          then removeAll (fun c => negb (isAlpha c || isDigit c || isSpace c)) result
          else result in
        let result :=
          if flagSet (removeNumbers options) then removeAll isDigit result else result in
        let result :=
          if flagSet (removePunctuation options)
          then removeAll isPunctuation result else result in
        let result :=
          match caseType options with
          | Some lower => toLowerCase result
          | Some upper => toUpperCase result
          | Some title => toTitleCase result
          | Some sentence => toSentenceCase result
          | None => result
          end in
        let result :=
          match maxLength options with
          | Some m =>
              if negb (m =? 0)%Z && (m <? Z.of_nat (length result))%Z then
                let indicator := default (js "...") (truncationIndicator options) in
                sliceTo (m - Z.of_nat (length indicator)) result ++ indicator
              else result
          | None => result
          end in
        VStr result
  | _ => orEmpty text
  end.

(** No two adjacent characters of the class [p]. *)
Fixpoint noAdjacent (p : ascii -> bool) (s : jsstring) : bool :=
  match s with
  | c1 :: ((c2 :: _) as t) => negb (p c1 && p c2) && noAdjacent p t
  | _ => true
  end.

(** Words separated by single blanks: the only white space is the blank,
    never doubled and never at either end. *)
Definition singleSpaced (s : jsstring) : bool :=
  forallb (fun c => negb (isSpace c) || char_eqb c " "%char) s
  && noAdjacent isSpace s && negb (headIs isSpace s) && negb (lastIs isSpace s).


(* ================================================================== *)
(** * Email addresses *)
(* ================================================================== *)

(** [s.indexOf(c)] for a one-character needle: [None] stands for [-1]. *)
Fixpoint indexOfChar (c : ascii) (s : jsstring) : option nat :=
  match s with
  | [] => None
  | x :: s' => if char_eqb x c then Some 0 else S <$> indexOfChar c s'
  end.

(** The table [domainCorrections] of [normalizeEmail]. *)
Definition domainCorrections : list (string * string) :=
  [ ("gmial.com", "gmail.com"); ("gmal.com", "gmail.com"); ("gamil.com", "gmail.com");
    ("gnail.com", "gmail.com"); ("gmaill.com", "gmail.com");
    ("hotmal.com", "hotmail.com"); ("hotmai.com", "hotmail.com");
    ("hotamil.com", "hotmail.com");
    ("yahooo.com", "yahoo.com"); ("yaho.com", "yahoo.com");
    ("outloo.com", "outlook.com"); ("outlok.com", "outlook.com") ]%string.

(** The entry of the table under the key [domain]. *)
Definition lookupCorrection (domain : jsstring) : option jsstring :=
  (fun kv => js (snd kv))
    <$> List.find (fun kv => str_eqb (js (fst kv)) domain) domainCorrections.

(** [domainCorrections[domain] || domain].  The table is an object
    literal, so a key that it does not hold is looked up in
    [Object.prototype]; the domain is in lower case, and the two
    lower-case names found there are [constructor] (the function [Object])
    and [__proto__] (the prototype itself): both are truthy, and the
    concatenation that follows turns them into the strings below. *)
Definition correctedDomain (domain : jsstring) : jsstring :=
  match lookupCorrection domain with
  | Some corrected => corrected
  | None =>
      if str_eqb domain (js "constructor") then js "function Object() { [native code] }"
      else if str_eqb domain (js "__proto__") then js "[object Object]"
      else domain
  end.

(** [normalizeEmail(email)], utils.ts 432-466. *)
Definition normalizeEmail (email : JsValue) : JsValue :=
  match email with
  | VStr e =>
      if negb (truthy email) then orEmpty email
      else
        let normalized := toLowerCase (trim e) in
        match indexOfChar "@" normalized with
        | None => VStr normalized
        | Some atIndex =>
            if (atIndex <? 1) || (atIndex =? length normalized - 1)
            then VStr normalized
            else
              let domain := slice_from (atIndex + 1) normalized in
              VStr (slice 0 (atIndex + 1) normalized ++ correctedDomain domain)
        end
  | _ => orEmpty email
  end.

(** The class [[^\s@]]. *)
Definition isEmailChar (c : ascii) : bool := negb (isSpace c || char_eqb c "@"%char).

(** [/^[^\s@]+@[^\s@]+\.[^\s@]{2,}$/.test(s)]: the first run of the class
    ends at an ['@']; what follows it is of the class up to the end, and
    holds a dot with at least one character before it and at least two
    after it. *)
Definition emailRegex (s : jsstring) : bool :=
  let localPart := takeWhile isEmailChar s in
  match dropWhile isEmailChar s with
  | a :: domain =>
      nonEmpty localPart && char_eqb a "@"%char && forallb isEmailChar domain
      && existsb (fun c => char_eqb c "."%char) (slice 1 (length domain - 2) domain)
  | [] => false
  end.

(** [isValidEmail(email)], utils.ts 475-481. *)
Definition isValidEmail (email : JsValue) : bool :=
  match email with
  | VStr e => if negb (truthy email) then false else emailRegex (toLowerCase (trim e))
  | _ => false
  end.

(** The part of an address behind its first ['@']. *)
Definition emailDomain (s : jsstring) : jsstring :=
  match indexOfChar "@" s with
  | Some atIndex => slice_from (atIndex + 1) s
  | None => []
  end.


(* ================================================================== *)
(** * Nested properties *)
(* ================================================================== *)

(** [isObject(value)], utils.ts 657-659: an object that is neither [null]
    nor an array. *)
Definition isObject (value : JsValue) : bool :=
  match value with
  | VObj _ => true
  | _ => false
  end.

(** [isString(value)], utils.ts 664-666. *)
Definition isString (value : JsValue) : bool :=
  match value with
  | VStr _ => true
  | _ => false
  end.

(** The names that every plain object inherits from [Object.prototype].
    [getProperty] and [setProperty] read and write own properties; on a
    key of this list that is not an own property the source reaches the
    prototype instead, which is outside the model. *)
Definition inheritedKeys : list string :=
  ["constructor"; "__defineGetter__"; "__defineSetter__"; "hasOwnProperty";
   "__lookupGetter__"; "__lookupSetter__"; "isPrototypeOf"; "propertyIsEnumerable";
   "toString"; "valueOf"; "__proto__"; "toLocaleString"]%string.

(** A path none of whose parts is an inherited name. *)
Definition ownPath (path : jsstring) : bool :=
  forallb (fun part => negb (inSet inheritedKeys part)) (splitChar "." path).

(** The loop of [getNestedProperty] over the parts of the path. *)
Fixpoint getPath (current : JsValue) (parts : list jsstring) : JsValue :=
  match parts with
  | [] => current
  | part :: rest =>
      match current with
      | VObj kvs => getPath (getProperty kvs part) rest
      | _ => VUndefined
      end
  end.

(** [getNestedProperty(obj, path)], utils.ts 675-687. *)
Definition getNestedProperty (obj : JsValue) (path : jsstring) : JsValue :=
  if negb (isObject obj) || negb (nonEmpty path) then VUndefined
  else getPath obj (splitChar "." path).

(** The loop of [setNestedProperty] and the assignment that follows it.
    The source updates the objects on the path in place; here the updated
    object is rebuilt around the updated child, which [setProperty] puts
    back under its key, at the place the key has. *)
Fixpoint setPath (current : Record_) (parts : list jsstring) (value : JsValue)
    : Record_ :=
  match parts with
  | [] => current
  | [lastPart] => setProperty current lastPart value
  | part :: rest =>
      let child :=
        match getProperty current part with
        | VObj kvs => kvs
        | _ => []
        end in
      setProperty current part (VObj (setPath child rest value))
  end.

(** [setNestedProperty(obj, path, value)], utils.ts 697-717: the object
    returned, which is [obj] itself after the update. *)
Definition setNestedProperty (obj : Record_) (path : jsstring) (value : JsValue)
    : Record_ :=
  if negb (nonEmpty path) then obj
  else setPath obj (splitChar "." path) value.


(* ================================================================== *)
(** * Properties *)
(* ================================================================== *)

(** ** Phone normalisation *)


Section PhoneNormalizer.

Variable defaultCountryCode : jsstring.

Lemma phoneDigits_all_digits (p : jsstring) : forallb isDigit (phoneDigits p) = true.
Proof.
  unfold phoneDigits, removeAll. apply forallb_forall. intros c Hc.
  apply filter_In in Hc. destruct Hc as [_ Hc].
  now rewrite negb_involutive in Hc.
Qed.

Lemma phoneDigits_nonempty_truthy (p : jsstring) :
  length (phoneDigits p) <> 0 -> truthy (VStr p) = true.
Proof. destruct p; simpl; [ intros H; now elim H | reflexivity ]. Qed.

(** Unfolds [cleanPhoneNumber] on a string with at least one digit. *)
Lemma cleanPhoneNumber_digits (p : jsstring) :
  let d := phoneDigits p in
  1 <= length d <= 15 ->
  cleanPhoneNumber (VStr p) defaultCountryCode =
    if phoneHasPlus p then VStr (js "+" ++ d)
    else if (length d =? 11) && startsWith d (js "1") then VStr (js "+" ++ d)
    else if length d =? 10 then VStr (js "+" ++ defaultCountryCode ++ d)
    else if (length d =? 11) && startsWith d (js "0")
    then VStr (js "+44" ++ slice_from 1 d)
    else if (length d =? 12) && startsWith d (js "44") then VStr (js "+" ++ d)
    else if (7 <=? length d) && (length d <=? 10)
    then VStr (js "+" ++ defaultCountryCode ++ d)
    else VStr (js "+" ++ d).
Proof.
  intros d Hd. unfold cleanPhoneNumber.
  rewrite phoneDigits_nonempty_truthy by (fold d; lia). simpl negb. cbv iota.
  fold (phoneDigits p). fold d. fold (phoneHasPlus p).
  destruct (Nat.eqb_spec (length d) 0) as [E|_]; [lia|].
  destruct (Nat.ltb_spec 15 (length d)) as [E|_]; [lia|].
  reflexivity.
Qed.

Lemma cleanPhoneNumber_unchanged (p : jsstring) :
  length (phoneDigits p) = 0 \/ 15 < length (phoneDigits p) ->
  cleanPhoneNumber (VStr p) defaultCountryCode = VStr p.
Proof.
  intros H. unfold cleanPhoneNumber. fold (phoneDigits p).
  destruct p as [|c p']; [reflexivity|].
  change (truthy (VStr (c :: p'))) with true. simpl negb. cbv iota.
  destruct H as [H|H].
  - rewrite H. reflexivity.
  - destruct (Nat.eqb_spec (length (phoneDigits (c :: p'))) 0); [reflexivity|].
    destruct (Nat.ltb_spec 15 (length (phoneDigits (c :: p')))); [reflexivity|lia].
Qed.

End PhoneNormalizer.





(** C5, the claim as stated, fails: five digits without a leading ['+']
    match none of the listed patterns, and the result is ['+'] followed by
    the digits, not the input. *)
Lemma cleanPhoneNumber_short_not_unchanged :
  listedPhonePattern (js "12345") = false /\
  cleanPhoneNumber (VStr (js "12345")) (js "1") = VStr (js "+12345") /\
  cleanPhoneNumber (VStr (js "12345")) (js "1") <> VStr (js "12345").
Proof. split; [|split]; vm_compute; [reflexivity | reflexivity | discriminate]. Qed.

(** C5 (amended): an input with no digit or with more than 15 digits is
    returned unchanged; any other input that matches none of the listed
    patterns (1 to 6 digits, 11 digits not starting with ['0'] or ['1'], 12
    digits not starting with ["44"], 13 to 15 digits, no leading ['+'])
    is returned as ['+'] followed by its digits. *)
Theorem cleanPhoneNumber_unlisted :
  forall (p cc : jsstring),
    (length (phoneDigits p) = 0 \/ 15 < length (phoneDigits p) ->
       cleanPhoneNumber (VStr p) cc = VStr p) /\
    (1 <= length (phoneDigits p) <= 15 -> listedPhonePattern p = false ->
       cleanPhoneNumber (VStr p) cc = VStr (js "+" ++ phoneDigits p)).
Proof.
  intros p cc. split.
  - apply cleanPhoneNumber_unchanged.
  - intros Hd Hl. rewrite cleanPhoneNumber_digits by exact Hd.
    unfold listedPhonePattern in Hl.
    repeat (apply orb_false_elim in Hl; destruct Hl as [Hl ?]).
    repeat match goal with H : _ = false |- _ => rewrite H end.
    reflexivity.
Qed.

Lemma cleanPhoneNumber_unlisted_witness :
  cleanPhoneNumber (VStr (js "555-12")) (js "1") = VStr (js "+55512") /\
  cleanPhoneNumber (VStr (js "n/a")) (js "1") = VStr (js "n/a").
Proof.
  split.
  - apply (proj2 (cleanPhoneNumber_unlisted (js "555-12") (js "1")));
      vm_compute; [split; lia | reflexivity].
  - apply (proj1 (cleanPhoneNumber_unlisted (js "n/a") (js "1"))).
    left. reflexivity.
Defined.



(** ** Fuzzy deduplication *)

Section Deduplicator.

Variable items : list Record_.
Variable fieldsToCheck : list jsstring.
Variable threshold : Q.

Local Abbreviation avg := (averageSimilarity items fieldsToCheck).

Local Abbreviation joinsP := (joins items fieldsToCheck threshold).



Lemma innerStep_joins (i j : nat) (g : DuplicateGroup) (P : gset nat) :
  innerStep items fieldsToCheck threshold i (g, P) j =
    if joinsP P i j
    then (mkGroup (keepIndex g) (duplicateIndices g ++ [j])
            (similarityScores g ++ [avg i j]), {[ j ]} ∪ P)
    else (g, P).
Proof.
  unfold innerStep, joins.
  destruct (bool_decide (j ∈ P)); simpl; [reflexivity|].
  destruct (Qle_bool threshold (avg i j)); reflexivity.
Qed.

Lemma joins_insert (P : gset nat) (i j a : nat) :
  a <> j -> joinsP ({[ j ]} ∪ P) i a = joinsP P i a.
Proof.
  intros Ha. unfold joins. f_equal. f_equal.
  apply bool_decide_ext. set_solver.
Qed.

Lemma innerStep_fold (i : nat) (js : list nat) (g : DuplicateGroup) (P : gset nat) :
  NoDup js ->
  fold_left (innerStep items fieldsToCheck threshold i) js (g, P) =
    (mkGroup (keepIndex g)
       (duplicateIndices g ++ List.filter (joinsP P i) js)
       (similarityScores g ++ map (avg i) (List.filter (joinsP P i) js)),
     list_to_set (List.filter (joinsP P i) js) ∪ P).
Proof.
  revert g P. induction js as [|j js IH]; intros g P Hnd.
  - simpl. rewrite !app_nil_r. destruct g. f_equal. set_solver.
  - apply NoDup_cons in Hnd. destruct Hnd as [Hj Hnd].
    cbn [fold_left List.filter]. rewrite innerStep_joins.
    destruct (joinsP P i j) eqn:EJ.
    + rewrite IH by exact Hnd. cbn [keepIndex duplicateIndices similarityScores].
      assert (Hf : List.filter (joinsP ({[j]} ∪ P) i) js = List.filter (joinsP P i) js).
      { apply filter_ext_in. intros a Ha. apply joins_insert.
        intros ->. apply Hj. now apply list_elem_of_In. }
      rewrite Hf. rewrite <- !app_assoc. simpl. f_equal. set_solver.
    + apply IH, Hnd.
Qed.

Lemma joins_filter_spec (P : gset nat) (i j : nat) :
  j ∈ List.filter (joinsP P i) (seq (i + 1) (length items - (i + 1))) <->
  i < j < length items /\ (j ∉ P) /\ (threshold <= avg i j)%Q.
Proof.
  rewrite list_elem_of_In, filter_In, in_seq. unfold joins.
  rewrite andb_true_iff, negb_true_iff, bool_decide_eq_false, Qle_bool_iff.
  split; intros H; repeat split; try tauto; lia.
Qed.

Lemma joined_snoc (groups : list DuplicateGroup) (g : DuplicateGroup) (k j : nat) :
  joined (groups ++ [g]) k j <->
  joined groups k j \/ (k = keepIndex g /\ j ∈ duplicateIndices g).
Proof.
  unfold joined. split.
  - intros (g' & Hin & Hk & Hj). apply elem_of_app in Hin. destruct Hin as [Hin|Hin].
    + left. eauto.
    + apply list_elem_of_singleton in Hin. subst g'. right. auto.
  - intros [(g' & Hin & Hk & Hj) | [Hk Hj]].
    + exists g'. rewrite elem_of_app. auto.
    + exists g. rewrite elem_of_app, list_elem_of_singleton. auto.
Qed.

(** The state of the loop over [i] after one more iteration. *)
Lemma outerStep_unfold (groups : list DuplicateGroup) (P : gset nat) (i : nat) :
  i ∉ P ->
  let D := List.filter (joinsP P i) (seq (i + 1) (length items - (i + 1))) in
  outerStep items fieldsToCheck threshold (groups, P) i =
    (if 0 <? length D then groups ++ [mkGroup i D (map (avg i) D)] else groups,
     list_to_set D ∪ P).
Proof.
  intros Hi D. unfold outerStep.
  rewrite bool_decide_eq_false_2 by exact Hi.
  rewrite innerStep_fold by apply NoDup_ListNoDup, seq_NoDup.
  cbn [keepIndex duplicateIndices similarityScores app]. fold D.
  destruct (0 <? length D); reflexivity.
Qed.

Lemma joined_outerStep (groups : list DuplicateGroup) (i : nat) (D : list nat) (k j : nat) :
  joined (if 0 <? length D then groups ++ [mkGroup i D (map (avg i) D)] else groups) k j
  <-> joined groups k j \/ (k = i /\ j ∈ D).
Proof.
  destruct D as [|d D'].
  - simpl. split; [auto|]. intros [H|[_ H]]; [exact H|]. inversion H.
  - cbn [length Nat.ltb Nat.leb]. rewrite joined_snoc. reflexivity.
Qed.

Lemma DedupInvariant_init : DedupInvariant items fieldsToCheck threshold 0 [] ∅.
Proof.
  assert (Hj : forall k j, ~ joined [] k j).
  { intros k j (g & Hg & _). inversion Hg. }
  constructor.
  - intros j. split; [set_solver|]. intros [i H]. now apply Hj in H.
  - intros g Hg. inversion Hg.
  - intros k j H. now apply Hj in H.
  - intros k j H. lia.
  - intros g Hg. inversion Hg.
  - constructor.
Qed.

Lemma DedupInvariant_skip (i : nat) (groups : list DuplicateGroup) (P : gset nat) :
  DedupInvariant items fieldsToCheck threshold i groups P ->
  i ∈ P ->
  DedupInvariant items fieldsToCheck threshold (S i) groups P.
Proof.
  intros [HP Hkeep Hsound Hcomp Hsc Hnd] Hi. constructor; auto.
  - intros g Hg. specialize (Hkeep g Hg). lia.
  - intros k j Hk Hkj HkP Hpb Hle.
    destruct (Nat.eq_dec k i) as [->|Hne]; [contradiction|].
    apply Hcomp; auto. lia.
Qed.

Lemma DedupInvariant_step (i : nat) (groups : list DuplicateGroup) (P : gset nat) :
  DedupInvariant items fieldsToCheck threshold i groups P ->
  i ∉ P ->
  let D := List.filter (joinsP P i) (seq (i + 1) (length items - (i + 1))) in
  DedupInvariant items fieldsToCheck threshold (S i)
    (if 0 <? length D then groups ++ [mkGroup i D (map (avg i) D)] else groups)
    (list_to_set D ∪ P).
Proof.
  intros [HP Hkeep Hsound Hcomp Hsc Hnd] Hi D.
  assert (HD : forall j, j ∈ D <-> i < j < length items /\ (j ∉ P) /\ (threshold <= avg i j)%Q)
    by (intros j; apply joins_filter_spec).
  set (groups' := if 0 <? length D then groups ++ [mkGroup i D (map (avg i) D)] else groups).
  assert (HJ : forall k j, joined groups' k j <-> joined groups k j \/ (k = i /\ j ∈ D))
    by (intros; apply joined_outerStep).
  assert (Hold : forall k j, joined groups k j -> k < i).
  { intros k j (g & Hg & Hk & _). subst k. auto. }
  assert (Hin' : forall g, g ∈ groups' -> g ∈ groups \/ g = mkGroup i D (map (avg i) D)).
  { intros g Hg. unfold groups' in Hg. destruct (0 <? length D); [|auto].
    apply elem_of_app in Hg. destruct Hg as [Hg|Hg]; [auto|].
    apply list_elem_of_singleton in Hg. auto. }
  constructor.
  - intros j. rewrite elem_of_union, elem_of_list_to_set, HP. unfold processed.
    split.
    + intros [Hj | [k Hk]]; [exists i | exists k]; apply HJ; auto.
    + intros [k Hk]. apply HJ in Hk. destruct Hk as [Hk | [-> Hj]]; eauto.
  - intros g Hg. apply Hin' in Hg. destruct Hg as [Hg | ->]; [|simpl; lia].
    specialize (Hkeep g Hg). lia.
  - intros k j Hkj. apply HJ in Hkj. destruct Hkj as [Hkj | [-> Hj]].
    + destruct (Hsound k j Hkj) as (Hr & HkP & Hpb & Hle).
      split; [exact Hr|]. split; [|split; [|exact Hle]].
      * rewrite elem_of_union, elem_of_list_to_set. intros [Hk | Hk]; [|auto].
        apply HD in Hk. apply Hold in Hkj. lia.
      * intros (k' & Hk' & Hj'). apply HJ in Hj'. destruct Hj' as [Hj' | [-> _]].
        -- apply Hpb. exists k'. auto.
        -- apply Hold in Hkj. lia.
    + apply HD in Hj. destruct Hj as (Hr & HjP & Hle).
      split; [exact Hr|]. split; [|split; [|exact Hle]].
      * rewrite elem_of_union, elem_of_list_to_set. intros [Hk | Hk]; [|auto].
        apply HD in Hk. lia.
      * intros (k' & Hk' & Hj'). apply HJ in Hj'. destruct Hj' as [Hj' | [-> _]]; [|lia].
        apply HjP, HP. exists k'. exact Hj'.
  - intros k j Hk Hkj HkP Hpb Hle. apply HJ.
    rewrite elem_of_union, elem_of_list_to_set in HkP.
    destruct (Nat.eq_dec k i) as [->|Hne].
    + right. split; [reflexivity|]. apply HD. split; [exact Hkj|]. split; [|exact Hle].
      intros HjP. apply HP in HjP. destruct HjP as [k' Hk'].
      apply Hpb. exists k'. split; [eapply Hold; eauto | apply HJ; auto].
    + left. apply Hcomp; auto; [lia|].
      intros (k' & Hk' & Hj'). apply Hpb. exists k'. split; [exact Hk' | apply HJ; auto].
  - intros g Hg. apply Hin' in Hg. destruct Hg as [Hg | ->]; [auto | reflexivity].
  - unfold groups'. destruct (0 <? length D); [|exact Hnd].
    rewrite map_app, concat_app. simpl. rewrite app_nil_r.
    apply NoDup_app. split; [exact Hnd|]. split.
    + intros x Hx Hx'. apply list_elem_of_In, in_concat in Hx.
      destruct Hx as (l & Hl & Hxl). apply in_map_iff in Hl.
      destruct Hl as (g & <- & Hg). apply list_elem_of_In in Hg.
      assert (Hxi : i <= x).
      { unfold groupIndices in Hx'. simpl in Hx'. apply elem_of_cons in Hx'.
        destruct Hx' as [->|Hx']; [lia|]. apply HD in Hx'. lia. }
      unfold groupIndices in Hxl. simpl in Hxl. destruct Hxl as [<- | Hxl].
      * specialize (Hkeep g Hg). lia.
      * assert (Hjx : joined groups (keepIndex g) x).
        { exists g. split; [exact Hg|]. split; [reflexivity|]. now apply list_elem_of_In. }
        assert (HxP : x ∈ P) by (apply HP; eexists; eauto).
        unfold groupIndices in Hx'. simpl in Hx'. apply elem_of_cons in Hx'.
        destruct Hx' as [->|Hx']; [contradiction|]. apply HD in Hx'. tauto.
    + unfold groupIndices. simpl. apply NoDup_cons. split.
      * intros Hx. apply HD in Hx. lia.
      * apply NoDup_ListNoDup. apply List.NoDup_filter, seq_NoDup.
Qed.

Lemma outer_loop_invariant (i : nat) :
  i <= length items ->
  exists groups P,
    fold_left (outerStep items fieldsToCheck threshold) (seq 0 i) ([], ∅) = (groups, P)
    /\ DedupInvariant items fieldsToCheck threshold i groups P.
Proof.
  induction i as [|i IH]; intros Hi.
  - exists [], ∅. split; [reflexivity | apply DedupInvariant_init].
  - destruct IH as (groups & P & E & Inv); [lia|].
    rewrite seq_S, fold_left_app, E. cbn [fold_left Nat.add].
    destruct (decide (i ∈ P)) as [HiP|HiP].
    + exists groups, P. split; [| now apply DedupInvariant_skip].
      unfold outerStep. now rewrite bool_decide_eq_true_2.
    + rewrite outerStep_unfold by exact HiP.
      eexists _, _. split; [reflexivity|]. now apply DedupInvariant_step.
Qed.

Lemma findFuzzyDuplicates_invariant :
  exists P, DedupInvariant items fieldsToCheck threshold (length items)
              (findFuzzyDuplicates items fieldsToCheck threshold) P.
Proof.
  destruct (outer_loop_invariant (length items)) as (groups & P & E & Inv); [lia|].
  exists P. unfold findFuzzyDuplicates. rewrite E. exact Inv.
Qed.

Lemma collectIndicesToRemove_spec (groups : list DuplicateGroup) (j : nat) :
  j ∈ collectIndicesToRemove groups <-> processed groups j.
Proof.
  unfold collectIndicesToRemove.
  assert (Hinner : forall (l : list nat) (acc : gset nat),
    j ∈ fold_left (fun acc' dupIndex => {[ dupIndex ]} ∪ acc') l acc <-> j ∈ l \/ j ∈ acc).
  { induction l as [|x l IH]; intros acc; simpl; [set_solver|].
    rewrite IH. set_solver. }
  assert (Houter : forall (gs : list DuplicateGroup) (acc : gset nat),
    j ∈ fold_left (fun acc group =>
           fold_left (fun acc' dupIndex => {[ dupIndex ]} ∪ acc')
             (duplicateIndices group) acc) gs acc
    <-> processed gs j \/ j ∈ acc).
  { induction gs as [|g gs IH]; intros acc; simpl.
    - split; [auto|]. intros [(i & g & Hg & _)|H]; [inversion Hg | exact H].
    - rewrite IH, Hinner. unfold processed, joined. split.
      + intros [(i & g' & Hg' & Hk & Hj) | [Hj | Hj]]; [| |auto].
        * left. exists i, g'. rewrite elem_of_cons. auto.
        * left. exists (keepIndex g), g. rewrite elem_of_cons. auto.
      + intros [(i & g' & Hg' & Hk & Hj) | Hj]; [|auto].
        apply elem_of_cons in Hg'. destruct Hg' as [->|Hg']; [auto|].
        left. exists i, g'. auto. }
  rewrite Houter. set_solver.
Qed.

End Deduplicator.

Section FilterIndex.

Context {A : Type} (keep : nat -> bool).

Lemma filterIndex_seq (start len : nat) :
  filterIndex keep start (seq start len) = List.filter keep (seq start len).
Proof.
  revert start. induction len as [|len IH]; intros start; simpl; [reflexivity|].
  rewrite IH. reflexivity.
Qed.

Lemma filterIndex_lookup (d : A) (l : list A) (start : nat) :
  filterIndex keep start l =
    map (fun i => default d (l !! (i - start))) (List.filter keep (seq start (length l))).
Proof.
  revert start. induction l as [|x l IH]; intros start; simpl; [reflexivity|].
  assert (E : map (fun i => default d ((x :: l) !! (i - start)))
                (List.filter keep (seq (S start) (length l)))
              = filterIndex keep (S start) l).
  { rewrite IH. apply map_ext_in. intros i Hi. apply filter_In in Hi.
    destruct Hi as [Hi _]. apply in_seq in Hi.
    replace (i - start) with (S (i - S start)) by lia. reflexivity. }
  destruct (keep start); simpl; rewrite E; [|reflexivity].
  rewrite Nat.sub_diag. reflexivity.
Qed.

End FilterIndex.

Lemma keptIndices_spec (items : list Record_) (fieldsToCheck : list jsstring)
    (threshold : Q) (i : nat) :
  i ∈ keptIndices items fieldsToCheck threshold <->
  i < length items /\
  ~ processed (findFuzzyDuplicates items fieldsToCheck threshold) i.
Proof.
  unfold keptIndices. rewrite filterIndex_seq, list_elem_of_In, filter_In, in_seq.
  rewrite negb_true_iff, bool_decide_eq_false, collectIndicesToRemove_spec.
  split; intros [H1 H2]; split; auto; lia.
Qed.

Lemma keptIndices_sorted (items : list Record_) (fieldsToCheck : list jsstring)
    (threshold : Q) :
  StronglySorted lt (keptIndices items fieldsToCheck threshold).
Proof.
  unfold keptIndices. rewrite filterIndex_seq.
  generalize (fun index : nat =>
    negb (bool_decide (index ∈ collectIndicesToRemove
                         (findFuzzyDuplicates items fieldsToCheck threshold)))).
  intros keep. generalize 0 as start.
  induction (length items) as [|n IH]; intros start; simpl; [constructor|].
  assert (Hall : Forall (lt start) (List.filter keep (seq (S start) n))).
  { apply List.Forall_forall. intros x Hx. apply filter_In in Hx.
    destruct Hx as [Hx _]. apply in_seq in Hx. lia. }
  destruct (keep start); [constructor; auto | apply IH].
Qed.

Lemma StronglySorted_lt_NoDup (l : list nat) : StronglySorted lt l -> NoDup l.
Proof.
  induction 1 as [|x l Hs IH Hall]; constructor; [|exact IH].
  intros Hx. rewrite List.Forall_forall in Hall.
  apply list_elem_of_In, Hall in Hx. lia.
Qed.

Lemma deduplicated_keptIndices (items : list Record_) (fieldsToCheck : list jsstring)
    (threshold : Q) :
  deduplicated (deduplicateFuzzy items fieldsToCheck threshold)
    = map (itemAt items) (keptIndices items fieldsToCheck threshold).
Proof.
  unfold deduplicateFuzzy, keptIndices. cbn [deduplicated].
  rewrite filterIndex_seq, (filterIndex_lookup _ []).
  apply map_ext. intros i. unfold itemAt. now rewrite Nat.sub_0_r.
Qed.

Lemma duplicateGroupCount_zero (groups : list DuplicateGroup) (j : nat) :
  duplicateGroupCount groups j = 0 <-> ~ processed groups j.
Proof.
  unfold duplicateGroupCount, processed, joined.
  induction groups as [|g groups IH]; simpl.
  - split; [|reflexivity]. intros _ (i & g & Hg & _). inversion Hg.
  - destruct (bool_decide (j ∈ duplicateIndices g)) eqn:E; simpl.
    + apply bool_decide_eq_true in E. split; [discriminate|].
      intros H. exfalso. apply H. exists (keepIndex g), g. rewrite elem_of_cons. auto.
    + apply bool_decide_eq_false in E. rewrite IH. split.
      * intros H (i & g' & Hg' & Hk & Hj). apply elem_of_cons in Hg'.
        destruct Hg' as [->|Hg']; [contradiction|]. apply H. eauto.
      * intros H (i & g' & Hg' & Hk & Hj). apply H. exists i, g'.
        rewrite elem_of_cons. auto.
Qed.

Lemma duplicateGroupCount_le_1 (groups : list DuplicateGroup) (j : nat) :
  NoDup (concat (map groupIndices groups)) -> duplicateGroupCount groups j <= 1.
Proof.
  unfold duplicateGroupCount.
  induction groups as [|g groups IH]; simpl; [lia|].
  intros Hnd. change (NoDup (groupIndices g ++ concat (map groupIndices groups))) in Hnd.
  apply NoDup_app in Hnd. destruct Hnd as (_ & Hdisj & Hnd).
  specialize (IH Hnd).
  destruct (bool_decide (j ∈ duplicateIndices g)) eqn:E; simpl; [|lia].
  apply bool_decide_eq_true in E.
  assert (Hz : duplicateGroupCount groups j = 0).
  { apply duplicateGroupCount_zero. intros (i & g' & Hg' & Hk & Hj).
    apply (Hdisj j).
    - unfold groupIndices. rewrite elem_of_cons. auto.
    - apply list_elem_of_In, in_concat. exists (groupIndices g'). split.
      + apply in_map. now apply list_elem_of_In.
      + apply list_elem_of_In. unfold groupIndices. rewrite elem_of_cons. auto. }
  unfold duplicateGroupCount in Hz. lia.
Qed.

(** C2: every group has as many similarity scores as duplicates; no index
    occurs twice among the keep and duplicate indices of all the groups;
    and every input index is either the index of one record of the
    deduplicated sequence and a duplicate in no group, or absent from that
    sequence and a duplicate in exactly one group. *)
Theorem deduplicateFuzzy_partition :
  forall (items : list Record_) (fieldsToCheck : list jsstring) (threshold : Q),
    let r := deduplicateFuzzy items fieldsToCheck threshold in
    (forall g, g ∈ duplicateGroups r ->
       length (duplicateIndices g) = length (similarityScores g)) /\
    NoDup (concat (map groupIndices (duplicateGroups r))) /\
    (deduplicated r = map (itemAt items) (keptIndices items fieldsToCheck threshold)
     /\ NoDup (keptIndices items fieldsToCheck threshold)) /\
    (forall i, i < length items ->
       (i ∈ keptIndices items fieldsToCheck threshold /\
        duplicateGroupCount (duplicateGroups r) i = 0) \/
       ((i ∉ keptIndices items fieldsToCheck threshold) /\
        duplicateGroupCount (duplicateGroups r) i = 1)).
Proof.
  intros items fieldsToCheck threshold r.
  destruct (findFuzzyDuplicates_invariant items fieldsToCheck threshold) as [P Inv].
  change (duplicateGroups r) with (findFuzzyDuplicates items fieldsToCheck threshold).
  split; [|split; [|split]].
  - intros g Hg. rewrite (inv_scores _ _ _ _ _ _ Inv g Hg), length_map. reflexivity.
  - exact (inv_nodup _ _ _ _ _ _ Inv).
  - split; [apply deduplicated_keptIndices|].
    apply StronglySorted_lt_NoDup, keptIndices_sorted.
  - intros i Hi.
    pose proof (duplicateGroupCount_le_1 _ i (inv_nodup _ _ _ _ _ _ Inv)) as Hle.
    pose proof (duplicateGroupCount_zero
                  (findFuzzyDuplicates items fieldsToCheck threshold) i) as Hz.
    destruct (duplicateGroupCount (findFuzzyDuplicates items fieldsToCheck threshold) i)
      as [|[|c]] eqn:Ec; [left | right | lia].
    + split; [|reflexivity]. apply keptIndices_spec. split; [exact Hi|].
      now apply Hz.
    + split; [|reflexivity]. intros Hk. apply keptIndices_spec in Hk.
      destruct Hk as [_ Hn]. apply Hz in Hn. discriminate.
Qed.

Lemma deduplicateFuzzy_partition_witness :
  (1 ∈ keptIndices exampleRecords [js "name"] (8 # 10) /\
   duplicateGroupCount
     (duplicateGroups (deduplicateFuzzy exampleRecords [js "name"] (8 # 10))) 1 = 0) \/
  ((1 ∉ keptIndices exampleRecords [js "name"] (8 # 10)) /\
   duplicateGroupCount
     (duplicateGroups (deduplicateFuzzy exampleRecords [js "name"] (8 # 10))) 1 = 1).
Proof.
  apply (deduplicateFuzzy_partition exampleRecords [js "name"] (8 # 10)).
  simpl. lia.
Defined.



(** ** Validation of the deduplication operation *)



(** The checks are those of the handler: [deduplicateFuzzy] itself accepts
    an empty field list and a threshold above 1, and then removes nothing. *)
Lemma deduplicateFuzzy_without_validation :
  deduplicated (deduplicateFuzzy exampleRecords [] 2) = exampleRecords /\
  duplicateGroups (deduplicateFuzzy exampleRecords [] 2) = [].
Proof. split; reflexivity. Qed.

(** ** Key transformation *)

(** C7 fails for [camelCase]: the keys of [{first_name: "John"}] become
    [firstName], and a second application lower-cases them to [firstname].
    [toCamelCase] splits on separators only, not on the case boundaries
    that [toSnakeCase] recognises, so that it maps the PascalCase input
    [FirstName], which its documentation says it handles, to [firstname]. *)
Theorem transformObjectKeys_camelCase_twice :
  let obj := VObj [(js "first_name", VStr (js "John"))] in
  transformObjectKeys obj camelCase = VObj [(js "firstName", VStr (js "John"))] /\
  transformObjectKeys (transformObjectKeys obj camelCase) camelCase
    = VObj [(js "firstname", VStr (js "John"))] /\
  transformObjectKeys (transformObjectKeys obj camelCase) camelCase
    <> transformObjectKeys obj camelCase /\
  toCamelCase (js "FirstName") = js "firstname" /\
  toSnakeCase (js "FirstName") = js "first_name".
Proof.
  split; [|split; [|split; [|split]]]; vm_compute;
    first [reflexivity | discriminate].
Qed.

(** ** Parsers *)

Ltac case_if :=
  match goal with |- context [if ?b then _ else _] => destruct b end.

Lemma readIndex_returns (parts : list jsstring) (i : nat) :
  i < length parts -> exists x, readIndex parts i = Returns x /\ parts !! i = Some x.
Proof.
  intros Hi. unfold readIndex. destruct (lookup_lt_is_Some_2 parts i Hi) as [x Hx].
  rewrite Hx. eauto.
Qed.

Lemma suffixLoop_returns (fuel : nat) (parts suffixes : list jsstring) :
  length parts <= fuel ->
  exists parts' suffixes', suffixLoop fuel parts suffixes = Returns (parts', suffixes').
Proof.
  revert parts suffixes. induction fuel as [|fuel IH]; intros parts suffixes Hlen.
  - simpl. destruct (Nat.ltb_spec 1 (length parts)); [lia | eauto].
  - simpl. destruct (Nat.ltb_spec 1 (length parts)) as [H1|H1]; [|eauto].
    destruct (readIndex_returns parts (length parts - 1)) as (x & -> & _); [lia|].
    simpl. case_if; [|eauto].
    apply IH. rewrite length_take. lia.
Qed.

Lemma assignNameParts_returns (parts : list jsstring) :
  exists names, assignNameParts parts = Returns names.
Proof.
  unfold assignNameParts.
  destruct (Nat.eqb_spec (length parts) 1) as [E1|E1].
  { destruct (readIndex_returns parts 0) as (x & -> & _); [lia|]. simpl. eauto. }
  destruct (Nat.eqb_spec (length parts) 2) as [E2|E2].
  { destruct (readIndex_returns parts 0) as (x & -> & _); [lia|].
    destruct (readIndex_returns parts 1) as (y & -> & _); [lia|]. simpl. eauto. }
  destruct (Nat.leb_spec 3 (length parts)) as [E3|E3]; [|eauto].
  destruct (readIndex_returns parts 0) as (x & -> & _); [lia|].
  destruct (readIndex_returns parts (length parts - 1)) as (y & -> & _); [lia|].
  simpl. eauto.
Qed.

Lemma extractPrefix_returns (parts : list jsstring) :
  exists shifted, extractPrefix parts = Returns shifted.
Proof.
  unfold extractPrefix. destruct (Nat.ltb_spec 1 (length parts)); [|eauto].
  destruct (readIndex_returns parts 0) as (x & -> & _); [lia|]. simpl.
  case_if; eauto.
Qed.

Lemma parseName_returns (v : JsValue) : exists r, parseName v = Returns r.
Proof.
  unfold parseName. destruct v; eauto.
  destruct (negb (truthy (VStr s))); [eauto|]. cbv zeta.
  match goal with |- context [List.filter nonEmpty ?l] =>
    generalize (List.filter nonEmpty l) end.
  intros parts. destruct (Nat.eqb_spec (length parts) 0); [eauto|].
  destruct (extractPrefix_returns parts) as ([prefix_ parts'] & ->).
  cbn [bindOutcome].
  destruct (suffixLoop_returns (length parts') parts' []) as (ps & ss & ->); [lia|].
  cbn [bindOutcome].
  destruct (assignNameParts_returns ps) as ([[a b] c] & ->). cbn [bindOutcome].
  eauto.
Qed.

Lemma parseUsername_returns (v : JsValue) : exists r, parseUsername v = Returns r.
Proof.
  unfold parseUsername. destruct v; eauto.
  destruct (negb (truthy (VStr s))); [eauto|]. cbv zeta.
  match goal with |- context [assignNameParts ?l] =>
    destruct (assignNameParts_returns l) as ([[a b] c] & ->) end.
  cbn [bindOutcome]. eauto.
Qed.

Lemma parsePhoneNumber_returns (v : JsValue) (cc : jsstring) :
  exists r, parsePhoneNumber v cc = Returns r.
Proof.
  unfold parsePhoneNumber. destruct v; eauto.
  destruct (negb (truthy (VStr s))); [eauto|].
  destruct (extractExtension s) as [ext phone'].
  case_if; [eauto|].
  match goal with |- context [detectCountryCode ?a ?b ?c] =>
    destruct (detectCountryCode a b c) as [c' n] end.
  destruct (10 <=? length n), (7 <=? length n), (nonEmpty ext); eauto.
Qed.

Lemma streetOfParts_returns (parts : list jsstring) :
  exists street, streetOfParts parts = Returns street.
Proof.
  unfold streetOfParts. destruct (Nat.leb_spec 1 (length parts)); [|eauto].
  destruct (readIndex_returns parts 0) as (x & -> & _); [lia|]. simpl. eauto.
Qed.

Lemma cityOfParts_returns (parts : list jsstring) :
  exists c, cityOfParts parts = Returns c.
Proof.
  unfold cityOfParts. destruct (Nat.leb_spec 2 (length parts)); [|eauto].
  destruct (readIndex_returns parts 1) as (x & -> & _); [lia|]. eauto.
Qed.

Lemma stateOfParts_returns (parts : list jsstring) :
  exists st, stateOfParts parts = Returns st.
Proof.
  unfold stateOfParts. destruct (Nat.leb_spec 3 (length parts)); [|eauto].
  destruct (readIndex_returns parts 2) as (x & -> & _); [lia|]. cbn [bindOutcome].
  cbv zeta. case_if; [eauto|].
  match goal with |- context [lookupState ?k] => destruct (lookupState k) end; eauto.
Qed.

Lemma stateFromCity_returns (city_ state_ : jsstring) :
  exists cs, stateFromCity city_ state_ = Returns cs.
Proof.
  unfold stateFromCity. destruct (negb (nonEmpty state_) && nonEmpty city_); [|eauto].
  cbv zeta. destruct (Nat.leb_spec 2 (length (splitRuns isSpace city_))); [|eauto].
  destruct (readIndex_returns (splitRuns isSpace city_)
              (length (splitRuns isSpace city_) - 1)) as (x & -> & _); [lia|].
  cbn [bindOutcome]. case_if; eauto.
Qed.

Lemma parseAddress_returns (v : JsValue) : exists r, parseAddress v = Returns r.
Proof.
  unfold parseAddress. destruct v; eauto.
  destruct (negb (truthy (VStr s))); [eauto|]. cbv zeta.
  match goal with |- context [extractPostalCode ?x] =>
    destruct (extractPostalCode x) as [[postal country_] normalized] end.
  match goal with |- context [streetOfParts ?l] => generalize l end.
  intros parts.
  destruct (streetOfParts_returns parts) as ([[[sn sm] su] sa] & ->).
  cbn [bindOutcome].
  destruct (cityOfParts_returns parts) as (city_ & ->). cbn [bindOutcome].
  destruct (stateOfParts_returns parts) as (state_ & ->). cbn [bindOutcome].
  destruct (stateFromCity_returns city_ state_) as ([c' s'] & ->).
  cbn [bindOutcome]. eauto.
Qed.

(** C6, the claim as stated, fails on the word all-empty: the result of
    [parsePhoneNumber] on the unparseable string ["abc"] holds that string
    in [original], and [parseUsername] and [parseAddress] on the number 42
    hold 42 in [full] and in [original]. *)
Lemma parsers_default_not_all_empty :
  (parsePhoneNumber (VStr (js "abc")) (js "1")
     = Returns (defaultParsedPhoneNumber (VStr (js "abc")) [])
   /\ VStr (js "abc") <> VStr []) /\
  (parseUsername (VNum 42) = Returns (emptyParsedName (VNum 42))
   /\ parseAddress (VNum 42) = Returns (defaultParsedAddress (VNum 42))
   /\ VNum 42 <> VStr []).
Proof.
  split; [split | split; [|split]];
    first [discriminate | vm_compute; reflexivity].
Qed.

(** C6 (amended): each of the four parsers returns on every input value,
    it never throws; on an input that is not a non-empty string it returns
    its default object, in which every field is empty or false except that
    [parseUsername] keeps the input in [full], and [parsePhoneNumber] and
    [parseAddress] keep it in [original], when the input is truthy; and
    [parseName] returns its all-empty object on a string of white space. *)
Theorem parsers_never_throw :
  forall (v : JsValue) (defaultCountryCode : jsstring),
    ((exists r, parseName v = Returns r) /\
     (exists r, parseUsername v = Returns r) /\
     (exists r, parsePhoneNumber v defaultCountryCode = Returns r) /\
     (exists r, parseAddress v = Returns r)) /\
    (notNonEmptyString v ->
     parseName v = Returns (emptyParsedName (VStr [])) /\
     parseUsername v = Returns (emptyParsedName (orEmpty v)) /\
     parsePhoneNumber v defaultCountryCode
       = Returns (defaultParsedPhoneNumber (orEmpty v) []) /\
     parseAddress v = Returns (defaultParsedAddress (orEmpty v))) /\
    (forall s, v = VStr s -> forallb isSpace s = true ->
     parseName v = Returns (emptyParsedName (VStr []))).
Proof.
  intros v cc. split; [|split].
  - repeat split.
    + apply parseName_returns.
    + apply parseUsername_returns.
    + apply parsePhoneNumber_returns.
    + apply parseAddress_returns.
  - intros Hv. destruct v; try (repeat split; reflexivity).
    rewrite (Hv s eq_refl). repeat split; reflexivity.
  - intros s -> Hs. unfold parseName.
    destruct s as [|c s']; [reflexivity|].
    change (negb (truthy (VStr (c :: s')))) with false. cbv iota zeta.
    assert (Ht : trim (c :: s') = []).
    { unfold trim, trimStart, trimEnd.
      assert (Hd : forall l, forallb isSpace l = true -> dropWhile isSpace l = []).
      { induction l as [|x l IH]; simpl; [reflexivity|].
        intros H. apply andb_prop in H. destruct H as [-> H]. auto. }
      rewrite (Hd _ Hs). reflexivity. }
    rewrite Ht. reflexivity.
Qed.

Lemma parsers_never_throw_witness :
  parseName VNull = Returns (emptyParsedName (VStr [])) /\
  parseUsername VNull = Returns (emptyParsedName (orEmpty VNull)) /\
  parsePhoneNumber VNull (js "1") = Returns (defaultParsedPhoneNumber (orEmpty VNull) []) /\
  parseAddress VNull = Returns (defaultParsedAddress (orEmpty VNull)).
Proof.
  apply (proj1 (proj2 (parsers_never_throw VNull (js "1")))).
  intros s H. discriminate H.
Defined.




(** ** Jaro and Jaro-Winkler similarity *)






























(** ** Idempotence of the snake-case transformation *)

Lemma str_eqb_eq (a b : jsstring) : str_eqb a b = true <-> a = b.
Proof.
  revert b. induction a as [|x a IH]; intros [|y b]; simpl; split; intros H;
    try discriminate; try reflexivity.
  - apply andb_prop in H. destruct H as [H1 H2].
    apply Ascii.eqb_eq in H1. apply IH in H2. congruence.
  - injection H as -> ->. unfold char_eqb. rewrite Ascii.eqb_refl. simpl. now apply IH.
Qed.

Ltac each_char c := destruct c as [[] [] [] [] [] [] [] []]; vm_compute; auto.

Lemma isSnakeChar_facts (c : ascii) :
  isSnakeChar c = true ->
  isUpper c = false /\ isSnakeSeparator c = false /\ isWord c = true /\ lowerChar c = c.
Proof. each_char c; intros H; try discriminate H; repeat split. Qed.

Lemma isWord_lower_snake (c : ascii) : isWord c = true -> isSnakeChar (lowerChar c) = true.
Proof. each_char c. Qed.

Lemma isUnderscore_eq (c : ascii) : isUnderscore c = true -> c = "_"%char.
Proof. unfold isUnderscore, char_eqb. apply Ascii.eqb_eq. Qed.

Lemma isUnderscore_lower (c : ascii) : isUnderscore (lowerChar c) = isUnderscore c.
Proof. each_char c. Qed.

Section NoUpper.

Variable s : jsstring.
Hypothesis Hs : forallb isSnakeChar s = true.

Lemma snake_no_upper : forallb (fun c => negb (isUpper c)) s = true.
Proof.
  rewrite forallb_forall in *. intros c Hc.
  destruct (isSnakeChar_facts c (Hs c Hc)) as (-> & _). reflexivity.
Qed.

End NoUpper.

Lemma splitLowerUpper_id (sep s : jsstring) :
  forallb (fun c => negb (isUpper c)) s = true -> splitLowerUpper sep s = s.
Proof.
  induction s as [|c1 s IH]; [reflexivity|]. intros H.
  simpl in H. apply andb_prop in H. destruct H as [H1 H2].
  destruct s as [|c2 s']; [reflexivity|].
  change (splitLowerUpper sep (c1 :: c2 :: s'))
    with (if isLower c1 && isUpper c2
          then c1 :: sep ++ c2 :: splitLowerUpper sep s'
          else c1 :: splitLowerUpper sep (c2 :: s')).
  simpl in H2. apply andb_prop in H2. destruct H2 as [H2 H3].
  apply negb_true_iff in H2. rewrite H2, andb_false_r.
  f_equal. apply IH. simpl. rewrite H2. exact H3.
Qed.

Lemma splitAcronym_id (b : bool) (s : jsstring) :
  forallb (fun c => negb (isUpper c)) s = true -> splitAcronym b s = s.
Proof.
  revert b. induction s as [|c1 s IH]; intros b H; [reflexivity|].
  simpl in H. apply andb_prop in H. destruct H as [H1 H2].
  apply negb_true_iff in H1.
  destruct s as [|c2 s']; [reflexivity|].
  change (splitAcronym b (c1 :: c2 :: s'))
    with (if b && isUpper c1 && isLower c2
          then "_"%char :: c1 :: splitAcronym (isUpper c1) (c2 :: s')
          else c1 :: splitAcronym (isUpper c1) (c2 :: s')).
  rewrite H1, andb_false_r. cbn [andb]. f_equal. apply IH. exact H2.
Qed.

Lemma replaceRuns_none (p : ascii -> bool) (r s : jsstring) :
  forallb (fun c => negb (p c)) s = true -> replaceRuns p r s = s.
Proof.
  induction s as [|c s IH]; [reflexivity|]. simpl. intros H.
  apply andb_prop in H. destruct H as [H1 H2]. apply negb_true_iff in H1.
  rewrite H1. f_equal. auto.
Qed.

Lemma removeAll_none (p : ascii -> bool) (s : jsstring) :
  forallb (fun c => negb (p c)) s = true -> removeAll p s = s.
Proof.
  unfold removeAll. induction s as [|c s IH]; [reflexivity|]. simpl. intros H.
  apply andb_prop in H. destruct H as [H1 H2]. rewrite H1. f_equal. auto.
Qed.

Lemma toLowerCase_id (s : jsstring) :
  forallb isSnakeChar s = true -> toLowerCase s = s.
Proof.
  unfold toLowerCase. induction s as [|c s IH]; [reflexivity|]. simpl. intros H.
  apply andb_prop in H. destruct H as [H1 H2].
  destruct (isSnakeChar_facts c H1) as (_ & _ & _ & ->). f_equal. auto.
Qed.

Lemma dropWhile_head_false (p : ascii -> bool) (s : jsstring) :
  headIs p s = false -> dropWhile p s = s.
Proof. destruct s as [|c s]; [reflexivity|]. unfold headIs. simpl. now intros ->. Qed.

Lemma last_rev_head {A : Type} (s : list A) : head (rev s) = last s.
Proof.
  induction s as [|c s IH] using rev_ind; [reflexivity|].
  rewrite rev_app_distr, last_snoc. reflexivity.
Qed.

Lemma stripUnderscores_id (s : jsstring) :
  headIs isUnderscore s = false -> lastIs isUnderscore s = false ->
  stripUnderscores s = s.
Proof.
  intros Hh Hl. unfold stripUnderscores. rewrite (dropWhile_head_false _ s Hh).
  rewrite dropWhile_head_false; [apply rev_involutive|].
  unfold headIs. rewrite last_rev_head. exact Hl.
Qed.

Lemma replaceRuns_single (s : jsstring) :
  noDoubleUnderscore s = true -> replaceRuns isUnderscore (js "_") s = s.
Proof.
  induction s as [|c s IH]; [reflexivity|]. intros H.
  destruct s as [|d s'].
  - simpl. destruct (isUnderscore c) eqn:E; [|reflexivity].
    apply isUnderscore_eq in E. subst. reflexivity.
  - change (noDoubleUnderscore (c :: d :: s'))
      with (negb (isUnderscore c && isUnderscore d) && noDoubleUnderscore (d :: s')) in H.
    apply andb_prop in H. destruct H as [H1 H2]. specialize (IH H2).
    change (replaceRuns isUnderscore (js "_") (c :: d :: s'))
      with (if isUnderscore c
            then if isUnderscore d then replaceRuns isUnderscore (js "_") (d :: s')
                 else js "_" ++ replaceRuns isUnderscore (js "_") (d :: s')
            else c :: replaceRuns isUnderscore (js "_") (d :: s')).
    rewrite IH. destruct (isUnderscore c) eqn:Ec; [|reflexivity].
    destruct (isUnderscore d); [discriminate|].
    apply isUnderscore_eq in Ec. subst. reflexivity.
Qed.

(** A key in normal form is left as it is. *)
Lemma toSnakeCase_fixpoint (s : jsstring) :
  snakeNormal s = true -> toSnakeCase s = s.
Proof.
  unfold snakeNormal. intros H.
  apply andb_prop in H. destruct H as [H Hd].
  apply andb_prop in H. destruct H as [H Hl].
  apply andb_prop in H. destruct H as [Hc Hh].
  apply negb_true_iff in Hl, Hh.
  unfold toSnakeCase. destruct (nonEmpty s) eqn:En.
  2:{ destruct s; [reflexivity | discriminate]. }
  simpl negb. cbv iota zeta.
  pose proof (snake_no_upper s Hc) as Hu.
  assert (Hsep : forallb (fun c => negb (isSnakeSeparator c)) s = true).
  { apply forallb_forall. intros c Hin.
    destruct (isSnakeChar_facts c (proj1 (forallb_forall _ _) Hc c Hin)) as (_ & -> & _).
    reflexivity. }
  assert (Hw : forallb (fun c => negb (negb (isWord c))) s = true).
  { apply forallb_forall. intros c Hin.
    destruct (isSnakeChar_facts c (proj1 (forallb_forall _ _) Hc c Hin))
      as (_ & _ & -> & _).
    reflexivity. }
  rewrite (splitLowerUpper_id _ s Hu), (splitAcronym_id _ s Hu).
  rewrite (replaceRuns_none isSnakeSeparator _ s Hsep).
  rewrite (removeAll_none _ s Hw).
  rewrite (toLowerCase_id s Hc), (stripUnderscores_id s Hh Hl).
  apply replaceRuns_single, Hd.
Qed.

Lemma forallb_dropWhile (P q : ascii -> bool) (s : jsstring) :
  forallb P s = true -> forallb P (dropWhile q s) = true.
Proof.
  induction s as [|c s IH]; [reflexivity|]. simpl. intros H.
  destruct (q c); [|exact H]. apply andb_prop in H. apply IH, H.
Qed.

Lemma forallb_rev_true (P : ascii -> bool) (s : jsstring) :
  forallb P s = true -> forallb P (rev s) = true.
Proof.
  rewrite !forallb_forall. intros H c Hc. apply H. now apply in_rev.
Qed.

Lemma headIs_dropWhile (p : ascii -> bool) (s : jsstring) :
  headIs p (dropWhile p s) = false.
Proof.
  induction s as [|c s IH]; [reflexivity|]. simpl.
  destruct (p c) eqn:E; [exact IH|]. unfold headIs. simpl. exact E.
Qed.

Lemma head_rev_last {A : Type} (s : list A) : last (rev s) = head s.
Proof. rewrite <- (rev_involutive s) at 2. symmetry. apply last_rev_head. Qed.

Lemma dropWhile_snoc (p : ascii -> bool) (l : jsstring) (c : ascii) :
  p c = false -> dropWhile p (l ++ [c]) = dropWhile p l ++ [c].
Proof.
  intros Hc. induction l as [|x l IH]; simpl; [now rewrite Hc|].
  destruct (p x); [exact IH | reflexivity].
Qed.

Lemma stripUnderscores_normal (s : jsstring) :
  forallb isSnakeChar s = true ->
  forallb isSnakeChar (stripUnderscores s) = true /\
  headIs isUnderscore (stripUnderscores s) = false /\
  lastIs isUnderscore (stripUnderscores s) = false.
Proof.
  intros H. unfold stripUnderscores. split; [|split].
  - apply forallb_rev_true, forallb_dropWhile, forallb_rev_true, forallb_dropWhile, H.
  - pose proof (headIs_dropWhile isUnderscore s) as Hh.
    destruct (dropWhile isUnderscore s) as [|c d]; [reflexivity|].
    unfold headIs in Hh. simpl in Hh. simpl rev.
    rewrite (dropWhile_snoc _ _ _ Hh), rev_app_distr. unfold headIs. simpl. exact Hh.
  - unfold lastIs. rewrite head_rev_last. apply headIs_dropWhile.
Qed.

Section CollapseUnderscores.

Local Abbreviation collapse := (replaceRuns isUnderscore (js "_")).

Lemma collapse_cons2 (c d : ascii) (s : jsstring) :
  collapse (c :: d :: s) =
    if isUnderscore c
    then if isUnderscore d then collapse (d :: s) else js "_" ++ collapse (d :: s)
    else c :: collapse (d :: s).
Proof. reflexivity. Qed.

Lemma collapse_nonempty (s : jsstring) : s <> [] -> collapse s <> [].
Proof.
  induction s as [|c s IH]; [congruence|]. intros _.
  destruct s as [|d s'].
  - simpl. destruct (isUnderscore c); discriminate.
  - rewrite collapse_cons2.
    destruct (isUnderscore c); [destruct (isUnderscore d)|]; try discriminate.
    apply IH. discriminate.
Qed.

Lemma collapse_chars (s : jsstring) :
  forallb isSnakeChar s = true -> forallb isSnakeChar (collapse s) = true.
Proof.
  induction s as [|c s IH]; [reflexivity|]. intros H.
  pose proof H as H'. simpl in H'. apply andb_prop in H'. destruct H' as [Hc Hs].
  specialize (IH Hs). destruct s as [|d s'].
  - simpl. destruct (isUnderscore c); [reflexivity | exact H].
  - rewrite collapse_cons2.
    destruct (isUnderscore c); [destruct (isUnderscore d)|]; simpl; auto.
    rewrite Hc. exact IH.
Qed.

Lemma collapse_head (s : jsstring) :
  headIs isUnderscore s = false -> headIs isUnderscore (collapse s) = false.
Proof.
  destruct s as [|c s]; [reflexivity|]. intros Hc.
  change (isUnderscore c = false) in Hc.
  destruct s as [|d s'].
  - change (collapse [c]) with (if isUnderscore c then js "_" else [c]).
    rewrite Hc. exact Hc.
  - rewrite collapse_cons2, Hc. exact Hc.
Qed.

Lemma last_cons_nonempty {A : Type} (x : A) (l : list A) : l <> [] -> last (x :: l) = last l.
Proof. destruct l; [congruence | reflexivity]. Qed.

Lemma collapse_last (s : jsstring) :
  lastIs isUnderscore s = false -> lastIs isUnderscore (collapse s) = false.
Proof.
  induction s as [|c s IH]; [reflexivity|].
  destruct s as [|d s'].
  - intros Hc. change (isUnderscore c = false) in Hc.
    change (collapse [c]) with (if isUnderscore c then js "_" else [c]).
    rewrite Hc. exact Hc.
  - intros H. assert (H' : lastIs isUnderscore (d :: s') = false) by exact H.
    specialize (IH H'). rewrite collapse_cons2.
    assert (Hne : collapse (d :: s') <> []) by (apply collapse_nonempty; discriminate).
    destruct (isUnderscore c); [destruct (isUnderscore d)|]; auto;
      unfold lastIs in *; simpl app; rewrite last_cons_nonempty; auto.
Qed.

Lemma noDoubleUnderscore_cons (c : ascii) (s : jsstring) :
  noDoubleUnderscore (c :: s) =
    negb (isUnderscore c && headIs isUnderscore s) && noDoubleUnderscore s.
Proof.
  destruct s as [|d s']; [|reflexivity].
  unfold headIs. simpl. now rewrite andb_false_r.
Qed.

Lemma collapse_noDouble (s : jsstring) : noDoubleUnderscore (collapse s) = true.
Proof.
  induction s as [|c s IH]; [reflexivity|].
  destruct s as [|d s'].
  - simpl. destruct (isUnderscore c); reflexivity.
  - rewrite collapse_cons2.
    destruct (isUnderscore c) eqn:Ec; [destruct (isUnderscore d) eqn:Ed|].
    + exact IH.
    + change (js "_" ++ collapse (d :: s')) with ("_"%char :: collapse (d :: s')).
      rewrite noDoubleUnderscore_cons, IH, collapse_head; [reflexivity|].
      unfold headIs. simpl. exact Ed.
    + rewrite noDoubleUnderscore_cons, IH, Ec. reflexivity.
Qed.

End CollapseUnderscores.

(** [toSnakeCase] returns keys in normal form. *)
Lemma toSnakeCase_normal (s : jsstring) : snakeNormal (toSnakeCase s) = true.
Proof.
  unfold toSnakeCase. destruct (nonEmpty s); [|reflexivity]. simpl negb. cbv iota zeta.
  set (x := replaceRuns isSnakeSeparator (js "_") _).
  assert (Hw : forallb isSnakeChar
                 (toLowerCase (removeAll (fun c => negb (isWord c)) x)) = true).
  { unfold toLowerCase, removeAll. apply forallb_forall. intros c Hc.
    apply in_map_iff in Hc. destruct Hc as (c0 & <- & Hc0).
    apply filter_In in Hc0. destruct Hc0 as [_ Hc0].
    apply isWord_lower_snake. now rewrite negb_involutive in Hc0. }
  destruct (stripUnderscores_normal _ Hw) as (H1 & H2 & H3).
  unfold snakeNormal.
  rewrite collapse_chars, collapse_head, collapse_last, collapse_noDouble; auto.
Qed.

Lemma toSnakeCase_idempotent (s : jsstring) :
  toSnakeCase (toSnakeCase s) = toSnakeCase s.
Proof. apply toSnakeCase_fixpoint, toSnakeCase_normal. Qed.

Lemma JsValue_nested_ind (P : JsValue -> Prop) :
  P VUndefined -> P VNull -> (forall b, P (VBool b)) -> (forall n, P (VNum n)) ->
  (forall s, P (VStr s)) ->
  (forall xs, Forall P xs -> P (VArr xs)) ->
  (forall kvs, Forall (fun kv => P (snd kv)) kvs -> P (VObj kvs)) ->
  forall v, P v.
Proof.
  intros Hu Hn Hb Hz Hs Ha Ho. fix IH 1.
  intros [| | b | n | s | xs | kvs];
    [exact Hu | exact Hn | apply Hb | apply Hz | apply Hs | |].
  - apply Ha. induction xs as [|x xs IHxs]; constructor; [apply IH | exact IHxs].
  - apply Ho. induction kvs as [|kv kvs IHkvs]; constructor; [apply IH | exact IHkvs].
Qed.

Lemma hasProperty_spec (obj : Record_) (key : jsstring) :
  hasProperty obj key = true <-> In key (map fst obj).
Proof.
  induction obj as [|[k v] obj IH]; simpl; [split; [discriminate | tauto]|].
  rewrite orb_true_iff, IH, str_eqb_eq. tauto.
Qed.

Lemma keyBefore_trans (a b c : jsstring) : keyBefore a b -> keyBefore b c -> keyBefore a c.
Proof.
  unfold keyBefore.
  destruct (arrayIndex a), (arrayIndex b), (arrayIndex c); try tauto. lia.
Qed.

Lemma replaceProperty_keys (obj : Record_) (key : jsstring) (value : JsValue) :
  map fst (replaceProperty obj key value) = map fst obj.
Proof.
  induction obj as [|[k v] obj IH]; [reflexivity|]. simpl.
  destruct (str_eqb k key); simpl; [reflexivity | now rewrite IH].
Qed.

Lemma insertIndexProperty_keys (obj : Record_) (n : N) (key : jsstring) (value : JsValue) :
  Permutation (map fst (insertIndexProperty obj n key value)) (key :: map fst obj).
Proof.
  induction obj as [|[k v] obj IH]; [reflexivity|]. simpl.
  destruct (arrayIndex k) as [m|]; [|reflexivity].
  destruct (n <? m)%N; [reflexivity|]. simpl. rewrite IH. apply perm_swap.
Qed.

Lemma insertIndexProperty_sorted (obj : Record_) (n : N) (key : jsstring) (value : JsValue) :
  arrayIndex key = Some n ->
  StronglySorted keyBefore (map fst obj) ->
  StronglySorted keyBefore (map fst (insertIndexProperty obj n key value)).
Proof.
  intros Hk. induction obj as [|[k v] obj IH]; intros Hs; simpl.
  - constructor; constructor.
  - apply StronglySorted_inv in Hs. destruct Hs as [Hs Hall]. simpl in Hall.
    assert (Hkk : forall y, keyBefore key k -> In y (map fst obj) -> keyBefore key y).
    { intros y Hb Hy. apply (keyBefore_trans _ k); [exact Hb|].
      rewrite List.Forall_forall in Hall. auto. }
    destruct (arrayIndex k) as [m|] eqn:Em.
    + destruct (N.ltb_spec n m) as [Hlt|Hge].
      * assert (Hb : keyBefore key k) by (unfold keyBefore; rewrite Hk, Em; lia).
        constructor; [constructor; auto|].
        constructor; [exact Hb|]. apply List.Forall_forall. auto.
      * simpl. constructor; [apply IH, Hs|].
        rewrite (insertIndexProperty_keys obj n key value).
        constructor; [|exact Hall]. unfold keyBefore. rewrite Hk, Em. lia.
    + assert (Hb : keyBefore key k) by (unfold keyBefore; now rewrite Hk, Em).
      constructor; [constructor; auto|].
      constructor; [exact Hb|]. apply List.Forall_forall. auto.
Qed.

Lemma setProperty_canonical (obj : Record_) (key : jsstring) (value : JsValue) :
  canonicalObject obj -> canonicalObject (setProperty obj key value).
Proof.
  intros [Hnd Hs]. unfold setProperty, canonicalObject.
  destruct (hasProperty obj key) eqn:Eh.
  - rewrite replaceProperty_keys. auto.
  - assert (Hni : ~ In key (map fst obj)).
    { intros Hin. apply hasProperty_spec in Hin. congruence. }
    destruct (arrayIndex key) as [n|] eqn:Ek.
    + split; [|now apply insertIndexProperty_sorted].
      rewrite (insertIndexProperty_keys obj n key value).
      apply NoDup_cons. split; [|exact Hnd]. now rewrite list_elem_of_In.
    + rewrite map_app. simpl. split.
      * apply NoDup_app. split; [exact Hnd|]. split; [|apply NoDup_singleton].
        intros x Hx Hx'. apply list_elem_of_singleton in Hx'. subst x.
        now apply list_elem_of_In in Hx.
      * apply StronglySorted_app. split; [|split; [exact Hs | repeat constructor]].
        intros x y _ Hy. apply list_elem_of_singleton in Hy. subst y.
        unfold keyBefore. rewrite Ek. destruct (arrayIndex x); exact I.
Qed.

Lemma setProperty_Forall (P : jsstring * JsValue -> Prop) (obj : Record_)
    (key : jsstring) (value : JsValue) :
  P (key, value) -> Forall P obj -> Forall P (setProperty obj key value).
Proof.
  intros Hp Hall. unfold setProperty.
  destruct (hasProperty obj key).
  - induction obj as [|[k v] obj IH]; [constructor|]. simpl.
    apply Forall_cons in Hall. destruct Hall as [Hkv Hall].
    destruct (str_eqb k key) eqn:E.
    + apply str_eqb_eq in E. subst k. constructor; assumption.
    + constructor; auto.
  - destruct (arrayIndex key) as [n|].
    + induction obj as [|[k v] obj IH]; simpl; [repeat constructor; exact Hp|].
      apply Forall_cons in Hall. destruct Hall as [Hkv Hall].
      destruct (arrayIndex k) as [m|]; [destruct (n <? m)%N|];
        repeat (constructor; auto).
    + apply Forall_app. split; [exact Hall | repeat constructor; exact Hp].
Qed.

Lemma insertIndexProperty_last (obj : Record_) (n : N) (key : jsstring) (value : JsValue) :
  arrayIndex key = Some n ->
  Forall (fun x => keyBefore x key) (map fst obj) ->
  insertIndexProperty obj n key value = obj ++ [(key, value)].
Proof.
  intros Hk. induction obj as [|[k v] obj IH]; intros Hall; [reflexivity|].
  simpl in *. apply Forall_cons in Hall. destruct Hall as [Hb Hall].
  unfold keyBefore in Hb. rewrite Hk in Hb.
  destruct (arrayIndex k) as [m|]; [|contradiction].
  destruct (N.ltb_spec n m); [lia|]. f_equal. auto.
Qed.

Lemma setProperty_last (obj : Record_) (key : jsstring) (value : JsValue) :
  ~ In key (map fst obj) ->
  Forall (fun x => keyBefore x key) (map fst obj) ->
  setProperty obj key value = obj ++ [(key, value)].
Proof.
  intros Hni Hall. unfold setProperty.
  destruct (hasProperty obj key) eqn:Eh.
  { apply hasProperty_spec in Eh. contradiction. }
  destruct (arrayIndex key) as [n|] eqn:Ek; [|reflexivity].
  now apply insertIndexProperty_last.
Qed.

(** Writing the entries of a canonical object, in their order, into an
    empty object gives the object back. *)
Lemma rebuild_canonical (done todo : Record_) :
  canonicalObject (done ++ todo) ->
  fold_left (fun result kv => setProperty result (fst kv) (snd kv)) todo done
    = done ++ todo.
Proof.
  revert done. induction todo as [|[k v] todo IH]; intros done Hc.
  - simpl. now rewrite app_nil_r.
  - simpl. destruct Hc as [Hnd Hs]. rewrite map_app in Hnd, Hs. simpl in Hnd, Hs.
    rewrite setProperty_last.
    + rewrite IH; [now rewrite <- app_assoc|].
      unfold canonicalObject. rewrite <- app_assoc. simpl. rewrite map_app. simpl. auto.
    + apply NoDup_app in Hnd. destruct Hnd as (_ & Hd & _).
      intros Hin. apply (Hd k); [now apply list_elem_of_In | apply list_elem_of_here].
    + apply List.Forall_forall. intros x Hx.
      apply StronglySorted_app in Hs. destruct Hs as (Hs & _ & _).
      apply Hs; [now apply list_elem_of_In | apply list_elem_of_here].
Qed.

Lemma transformObjectKeys_array (xs : list JsValue) (caseType : CaseType) :
  transformObjectKeys (VArr xs) caseType
    = VArr (map (fun item => transformObjectKeys item caseType) xs).
Proof. reflexivity. Qed.

Lemma transformObjectKeys_object (kvs : Record_) (caseType : CaseType) :
  transformObjectKeys (VObj kvs) caseType
    = VObj (fold_left
              (fun result kv =>
                 setProperty result (keyTransformer caseType (fst kv))
                   (transformObjectKeys (snd kv) caseType))
              kvs []).
Proof. reflexivity. Qed.

Lemma transformObjectKeys_fold (caseType : CaseType) (P : jsstring * JsValue -> Prop)
    (kvs acc : Record_) :
  canonicalObject acc -> Forall P acc ->
  Forall (fun kv => P (keyTransformer caseType (fst kv),
                       transformObjectKeys (snd kv) caseType)) kvs ->
  canonicalObject
    (fold_left
       (fun result kv =>
          setProperty result (keyTransformer caseType (fst kv))
            (transformObjectKeys (snd kv) caseType)) kvs acc) /\
  Forall P
    (fold_left
       (fun result kv =>
          setProperty result (keyTransformer caseType (fst kv))
            (transformObjectKeys (snd kv) caseType)) kvs acc).
Proof.
  revert acc. induction kvs as [|kv kvs IH]; intros acc Hc Hp Hall; [auto|].
  apply Forall_cons in Hall. destruct Hall as [Hkv Hall]. simpl.
  apply IH; [now apply setProperty_canonical | now apply setProperty_Forall | exact Hall].
Qed.

Lemma fold_left_ext_Forall {A B : Type} (f g : A -> B -> A) (P : B -> Prop)
    (l : list B) (a : A) :
  (forall a b, P b -> f a b = g a b) -> Forall P l -> fold_left f l a = fold_left g l a.
Proof.
  intros Hfg Hl. revert a. induction Hl as [|b l Hb Hl IH]; intros a; [reflexivity|].
  simpl. rewrite (Hfg a b Hb). apply IH.
Qed.

(** For [snake_case] the key transformation is idempotent on every value:
    the claim C7 holds on this path. *)
Lemma transformObjectKeys_snake_case_idempotent (obj : JsValue) :
  transformObjectKeys (transformObjectKeys obj snake_case) snake_case
    = transformObjectKeys obj snake_case.
Proof.
  induction obj as [| | b | n | s | xs IH | kvs IH] using JsValue_nested_ind;
    try reflexivity.
  - rewrite !transformObjectKeys_array. f_equal. rewrite map_map.
    apply map_ext_in. intros x Hx. rewrite List.Forall_forall in IH. auto.
  - rewrite transformObjectKeys_object.
    set (P := fun kv : jsstring * JsValue =>
                toSnakeCase (fst kv) = fst kv /\
                transformObjectKeys (snd kv) snake_case = snd kv).
    destruct (transformObjectKeys_fold snake_case P kvs []) as [Hc Hp].
    + split; constructor.
    + constructor.
    + eapply Forall_impl; [exact IH|]. intros kv Hkv. split; simpl.
      * apply toSnakeCase_idempotent.
      * exact Hkv.
    + set (R := fold_left _ kvs []) in *.
      rewrite transformObjectKeys_object. f_equal.
      rewrite (fold_left_ext_Forall _
                 (fun result kv => setProperty result (fst kv) (snd kv)) P R []).
      * apply (rebuild_canonical [] R). exact Hc.
      * intros a kv [Hk Hv]. simpl. now rewrite Hk, Hv.
      * exact Hp.
Qed.

(** ** Levenshtein distance *)

Lemma editDistance_nil_r (a : jsstring) : editDistance a [] = length a.
Proof. destruct a; reflexivity. Qed.

Lemma editDistance_cons (x y : ascii) (a b : jsstring) :
  editDistance (x :: a) (y :: b) =
    Nat.min (editDistance (x :: a) b + 1)
      (Nat.min (editDistance a (y :: b) + 1)
         (editDistance a b + (if char_eqb x y then 0 else 1))).
Proof. reflexivity. Qed.

Lemma char_eqb_sym (x y : ascii) : char_eqb x y = char_eqb y x.
Proof. unfold char_eqb. apply Ascii.eqb_sym. Qed.

Lemma editDistance_sym (a b : jsstring) : editDistance a b = editDistance b a.
Proof.
  revert b. induction a as [|x a IHa]; intros b.
  - now rewrite editDistance_nil_r.
  - induction b as [|y b IHb]; [reflexivity|].
    rewrite !editDistance_cons, IHb, (IHa (y :: b)), (IHa b), (char_eqb_sym x y).
    lia.
Qed.

Lemma editDistance_refl (a : jsstring) : editDistance a a = 0.
Proof.
  induction a as [|x a IH]; [reflexivity|].
  rewrite editDistance_cons, IH. unfold char_eqb. rewrite Ascii.eqb_refl. lia.
Qed.

Lemma editDistance_bounds (a b : jsstring) :
  length a - length b <= editDistance a b /\
  length b - length a <= editDistance a b /\
  editDistance a b <= Nat.max (length a) (length b).
Proof.
  revert b. induction a as [|x a IHa]; intros b.
  - simpl. lia.
  - induction b as [|y b IHb]; [simpl; lia|].
    rewrite editDistance_cons.
    specialize (IHa (y :: b)) as H1. specialize (IHa b) as H2.
    simpl length in *. destruct (char_eqb x y); lia.
Qed.


(** [min_le] proves that a nested minimum is below one of its arguments. *)
Ltac min_le :=
  match goal with
  | |- Nat.min _ _ <= _ =>
      first [ apply Nat.min_le_iff; left; min_le
            | apply Nat.min_le_iff; right; min_le ]
  | |- _ => lia
  end.

(** The recurrence read from the ends of the strings. *)
Lemma editDistance_snoc (a b : jsstring) (x y : ascii) :
  editDistance (a ++ [x]) (b ++ [y]) =
    Nat.min (editDistance (a ++ [x]) b + 1)
      (Nat.min (editDistance a (b ++ [y]) + 1)
         (editDistance a b + (if char_eqb x y then 0 else 1))).
Proof.
  revert b. induction a as [|a0 a IHa]; intros b.
  - induction b as [|b0 b IHb].
    + reflexivity.
    + cbn [app] in *. rewrite editDistance_cons, IHb.
      rewrite (editDistance_cons x b0 [] b).
      cbn [editDistance]. rewrite !length_app. cbn [length].
      destruct (char_eqb x b0), (char_eqb x y); lia.
  - induction b as [|b0 b IHb].
    + pose proof (IHa []) as H0. cbn [app] in H0 |- *.
      rewrite editDistance_cons, H0.
      rewrite !editDistance_nil_r.
      rewrite (editDistance_cons a0 y a []), !editDistance_nil_r.
      rewrite !length_app. cbn [length].
      pose proof (editDistance_bounds a [y]) as Hb. cbn [length] in Hb.
      destruct (char_eqb a0 y), (char_eqb x y); lia.
    + pose proof (IHa (b0 :: b)) as H1. pose proof (IHa b) as H2.
      cbn [app] in *. rewrite editDistance_cons, IHb, H1, H2.
      rewrite (editDistance_cons a0 b0 (a ++ [x]) b).
      rewrite (editDistance_cons a0 b0 a (b ++ [y])).
      rewrite (editDistance_cons a0 b0 a b).
      generalize (editDistance (a0 :: a ++ [x]) b) (editDistance (a0 :: a) (b ++ [y]))
        (editDistance (a0 :: a) b) (editDistance (a ++ [x]) (b0 :: b))
        (editDistance a (b0 :: b ++ [y])) (editDistance a (b0 :: b))
        (editDistance (a ++ [x]) b) (editDistance a (b ++ [y])) (editDistance a b)
        (if char_eqb x y then 0 else 1) (if char_eqb a0 b0 then 0 else 1).
      intros p q r a1 a2 a3 b1 b2 b3 cxy c00.
      repeat rewrite <- Nat.add_min_distr_r.
      apply Nat.le_antisymm; repeat apply Nat.min_glb; min_le.
Qed.

Lemma editDistance_rev (a b : jsstring) :
  editDistance (rev a) (rev b) = editDistance a b.
Proof.
  revert b. induction a as [|x a IHa]; intros b.
  - simpl. apply length_rev.
  - induction b as [|y b IHb].
    + rewrite !editDistance_nil_r. apply length_rev.
    + rewrite editDistance_cons. cbn [rev]. rewrite editDistance_snoc.
      cbn [rev] in IHb. rewrite IHb.
      pose proof (IHa (y :: b)) as H1. cbn [rev] in H1. rewrite H1, (IHa b).
      reflexivity.
Qed.

Lemma nth_insert_nat (l : list nat) (i j v : nat) :
  i < length l ->
  nth j (<[i := v]> l) 0 = if Nat.eqb j i then v else nth j l 0.
Proof.
  intros Hi. rewrite !nth_lookup.
  destruct (Nat.eqb_spec j i) as [->|Hne].
  - now rewrite list_lookup_insert_eq.
  - now rewrite list_lookup_insert_ne.
Qed.

Lemma rev_take_S (s : jsstring) (k : nat) (c : ascii) :
  s !! k = Some c -> rev (take (S k) s) = c :: rev (take k s).
Proof. intros H. rewrite (take_S_r _ _ _ H), rev_app_distr. reflexivity. Qed.

Section LevenshteinRows.

Variables longer shorter : jsstring.

Local Abbreviation D := (fun i j => editDistance (rev (take i longer)) (rev (take j shorter))).

Lemma levenshtein_cell (i k : nat) :
  i < length longer -> k < length shorter ->
  D (S i) (S k) =
    Nat.min (D (S i) k + 1)
      (Nat.min (D i (S k) + 1)
         (D i k + (if charAt_eqb longer i shorter k then 0 else 1))).
Proof.
  intros Hi Hk.
  destruct (lookup_lt_is_Some_2 longer i Hi) as [x Hx].
  destruct (lookup_lt_is_Some_2 shorter k Hk) as [y Hy].
  rewrite (rev_take_S _ _ _ Hx), (rev_take_S _ _ _ Hy), editDistance_cons.
  unfold charAt_eqb. rewrite Hx, Hy. reflexivity.
Qed.

Lemma levenshteinRow_inner (i k : nat) (prev cur : list nat) :
  i < length longer -> k <= length shorter ->
  levenshteinRowOf longer shorter i prev ->
  length cur = length shorter + 1 ->
  let row :=
    fold_left
      (fun cur j =>
         let cost := if charAt_eqb longer (S i - 1) shorter (j - 1) then 0 else 1 in
         <[j := Nat.min (nth (j - 1) cur 0 + 1)
                  (Nat.min (nth j prev 0 + 1) (nth (j - 1) prev 0 + cost))]> cur)
      (seq 1 k) (<[0 := S i]> cur) in
  length row = length shorter + 1 /\
  forall j, j <= k -> nth j row 0 = D (S i) j.
Proof.
  intros Hi Hk [Hlp Hprev] Hlc. induction k as [|k IH].
  - simpl. rewrite length_insert. split; [exact Hlc|].
    intros j Hj. replace j with 0 by lia.
    rewrite nth_insert_nat by lia. simpl.
    rewrite editDistance_nil_r, length_rev, length_take. lia.
  - rewrite seq_S, fold_left_app. cbn [fold_left Nat.add].
    destruct IH as [Hl Hrow]; [lia|].
    match goal with |- context [fold_left ?f (seq 1 k) ?c] =>
      set (row := fold_left f (seq 1 k) c) in * end.
    cbv zeta. rewrite length_insert. split; [exact Hl|].
    intros j Hj. rewrite nth_insert_nat by lia.
    destruct (Nat.eqb_spec j (S k)) as [->|Hne]; [|apply Hrow; lia].
    replace (S k - 1) with k by lia. replace (S i - 1) with i by lia.
    rewrite (Hrow k) by lia. rewrite (Hprev (S k)), (Hprev k) by lia.
    symmetry. apply levenshtein_cell; lia.
Qed.

Lemma levenshteinRow_spec (i : nat) (prev cur : list nat) :
  i < length longer ->
  levenshteinRowOf longer shorter i prev ->
  length cur = length shorter + 1 ->
  levenshteinRowOf longer shorter (S i) (levenshteinRow longer shorter (S i) prev cur).
Proof.
  intros Hi Hp Hc. unfold levenshteinRow.
  destruct (levenshteinRow_inner i (length shorter) prev cur Hi (Nat.le_refl _) Hp Hc)
    as [Hl Hrow].
  split; [exact Hl | exact Hrow].
Qed.

Lemma levenshtein_rows (m : nat) :
  m <= length longer ->
  let rows :=
    fold_left
      (fun '(prev, cur) i =>
         let cur' := levenshteinRow longer shorter i prev cur in (cur', prev))
      (seq 1 m)
      (seq 0 (length shorter + 1), replicate (length shorter + 1) 0) in
  levenshteinRowOf longer shorter m (fst rows) /\
  length (snd rows) = length shorter + 1.
Proof.
  induction m as [|m IH]; intros Hm.
  - simpl. split; [|apply length_replicate].
    split; [apply length_seq|]. intros j Hj.
    rewrite seq_nth by lia. simpl. rewrite length_rev, length_take. lia.
  - cbv zeta in *. rewrite seq_S, fold_left_app. cbn [fold_left Nat.add].
    destruct IH as [Hrow Hlen]; [lia|].
    destruct (fold_left _ (seq 1 m) _) as [prev cur]. cbn [fst snd] in *.
    split; [apply levenshteinRow_spec; auto | apply Hrow].
Qed.

End LevenshteinRows.

Lemma levenshteinDistance_correct (str1 str2 : jsstring) :
  levenshteinDistance str1 str2
    = editDistance (trim (toLowerCase str1)) (trim (toLowerCase str2)).
Proof.
  unfold levenshteinDistance.
  set (s1 := trim (toLowerCase str1)). set (s2 := trim (toLowerCase str2)).
  destruct (str_eqb s1 s2) eqn:E.
  { apply str_eqb_eq in E. rewrite E. symmetry. apply editDistance_refl. }
  destruct (Nat.eqb_spec (length s1) 0) as [E1|E1].
  { destruct s1; [reflexivity | discriminate]. }
  destruct (Nat.eqb_spec (length s2) 0) as [E2|E2].
  { destruct s2; [now rewrite editDistance_nil_r | discriminate]. }
  assert (H : forall longer shorter,
    nth (length shorter)
      (fst (fold_left
              (fun '(prev, cur) i =>
                 let cur' := levenshteinRow longer shorter i prev cur in (cur', prev))
              (seq 1 (length longer))
              (seq 0 (length shorter + 1), replicate (length shorter + 1) 0))) 0
    = editDistance longer shorter).
  { intros longer shorter.
    destruct (levenshtein_rows longer shorter (length longer) (Nat.le_refl _))
      as [[_ Hrow] _].
    rewrite Hrow by lia. rewrite !firstn_all. apply editDistance_rev. }
  destruct (length s1 <=? length s2); rewrite H; [apply editDistance_sym | reflexivity].
Qed.

Lemma editDistance_cons_l (x : ascii) (a c : jsstring) :
  editDistance (x :: a) c <= editDistance a c + 1.
Proof.
  destruct c as [|z c].
  - rewrite !editDistance_nil_r. simpl. lia.
  - rewrite editDistance_cons. lia.
Qed.

Lemma editDistance_cons_r (z : ascii) (a c : jsstring) :
  editDistance a (z :: c) <= editDistance a c + 1.
Proof. rewrite (editDistance_sym a), (editDistance_sym a c). apply editDistance_cons_l. Qed.

Lemma char_cost_triangle (x y z : ascii) :
  (if char_eqb x z then 0 else 1)
  <= (if char_eqb x y then 0 else 1) + (if char_eqb y z then 0 else 1).
Proof.
  unfold char_eqb.
  destruct (Ascii.eqb_spec x y) as [Exy|Exy]; destruct (Ascii.eqb_spec y z) as [Eyz|Eyz];
    destruct (Ascii.eqb_spec x z) as [Exz|Exz]; try lia; congruence.
Qed.

Lemma editDistance_triangle (a b c : jsstring) :
  editDistance a c <= editDistance a b + editDistance b c.
Proof.
  remember (length a + length b + length c) as n eqn:Hn.
  revert a b c Hn. induction n as [n IH] using lt_wf_ind. intros a b c Hn.
  destruct a as [|x a].
  { pose proof (editDistance_bounds b c).
    change (editDistance [] c) with (length c). change (editDistance [] b) with (length b).
    lia. }
  destruct c as [|z c].
  { pose proof (editDistance_bounds (x :: a) b). rewrite !editDistance_nil_r. lia. }
  destruct b as [|y b].
  { pose proof (editDistance_bounds (x :: a) (z :: c)). rewrite editDistance_nil_r.
    change (editDistance [] (z :: c)) with (length (z :: c)). lia. }
  assert (IH' : forall a' b' c', length a' + length b' + length c' < n ->
            editDistance a' c' <= editDistance a' b' + editDistance b' c').
  { intros a' b' c' Hlt. exact (IH _ Hlt a' b' c' eq_refl). }
  cbn [length] in Hn.
  assert (H1 := IH' a (y :: b) (z :: c) ltac:(cbn [length]; lia)).
  assert (H2 := IH' (x :: a) (y :: b) c ltac:(cbn [length]; lia)).
  assert (H3 := IH' (x :: a) b (z :: c) ltac:(cbn [length]; lia)).
  assert (H4 := IH' (x :: a) b c ltac:(cbn [length]; lia)).
  assert (H5 := IH' a b (z :: c) ltac:(cbn [length]; lia)).
  assert (H6 := IH' a b c ltac:(cbn [length]; lia)).
  pose proof (editDistance_cons_l x a (z :: c)) as S1.
  pose proof (editDistance_cons_r z (x :: a) c) as S2.
  pose proof (char_cost_triangle x y z) as Hc.
  pose proof (editDistance_cons x z a c) as Exz.
  pose proof (editDistance_cons x y a b) as Exy.
  pose proof (editDistance_cons y z b c) as Eyz.
  clear IH IH' Hn. revert H1 H2 H3 H4 H5 H6 S1 S2 Hc Exz Exy Eyz.
  generalize (editDistance (x :: a) (z :: c)) (editDistance (x :: a) (y :: b))
    (editDistance (y :: b) (z :: c)).
  generalize (editDistance (x :: a) b) (editDistance a (y :: b)) (editDistance a b)
    (editDistance (y :: b) c) (editDistance b (z :: c)) (editDistance b c)
    (editDistance (x :: a) c) (editDistance a (z :: c)) (editDistance a c).
  generalize (if char_eqb x z then 0 else 1)
    (if char_eqb x y then 0 else 1) (if char_eqb y z then 0 else 1).
  clear. intros. lia.
Qed.





(** X2: [levenshteinDistance] does not depend on the order of its
    arguments. *)
Theorem levenshteinDistance_symmetric (str1 str2 : jsstring) :
  levenshteinDistance str1 str2 = levenshteinDistance str2 str1.
Proof. rewrite !levenshteinDistance_correct. apply editDistance_sym. Qed.




(** X5: [levenshteinDistance] satisfies the triangle inequality. *)
Theorem levenshteinDistance_triangle (str1 str2 str3 : jsstring) :
  levenshteinDistance str1 str3
    <= levenshteinDistance str1 str2 + levenshteinDistance str2 str3.
Proof. rewrite !levenshteinDistance_correct. apply editDistance_triangle. Qed.


(** ** Ranges of the similarity scores *)



Lemma jaroSimilarity_equal (str1 str2 : jsstring) :
  trim (toLowerCase str1) = trim (toLowerCase str2) -> jaroSimilarity str1 str2 = 1%Q.
Proof.
  intros E. unfold jaroSimilarity, jaroSimilarityRun. rewrite E.
  rewrite (proj2 (str_eqb_eq _ _) eq_refl). reflexivity.
Qed.

Lemma fuzzyMatch_equal (str1 str2 : jsstring) :
  nonEmpty str1 = nonEmpty str2 ->
  trim (toLowerCase str1) = trim (toLowerCase str2) ->
  (fuzzyMatch str1 str2 == 1)%Q.
Proof.
  intros Hne E. unfold fuzzyMatch.
  destruct ((length str1 <? 10) && (length str2 <? 10)).
  - unfold jaroWinklerSimilarity. rewrite (jaroSimilarity_equal _ _ E).
    change (Qeq_bool 1 0) with false. cbv iota. ring.
  - unfold levenshteinSimilarity. rewrite Hne.
    destruct (nonEmpty str2); cbn [negb andb orb]; [|reflexivity].
    rewrite levenshteinDistance_correct, E, editDistance_refl.
    destruct (Nat.max (length str1) (length str2) =? 0); [reflexivity|].
    change (Qn 0) with 0%Q. unfold Qdiv. ring.
Qed.





(** X7: two strings that are equal up to case and surrounding white space,
    both empty or both not, have a [fuzzyMatch] score of 1. *)
Theorem fuzzyMatch_equal_normalized (str1 str2 : jsstring) :
  nonEmpty str1 = nonEmpty str2 ->
  trim (toLowerCase str1) = trim (toLowerCase str2) ->
  (fuzzyMatch str1 str2 == 1)%Q.
Proof. apply fuzzyMatch_equal. Qed.

Lemma fuzzyMatch_equal_normalized_witness :
  (fuzzyMatch (js "  John Smith-Jones") (js "john smith-jones ") == 1)%Q.
Proof.
  apply (fuzzyMatch_equal_normalized (js "  John Smith-Jones") (js "john smith-jones "));
    reflexivity.
Defined.

(** ** Consequences for the deduplicated sequence *)

Lemma filterIndex_all {A : Type} (keep : nat -> bool) (start : nat) (l : list A) :
  (forall i, keep i = true) -> filterIndex keep start l = l.
Proof.
  intros Hk. revert start. induction l as [|x l IH]; intros start; simpl; [reflexivity|].
  now rewrite Hk, IH.
Qed.

Lemma lookup_map {A B : Type} (f : A -> B) (l : list A) (i : nat) :
  map f l !! i = f <$> (l !! i).
Proof. revert i. induction l as [|x l IH]; intros [|i]; simpl; auto. Qed.

Lemma StronglySorted_lookup_lt (l : list nat) (i j a b : nat) :
  StronglySorted lt l -> i < j -> l !! i = Some a -> l !! j = Some b -> a < b.
Proof.
  intros Hs. revert i j. induction Hs as [|x l Hs IH Hall]; intros i j Hij Hi Hj.
  - discriminate.
  - destruct j as [|j]; [lia|]. destruct i as [|i]; simpl in Hi, Hj.
    + injection Hi as <-. rewrite List.Forall_forall in Hall.
      apply Hall, list_elem_of_In. eapply list_elem_of_lookup_2, Hj.
    + apply (IH i j); auto. lia.
Qed.

Lemma filter_seq_sorted (p : nat -> bool) (start len : nat) :
  StronglySorted lt (List.filter p (seq start len)).
Proof.
  revert start. induction len as [|n IH]; intros start; simpl; [constructor|].
  assert (Hall : Forall (lt start) (List.filter p (seq (S start) n))).
  { apply List.Forall_forall. intros x Hx. apply filter_In in Hx.
    destruct Hx as [Hx _]. apply in_seq in Hx. lia. }
  destruct (p start); [constructor; auto | apply IH].
Qed.

Lemma size_filter_complement (n : nat) (S : gset nat) :
  (forall x, x ∈ S -> x < n) ->
  size S + length (List.filter (fun i => negb (bool_decide (i ∈ S))) (seq 0 n)) = n.
Proof.
  revert S. induction n as [|n IH]; intros S HS.
  - assert (E : S = ∅).
    { apply elem_of_equiv_empty_L. intros x Hx. specialize (HS x Hx). lia. }
    subst S. cbn [seq List.filter length]. now rewrite size_empty.
  - rewrite seq_S, List.filter_app, length_app. cbn [Nat.add List.filter].
    destruct (decide (n ∈ S)) as [Hn|Hn].
    + rewrite (bool_decide_eq_true_2 _ Hn). cbn [negb length].
      assert (E : S = {[n]} ∪ S ∖ {[n]}).
      { apply union_difference_L. set_solver. }
      assert (Hsize : size S = 1 + size (S ∖ {[n]})).
      { rewrite E at 1. rewrite size_union by set_solver. now rewrite size_singleton. }
      assert (Hf : List.filter (fun i => negb (bool_decide (i ∈ S))) (seq 0 n)
                   = List.filter (fun i => negb (bool_decide (i ∈ S ∖ {[n]}))) (seq 0 n)).
      { apply filter_ext_in. intros a Ha. apply in_seq in Ha. f_equal.
        apply bool_decide_ext. set_solver by lia. }
      rewrite Hf, Hsize.
      specialize (IH (S ∖ {[n]})). rewrite Nat.add_0_r, <- Nat.add_assoc, IH; [lia|].
      intros x Hx. assert (x ∈ S) as HxS by set_solver.
      specialize (HS x HxS). assert (x <> n) by set_solver. lia.
    + rewrite (bool_decide_eq_false_2 _ Hn). cbn [negb length].
      specialize (IH S). rewrite Nat.add_assoc, IH; [lia|].
      intros x Hx. specialize (HS x Hx). assert (x <> n) by (intros ->; auto). lia.
Qed.

Lemma averageSimilarity_itemAt (items1 items2 : list Record_) (fields : list jsstring)
    (i1 j1 i2 j2 : nat) :
  itemAt items1 i1 = itemAt items2 i2 -> itemAt items1 j1 = itemAt items2 j2 ->
  averageSimilarity items1 fields i1 j1 = averageSimilarity items2 fields i2 j2.
Proof. intros Hi Hj. unfold averageSimilarity. now rewrite Hi, Hj. Qed.


Section DeduplicatedRecords.

Variables (items : list Record_) (fieldsToCheck : list jsstring) (threshold : Q).

Local Abbreviation G := (findFuzzyDuplicates items fieldsToCheck threshold).
Local Abbreviation kept := (keptIndices items fieldsToCheck threshold).
Local Abbreviation avgS := (averageSimilarity items fieldsToCheck).


Lemma kept_pair_separated (i j : nat) :
  i < j -> i ∈ kept -> j ∈ kept -> (avgS i j < threshold)%Q.
Proof.
  intros Hij Hi Hj. apply keptIndices_spec in Hi, Hj.
  destruct Hi as [Hi Hpi], Hj as [Hj Hpj].
  destruct (findFuzzyDuplicates_invariant items fieldsToCheck threshold) as [P Inv].
  apply Qnot_le_lt. intros Hle. apply Hpj. exists i.
  apply (inv_complete _ _ _ _ _ _ Inv); auto.
  - intros HiP. apply Hpi. now apply (inv_processed _ _ _ _ _ _ Inv).
  - intros (k & _ & Hk). apply Hpj. now exists k.
Qed.



Lemma outer_loop_no_pair (n : nat) :
  (forall i j, i < j < length items -> ~ (threshold <= avgS i j)%Q) ->
  fold_left (outerStep items fieldsToCheck threshold) (seq 0 n) ([], ∅) = ([], ∅).
Proof.
  intros Hno. induction n as [|n IH]; [reflexivity|].
  rewrite seq_S, fold_left_app, IH. cbn [fold_left Nat.add].
  rewrite outerStep_unfold by set_solver. cbv zeta.
  assert (E : List.filter (joins items fieldsToCheck threshold ∅ n)
                (seq (n + 1) (length items - (n + 1))) = []).
  { destruct (List.filter _ _) as [|x l] eqn:Ef; [reflexivity|]. exfalso.
    assert (Hx : x ∈ List.filter (joins items fieldsToCheck threshold ∅ n)
                   (seq (n + 1) (length items - (n + 1)))).
    { rewrite Ef. apply list_elem_of_here. }
    apply joins_filter_spec in Hx. destruct Hx as (Hr & _ & Hle).
    exact (Hno n x Hr Hle). }
  rewrite E. cbn [length Nat.ltb Nat.leb list_to_set foldr]. f_equal; set_solver.
Qed.

Lemma deduplicateFuzzy_no_groups :
  G = [] -> deduplicateFuzzy items fieldsToCheck threshold = mkDeduplicateResult items 0 [].
Proof.
  intros E. unfold deduplicateFuzzy. rewrite E.
  change (collectIndicesToRemove []) with (∅ : gset nat).
  rewrite filterIndex_all, size_empty; [reflexivity|].
  intros i. rewrite bool_decide_eq_false_2; [reflexivity | set_solver].
Qed.

Lemma deduplicateFuzzy_no_pair :
  (forall i j, i < j < length items -> ~ (threshold <= avgS i j)%Q) ->
  deduplicateFuzzy items fieldsToCheck threshold = mkDeduplicateResult items 0 [].
Proof.
  intros Hno. apply deduplicateFuzzy_no_groups.
  unfold findFuzzyDuplicates. now rewrite outer_loop_no_pair.
Qed.

Lemma removed_in_range (x : nat) : x ∈ collectIndicesToRemove G -> x < length items.
Proof.
  rewrite collectIndicesToRemove_spec. intros [i Hi].
  destruct (findFuzzyDuplicates_invariant items fieldsToCheck threshold) as [P Inv].
  destruct (inv_sound _ _ _ _ _ _ Inv i x Hi) as (Hr & _). lia.
Qed.

Lemma duplicates_sublist (groups : list DuplicateGroup) :
  concat (map duplicateIndices groups) `sublist_of` concat (map groupIndices groups).
Proof.
  induction groups as [|g groups IH]; simpl; [constructor|].
  apply sublist_cons. now apply sublist_app.
Qed.

Lemma collectIndicesToRemove_list (groups : list DuplicateGroup) :
  collectIndicesToRemove groups = list_to_set (concat (map duplicateIndices groups)).
Proof.
  apply set_eq. intros x. rewrite collectIndicesToRemove_spec, elem_of_list_to_set.
  unfold processed, joined. rewrite list_elem_of_In, in_concat. split.
  - intros (i & g & Hg & _ & Hx). exists (duplicateIndices g). split.
    + apply in_map. now apply list_elem_of_In.
    + now apply list_elem_of_In.
  - intros (l & Hl & Hx). apply in_map_iff in Hl. destruct Hl as (g & <- & Hg).
    exists (keepIndex g), g. rewrite !list_elem_of_In. auto.
Qed.

End DeduplicatedRecords.

(** X8: record counts of [deduplicateFuzzy]: the removed and the returned
    records add up to the input, and [removedCount] is the total number of
    duplicates listed in the groups. *)
Theorem deduplicateFuzzy_counts (items : list Record_) (fieldsToCheck : list jsstring)
    (threshold : Q) :
  let r := deduplicateFuzzy items fieldsToCheck threshold in
  removedCount r + length (deduplicated r) = length items /\
  removedCount r = length (concat (map duplicateIndices (duplicateGroups r))).
Proof.
  intros r. split.
  - unfold r. rewrite deduplicated_keptIndices, length_map.
    unfold keptIndices, deduplicateFuzzy. cbn [removedCount]. rewrite filterIndex_seq.
    apply size_filter_complement. apply removed_in_range.
  - unfold r, deduplicateFuzzy. cbn [removedCount duplicateGroups].
    rewrite collectIndicesToRemove_list. apply size_list_to_set.
    destruct (findFuzzyDuplicates_invariant items fieldsToCheck threshold) as [P Inv].
    eapply sublist_NoDup; [exact (inv_nodup _ _ _ _ _ _ Inv) | apply duplicates_sublist].
Qed.



(** X10: [deduplicateFuzzy] is idempotent: run on its own output with the
    same fields and threshold it finds no group and removes nothing. *)
Theorem deduplicateFuzzy_idempotent (items : list Record_) (fieldsToCheck : list jsstring)
    (threshold : Q) :
  let r := deduplicateFuzzy items fieldsToCheck threshold in
  deduplicateFuzzy (deduplicated r) fieldsToCheck threshold
    = mkDeduplicateResult (deduplicated r) 0 [].
Proof.
  intros r. apply deduplicateFuzzy_no_pair. intros i j Hij.
  unfold r in *. rewrite deduplicated_keptIndices in *. rewrite length_map in Hij.
  set (kept := keptIndices items fieldsToCheck threshold) in *.
  destruct (lookup_lt_is_Some_2 kept i ltac:(lia)) as [a Ha].
  destruct (lookup_lt_is_Some_2 kept j ltac:(lia)) as [b Hb].
  rewrite (averageSimilarity_itemAt _ items fieldsToCheck i j a b).
  - apply Qlt_not_le. apply kept_pair_separated.
    + apply (StronglySorted_lookup_lt kept i j); auto; [apply keptIndices_sorted | lia].
    + eapply list_elem_of_lookup_2, Ha.
    + eapply list_elem_of_lookup_2, Hb.
  - unfold itemAt at 1. now rewrite lookup_map, Ha.
  - unfold itemAt at 1. now rewrite lookup_map, Hb.
Qed.








Section GroupsShape.

Variables (items : list Record_) (fieldsToCheck : list jsstring) (threshold : Q).

Lemma outer_loop_groups (n : nat) :
  let st := fold_left (outerStep items fieldsToCheck threshold) (seq 0 n) ([], ∅) in
  Forall (fun g => keepIndex g < n /\ duplicateIndices g <> [] /\
                   StronglySorted lt (groupIndices g)) (fst st) /\
  StronglySorted lt (map keepIndex (fst st)).
Proof.
  induction n as [|n IH]; cbv zeta in *.
  - split; constructor.
  - rewrite seq_S, fold_left_app. cbn [fold_left Nat.add].
    destruct (fold_left _ (seq 0 n) _) as [groups P]. cbn [fst] in IH.
    destruct IH as [Hall Hs].
    assert (Hall' : Forall (fun g => keepIndex g < S n /\ duplicateIndices g <> [] /\
                              StronglySorted lt (groupIndices g)) groups).
    { eapply Forall_impl; [exact Hall|]. intros g (H1 & H2 & H3). auto. }
    destruct (decide (n ∈ P)) as [HP|HP].
    { unfold outerStep. rewrite (bool_decide_eq_true_2 _ HP). auto. }
    rewrite outerStep_unfold by exact HP. cbv zeta.
    set (D := List.filter _ _).
    destruct (0 <? length D) eqn:ED; cbn [fst]; [|auto].
    apply Nat.ltb_lt in ED. split.
    + apply Forall_app. split; [exact Hall'|]. constructor; [|constructor].
      cbv beta. cbn [keepIndex duplicateIndices groupIndices]. split; [lia|]. split.
      * destruct D; [simpl in ED; lia | discriminate].
      * constructor; [apply filter_seq_sorted|].
        apply List.Forall_forall. intros x Hx. apply filter_In in Hx.
        destruct Hx as [Hx _]. apply in_seq in Hx. cbn [keepIndex]. lia.
    + rewrite List.map_app. apply StronglySorted_app_2; [|exact Hs|repeat constructor].
      intros x1 x2 Hx1 Hx2. apply list_elem_of_singleton in Hx2. subst x2.
      apply list_elem_of_In, in_map_iff in Hx1. destruct Hx1 as (g & <- & Hg).
      rewrite List.Forall_forall in Hall. now apply Hall.
Qed.

End GroupsShape.

(** X13: the groups reported by [findFuzzyDuplicates] are listed by
    increasing [keepIndex]; each has at least one duplicate, and its
    duplicates are listed in increasing order after its [keepIndex]. *)
Theorem findFuzzyDuplicates_groups_shape (items : list Record_)
    (fieldsToCheck : list jsstring) (threshold : Q) :
  let groups := findFuzzyDuplicates items fieldsToCheck threshold in
  Forall (fun g => duplicateIndices g <> [] /\
                   StronglySorted lt (keepIndex g :: duplicateIndices g)) groups /\
  StronglySorted lt (map keepIndex groups).
Proof.
  intros groups.
  destruct (outer_loop_groups items fieldsToCheck threshold (length items)) as [Hall Hs].
  split; [|exact Hs].
  eapply Forall_impl; [exact Hall|]. intros g (_ & H2 & H3). auto.
Qed.

(** ** Phone numbers: idempotence, validity and agreement of the parsers *)

Lemma digit_not_space (c : ascii) : isDigit c = true -> isSpace c = false.
Proof. each_char c. Qed.

Lemma dropWhile_none (p : ascii -> bool) (s : jsstring) :
  headIs p s = false -> dropWhile p s = s.
Proof. apply dropWhile_head_false. Qed.

Lemma trim_plus_digits (ds : jsstring) :
  forallb isDigit ds = true -> trim (js "+" ++ ds) = js "+" ++ ds.
Proof.
  intros Hd. change (js "+" ++ ds) with ("+"%char :: ds).
  unfold trim, trimEnd, trimStart.
  rewrite (dropWhile_head_false isSpace ("+"%char :: ds)) by reflexivity.
  rewrite dropWhile_head_false; [apply rev_involutive|].
  unfold headIs. rewrite last_rev_head.
  destruct ds as [|d ds] using rev_ind; [reflexivity|].
  rewrite app_comm_cons, last_snoc.
  rewrite forallb_app in Hd. apply andb_prop in Hd. destruct Hd as [_ Hd].
  simpl in Hd. apply andb_prop in Hd. destruct Hd as [Hd _].
  now apply digit_not_space.
Qed.

Lemma phoneDigits_plus_digits (ds : jsstring) :
  forallb isDigit ds = true -> phoneDigits (js "+" ++ ds) = ds.
Proof.
  intros Hd. change (js "+" ++ ds) with ("+"%char :: ds).
  unfold phoneDigits, removeAll. cbn [List.filter].
  change (negb (negb (isDigit "+"))) with false. cbv iota.
  apply (removeAll_none (fun c => negb (isDigit c))).
  apply forallb_forall. intros c Hc. rewrite negb_involutive.
  rewrite forallb_forall in Hd. now apply Hd.
Qed.

Lemma cleanPhoneNumber_plusDigits_fixed (ds cc : jsstring) :
  forallb isDigit ds = true ->
  cleanPhoneNumber (VStr (js "+" ++ ds)) cc = VStr (js "+" ++ ds).
Proof.
  intros Hd.
  destruct (Nat.eq_dec (length ds) 0) as [E|E].
  { apply cleanPhoneNumber_unchanged. left. now rewrite phoneDigits_plus_digits. }
  destruct (Nat.ltb_spec 15 (length ds)) as [Hl|Hl].
  { apply cleanPhoneNumber_unchanged. right. now rewrite phoneDigits_plus_digits. }
  rewrite cleanPhoneNumber_digits by (rewrite phoneDigits_plus_digits by exact Hd; lia).
  unfold phoneHasPlus. rewrite trim_plus_digits by exact Hd.
  rewrite phoneDigits_plus_digits by exact Hd.
  assert (Hs : startsWith (js "+" ++ ds) (js "+") = true) by (destruct ds; reflexivity).
  now rewrite Hs.
Qed.

Lemma cleanPhoneNumber_result (p cc : jsstring) :
  forallb isDigit cc = true ->
  cleanPhoneNumber (VStr p) cc = VStr p \/
  exists ds, cleanPhoneNumber (VStr p) cc = VStr (js "+" ++ ds) /\
             forallb isDigit ds = true.
Proof.
  intros Hcc. assert (Hd := phoneDigits_all_digits p).
  destruct (Nat.eq_dec (length (phoneDigits p)) 0) as [E|E].
  { left. apply cleanPhoneNumber_unchanged. now left. }
  destruct (Nat.ltb_spec 15 (length (phoneDigits p))) as [Hl|Hl].
  { left. apply cleanPhoneNumber_unchanged. now right. }
  right. rewrite cleanPhoneNumber_digits by lia.
  assert (H2 : forallb isDigit (cc ++ phoneDigits p) = true).
  { rewrite forallb_app, Hcc, Hd. reflexivity. }
  assert (H3 : forallb isDigit (js "44" ++ slice_from 1 (phoneDigits p)) = true).
  { simpl. unfold slice_from.
    pose proof Hd as Hd'. rewrite <- (take_drop 1 (phoneDigits p)) in Hd'.
    rewrite forallb_app in Hd'. apply andb_prop in Hd'. apply Hd'. }
  repeat match goal with
  | |- context [if ?b then _ else _] => destruct b
  end;
  first [ exists (phoneDigits p); split; [reflexivity | assumption]
        | exists (cc ++ phoneDigits p); split; [reflexivity | assumption]
        | exists (js "44" ++ slice_from 1 (phoneDigits p)); split; [reflexivity | assumption] ].
Qed.

(** X14: [cleanPhoneNumber] is idempotent when the default country code
    consists of digits: cleaning a cleaned value changes nothing. *)
Theorem cleanPhoneNumber_idempotent (phone : JsValue) (cc : jsstring) :
  forallb isDigit cc = true ->
  cleanPhoneNumber (cleanPhoneNumber phone cc) cc = cleanPhoneNumber phone cc.
Proof.
  intros Hcc.
  assert (Hother : forall v, (forall s, v <> VStr s) -> cleanPhoneNumber v cc = orEmpty v).
  { intros v Hv. destruct v; try reflexivity. now elim (Hv s). }
  destruct phone as [| |b|n|p|xs|kvs].
  6,7: reflexivity.
  1,2: reflexivity.
  - destruct b; reflexivity.
  - cbn [cleanPhoneNumber]. unfold orEmpty. destruct (truthy (VNum n)) eqn:E.
    + cbn [cleanPhoneNumber]. unfold orEmpty. now rewrite E.
    + reflexivity.
  - destruct (cleanPhoneNumber_result p cc Hcc) as [E|(ds & E & Hds)]; rewrite E.
    + exact E.
    + now apply cleanPhoneNumber_plusDigits_fixed.
Qed.

Lemma cleanPhoneNumber_idempotent_witness :
  cleanPhoneNumber (cleanPhoneNumber (VStr (js "(555) 000-1111")) (js "1")) (js "1")
    = cleanPhoneNumber (VStr (js "(555) 000-1111")) (js "1").
Proof. apply (cleanPhoneNumber_idempotent (VStr (js "(555) 000-1111")) (js "1")). reflexivity. Defined.













(** ** Normal forms of the case conversions *)

(** X18: [toSnakeCase] is a projection onto the snake-case normal forms
    (lower-case letters, digits and single underscores, none at either
    end): every result is one, and the strings it leaves unchanged are
    exactly those. *)
Theorem toSnakeCase_normal_form (s : jsstring) :
  snakeNormal (toSnakeCase s) = true /\
  toSnakeCase (toSnakeCase s) = toSnakeCase s /\
  (toSnakeCase s = s <-> snakeNormal s = true).
Proof.
  split; [apply toSnakeCase_normal|]. split; [apply toSnakeCase_idempotent|]. split.
  - intros E. rewrite <- E. apply toSnakeCase_normal.
  - apply toSnakeCase_fixpoint.
Qed.

Lemma transformObjectKeys_snake_case_keysAll (obj : JsValue) :
  keysAll snakeNormal (transformObjectKeys obj snake_case) = true.
Proof.
  induction obj as [| | b | n | s | xs IH | kvs IH] using JsValue_nested_ind;
    try reflexivity.
  - rewrite transformObjectKeys_array. cbn [keysAll].
    apply forallb_forall. intros y Hy. apply in_map_iff in Hy.
    destruct Hy as (x & <- & Hx). rewrite List.Forall_forall in IH. auto.
  - rewrite transformObjectKeys_object. cbn [keysAll].
    set (P := fun kv : jsstring * JsValue =>
                snakeNormal (fst kv) && keysAll snakeNormal (snd kv) = true).
    destruct (transformObjectKeys_fold snake_case P kvs []) as [_ Hp].
    + split; constructor.
    + constructor.
    + eapply Forall_impl; [exact IH|]. intros kv Hkv. unfold P. cbn [fst snd keyTransformer].
      now rewrite toSnakeCase_normal, Hkv.
    + apply forallb_forall. intros kv Hkv. rewrite List.Forall_forall in Hp.
      now apply Hp.
Qed.

(** X19: after [transformObjectKeys] with [snake_case] every key, at every
    depth of nested objects and arrays, is in snake-case normal form, and
    a second application changes nothing. *)
Theorem transformObjectKeys_snake_case_normal (obj : JsValue) :
  keysAll snakeNormal (transformObjectKeys obj snake_case) = true /\
  transformObjectKeys (transformObjectKeys obj snake_case) snake_case
    = transformObjectKeys obj snake_case.
Proof.
  split; [apply transformObjectKeys_snake_case_keysAll|].
  apply transformObjectKeys_snake_case_idempotent.
Qed.

Lemma replaceRuns_forallb (p Q : ascii -> bool) (r s : jsstring) :
  (forall c, p c = false -> Q c = true) -> forallb Q r = true ->
  forallb Q (replaceRuns p r s) = true.
Proof.
  intros Hp Hr. induction s as [|c s IH]; [reflexivity|].
  cbn [replaceRuns]. destruct (p c) eqn:Ec.
  - destruct s as [|d s']; [exact Hr|].
    destruct (p d); [exact IH|]. now rewrite forallb_app, Hr, IH.
  - cbn [forallb]. now rewrite (Hp c Ec), IH.
Qed.

Lemma forallb_trim (Q : ascii -> bool) (s : jsstring) :
  forallb Q s = true -> forallb Q (trim s) = true.
Proof.
  intros H. unfold trim, trimEnd, trimStart.
  apply forallb_rev_true, forallb_dropWhile, forallb_rev_true, forallb_dropWhile, H.
Qed.










(** ** Title case *)




Lemma toLowerCase_app (a b : jsstring) :
  toLowerCase (a ++ b) = toLowerCase a ++ toLowerCase b.
Proof. apply map_app. Qed.


Lemma lowerChar_facts (c : ascii) :
  lowerChar (lowerChar c) = lowerChar c /\ lowerChar (upperChar c) = lowerChar c.
Proof. destruct c as [[] [] [] [] [] [] [] []]; vm_compute; split; reflexivity. Qed.

Lemma toLowerCase_idem (s : jsstring) : toLowerCase (toLowerCase s) = toLowerCase s.
Proof. unfold toLowerCase. rewrite map_map. apply map_ext. intros c. apply lowerChar_facts. Qed.




(** ** Sentence case and text formatting *)

Lemma takeWhile_dropWhile (p : ascii -> bool) (s : jsstring) :
  takeWhile p s ++ dropWhile p s = s.
Proof.
  induction s as [|c s IH]; [reflexivity|]. simpl.
  destruct (p c); [simpl; now rewrite IH | reflexivity].
Qed.






(** X23: when [maxLength] is positive and the truncation indicator (["..."]
    by default) is no longer than it, the text returned by [formatText]
    has at most [maxLength] characters. *)
Theorem formatText_truncation (t : jsstring) (options : FormatTextOptions) (m : Z) :
  maxLength options = Some m -> (0 < m)%Z ->
  (Z.of_nat (length (default (js "...") (truncationIndicator options))) <= m)%Z ->
  exists out, formatText (VStr t) options = VStr out /\ (Z.of_nat (length out) <= m)%Z.
Proof.
  intros Hm Hpos Hind. unfold formatText. rewrite Hm.
  destruct (negb (truthy (VStr t))) eqn:Et.
  { destruct t; [|discriminate]. exists []. split; [reflexivity | simpl; lia]. }
  cbv zeta.
  match goal with |- context [(m <? Z.of_nat (length ?r))%Z] => set (result := r) end.
  set (indicator := default (js "...") (truncationIndicator options)) in *.
  destruct (Z.eqb_spec m 0) as [|_]; [lia|]. cbn [negb andb].
  destruct (Z.ltb_spec m (Z.of_nat (length result))) as [Hlt|Hle].
  - eexists. split; [reflexivity|]. unfold sliceTo.
    destruct (Z.leb_spec 0 (m - Z.of_nat (length indicator))) as [_|]; [|lia].
    rewrite length_app, length_take. lia.
  - eexists. split; [reflexivity | exact Hle].
Qed.

Lemma formatText_truncation_witness :
  exists out,
    formatText (VStr (js "The quick brown fox"))
      (mkFormatTextOptions None None (Some upper) None None None (Some 10%Z) None)
      = VStr out /\ (Z.of_nat (length out) <= 10)%Z.
Proof.
  apply (formatText_truncation (js "The quick brown fox")
           (mkFormatTextOptions None None (Some upper) None None None (Some 10%Z) None) 10);
    [reflexivity | reflexivity | simpl; lia].
Defined.

Section CollapseSpaces.

Local Abbreviation collapseS := (replaceRuns isSpace (js " ")).

Lemma collapseS_cons2 (c d : ascii) (s : jsstring) :
  collapseS (c :: d :: s) =
    if isSpace c
    then if isSpace d then collapseS (d :: s) else js " " ++ collapseS (d :: s)
    else c :: collapseS (d :: s).
Proof. reflexivity. Qed.

Lemma noAdjacent_cons (p : ascii -> bool) (c : ascii) (s : jsstring) :
  noAdjacent p (c :: s) = negb (p c && headIs p s) && noAdjacent p s.
Proof.
  destruct s as [|d s']; [|reflexivity].
  unfold headIs. simpl. now rewrite andb_false_r.
Qed.

Lemma collapseS_head (s : jsstring) :
  headIs isSpace s = false -> headIs isSpace (collapseS s) = false.
Proof.
  destruct s as [|c s]; [reflexivity|]. intros Hc.
  change (isSpace c = false) in Hc.
  destruct s as [|d s'].
  - change (collapseS [c]) with (if isSpace c then js " " else [c]).
    rewrite Hc. exact Hc.
  - rewrite collapseS_cons2, Hc. exact Hc.
Qed.

Lemma collapseS_noAdjacent (s : jsstring) : noAdjacent isSpace (collapseS s) = true.
Proof.
  induction s as [|c s IH]; [reflexivity|].
  destruct s as [|d s'].
  - simpl. destruct (isSpace c); reflexivity.
  - rewrite collapseS_cons2.
    destruct (isSpace c) eqn:Ec; [destruct (isSpace d) eqn:Ed|].
    + exact IH.
    + change (js " " ++ collapseS (d :: s')) with (" "%char :: collapseS (d :: s')).
      rewrite noAdjacent_cons, IH, collapseS_head; [reflexivity|].
      unfold headIs. simpl. exact Ed.
    + rewrite noAdjacent_cons, IH, Ec. reflexivity.
Qed.

Lemma collapseS_single (s : jsstring) :
  forallb (fun c => negb (isSpace c) || char_eqb c " ") s = true ->
  noAdjacent isSpace s = true -> collapseS s = s.
Proof.
  induction s as [|c s IH]; [reflexivity|]. intros Hq Hn.
  simpl in Hq. apply andb_prop in Hq. destruct Hq as [Hc Hq].
  rewrite noAdjacent_cons in Hn. apply andb_prop in Hn. destruct Hn as [Hn1 Hn2].
  specialize (IH Hq Hn2).
  assert (Ec : isSpace c = true -> c = " "%char).
  { intros E. rewrite E in Hc. simpl in Hc. now apply Ascii.eqb_eq in Hc. }
  destruct s as [|d s'].
  - simpl. destruct (isSpace c) eqn:E; [|reflexivity]. now rewrite (Ec eq_refl).
  - rewrite collapseS_cons2, IH. destruct (isSpace c) eqn:E; [|reflexivity].
    unfold headIs in Hn1. simpl in Hn1.
    destruct (isSpace d); [discriminate|]. now rewrite (Ec eq_refl).
Qed.

End CollapseSpaces.

Lemma noAdjacent_app (p : ascii -> bool) (a b : jsstring) :
  noAdjacent p (a ++ b) = true -> noAdjacent p a = true /\ noAdjacent p b = true.
Proof.
  induction a as [|c a IH]; [auto|]. intros H.
  change ((c :: a) ++ b) with (c :: (a ++ b)) in H.
  rewrite noAdjacent_cons in H. apply andb_prop in H. destruct H as [H1 H2].
  destruct (IH H2) as [Ha Hb]. split; [|exact Hb].
  rewrite noAdjacent_cons, Ha, andb_true_r.
  destruct a as [|d a']; [unfold headIs; simpl; now rewrite andb_false_r|exact H1].
Qed.

Lemma trim_infix (s : jsstring) : exists a b, s = a ++ trim s ++ b.
Proof.
  unfold trim, trimEnd, trimStart.
  exists (takeWhile isSpace s).
  set (t := dropWhile isSpace s).
  exists (rev (takeWhile isSpace (rev t))).
  rewrite <- rev_app_distr, takeWhile_dropWhile, rev_involutive.
  symmetry. apply takeWhile_dropWhile.
Qed.

Lemma trim_ends (s : jsstring) :
  headIs isSpace (trim s) = false /\ lastIs isSpace (trim s) = false.
Proof.
  unfold trim, trimEnd, trimStart. split.
  - pose proof (headIs_dropWhile isSpace s) as Hh.
    destruct (dropWhile isSpace s) as [|c d]; [reflexivity|].
    unfold headIs in Hh. simpl in Hh. simpl rev.
    rewrite (dropWhile_snoc _ _ _ Hh), rev_app_distr. unfold headIs. simpl. exact Hh.
  - unfold lastIs. rewrite head_rev_last. apply headIs_dropWhile.
Qed.

Lemma trim_id (s : jsstring) :
  headIs isSpace s = false -> lastIs isSpace s = false -> trim s = s.
Proof.
  intros Hh Hl. unfold trim, trimEnd, trimStart.
  rewrite (dropWhile_head_false _ _ Hh).
  rewrite dropWhile_head_false; [apply rev_involutive|].
  unfold headIs. rewrite last_rev_head. exact Hl.
Qed.

Lemma space_char_facts (c : ascii) :
  (negb (isSpace c) || char_eqb c " " = true -> negb (isLineBreak c) = true) /\
  (isSpace (" "%char) = true).
Proof.
  destruct c as [[] [] [] [] [] [] [] []]; vm_compute; repeat split; intros;
    first [reflexivity | discriminate | assumption].
Qed.

Lemma singleSpaced_normalized (s : jsstring) :
  singleSpaced (trim (replaceRuns isSpace (js " ") s)) = true.
Proof.
  unfold singleSpaced.
  destruct (trim_ends (replaceRuns isSpace (js " ") s)) as [-> ->].
  rewrite !andb_true_r. apply andb_true_intro. split.
  - apply forallb_trim, replaceRuns_forallb; [|reflexivity].
    intros c Hc. now rewrite Hc.
  - destruct (trim_infix (replaceRuns isSpace (js " ") s)) as (a & b & E).
    pose proof (collapseS_noAdjacent s) as H. rewrite E in H.
    apply noAdjacent_app in H. destruct H as [_ H].
    apply noAdjacent_app in H. apply H.
Qed.

Lemma singleSpaced_fixed (s : jsstring) :
  singleSpaced s = true -> trim (replaceRuns isSpace (js " ") s) = s.
Proof.
  unfold singleSpaced. intros H.
  apply andb_prop in H. destruct H as [H Hl].
  apply andb_prop in H. destruct H as [H Hh].
  apply andb_prop in H. destruct H as [Hq Hn].
  rewrite collapseS_single by assumption.
  apply trim_id; now apply negb_true_iff.
Qed.

(** X24: with the default handling of white space and no character
    removal, case conversion or truncation, [formatText] returns the words
    of the text separated by single blanks: the only white space left is
    the blank, never doubled and never at either end; and formatting the
    result again changes nothing. *)
Theorem formatText_whitespace (t : jsstring) (options : FormatTextOptions) :
  trimWhitespace options <> Some false ->
  flagSet (removeSpecialChars options) = false ->
  flagSet (removeNumbers options) = false ->
  flagSet (removePunctuation options) = false ->
  caseType options = None -> maxLength options = None ->
  exists out, formatText (VStr t) options = VStr out /\
              singleSpaced out = true /\
              formatText (VStr out) options = VStr out.
Proof.
  intros Htw Hsc Hnum Hpun Hcase Hmax.
  assert (Hunfold : forall x, x <> [] ->
    formatText (VStr x) options
    = VStr (trim (replaceRuns isSpace (js " ")
                    (if flagSet (removeLineBreaks options)
                     then replaceRuns isLineBreak (js " ") x else x)))).
  { intros x Hx. unfold formatText. rewrite Hsc, Hnum, Hpun, Hcase, Hmax.
    destruct x as [|c x']; [congruence|].
    change (negb (truthy (VStr (c :: x')))) with false. cbv iota zeta.
    destruct (trimWhitespace options) as [[|]|]; try reflexivity. congruence. }
  destruct t as [|c t'].
  { exists []. repeat split; reflexivity. }
  rewrite Hunfold by discriminate.
  set (out := trim _). exists out.
  pose proof (singleSpaced_normalized
                (if flagSet (removeLineBreaks options)
                 then replaceRuns isLineBreak (js " ") (c :: t') else c :: t')) as Hout.
  fold out in Hout. split; [reflexivity|]. split; [exact Hout|].
  destruct out as [|d out'] eqn:Eo; [reflexivity|]. rewrite <- Eo in *.
  rewrite Hunfold by (rewrite Eo; discriminate).
  f_equal.
  assert (Hlb : replaceRuns isLineBreak (js " ") out = out).
  { apply replaceRuns_none. unfold singleSpaced in Hout.
    apply andb_prop in Hout. destruct Hout as [Hout _].
    apply andb_prop in Hout. destruct Hout as [Hout _].
    apply andb_prop in Hout. destruct Hout as [Hq _].
    apply forallb_forall. intros x Hx. rewrite forallb_forall in Hq.
    apply space_char_facts. now apply Hq. }
  destruct (flagSet (removeLineBreaks options)); [rewrite Hlb|];
    now apply singleSpaced_fixed.
Qed.

Lemma formatText_whitespace_witness :
  exists out,
    formatText (VStr (js "  The   quick brown  fox "))
      (mkFormatTextOptions None (Some true) None None None None None None) = VStr out /\
    singleSpaced out = true /\
    formatText (VStr out)
      (mkFormatTextOptions None (Some true) None None None None None None) = VStr out.
Proof.
  apply (formatText_whitespace (js "  The   quick brown  fox ")
           (mkFormatTextOptions None (Some true) None None None None None None));
    first [reflexivity | discriminate].
Defined.

(** ** Email addresses *)

Lemma space_lower (c : ascii) : isSpace (lowerChar c) = isSpace c.
Proof. destruct c as [[] [] [] [] [] [] [] []]; reflexivity. Qed.

Lemma dropWhile_space_lower (s : jsstring) :
  dropWhile isSpace (toLowerCase s) = toLowerCase (dropWhile isSpace s).
Proof.
  induction s as [|c s IH]; [reflexivity|].
  change (toLowerCase (c :: s)) with (lowerChar c :: toLowerCase s).
  cbn [dropWhile]. rewrite space_lower. now destruct (isSpace c).
Qed.

Lemma trim_toLowerCase (s : jsstring) : trim (toLowerCase s) = toLowerCase (trim s).
Proof.
  unfold trim, trimEnd, trimStart. rewrite dropWhile_space_lower.
  unfold toLowerCase at 1. rewrite <- map_rev. fold (toLowerCase (rev (dropWhile isSpace s))).
  rewrite dropWhile_space_lower. unfold toLowerCase. now rewrite map_rev.
Qed.

Lemma trim_idem (s : jsstring) : trim (trim s) = trim s.
Proof. destruct (trim_ends s). now apply trim_id. Qed.

Lemma normalized_fixed (e : jsstring) :
  toLowerCase (trim (toLowerCase (trim e))) = toLowerCase (trim e).
Proof. now rewrite trim_toLowerCase, trim_idem, toLowerCase_idem. Qed.

Lemma indexOfChar_split (c : ascii) (s : jsstring) (i : nat) :
  indexOfChar c s = Some i ->
  exists pre post, s = pre ++ c :: post /\ length pre = i /\ indexOfChar c pre = None.
Proof.
  revert i. induction s as [|x s IH]; intros i H; [discriminate|].
  cbn [indexOfChar] in H. destruct (char_eqb x c) eqn:E.
  - injection H as <-. apply Ascii.eqb_eq in E. subst x.
    exists [], s. repeat split.
  - destruct (indexOfChar c s) as [j|] eqn:Ej; [|discriminate].
    injection H as <-. destruct (IH j eq_refl) as (pre & post & -> & Hl & Hn).
    exists (x :: pre), post. split; [reflexivity|]. split; [simpl; now rewrite Hl|].
    cbn [indexOfChar]. now rewrite E, Hn.
Qed.


Lemma lookupCorrection_cases (d v : jsstring) :
  lookupCorrection d = Some v ->
  exists kv, In kv domainCorrections /\ d = js (fst kv) /\ v = js (snd kv).
Proof.
  unfold lookupCorrection. intros H.
  destruct (List.find _ domainCorrections) as [kv|] eqn:F; [|discriminate].
  injection H as <-. apply find_some in F. destruct F as [Hin Hk].
  apply str_eqb_eq in Hk. exists kv. auto.
Qed.


(** The result of [normalizeEmail] on an address with a local part and a
    domain. *)
Lemma normalizeEmail_structure (e : jsstring) :
  let n := toLowerCase (trim e) in
  (normalizeEmail (VStr e) = VStr n /\
   (indexOfChar "@" n = Some 0 \/ emailDomain n = [])) \/
  (exists pre d,
     n = pre ++ "@"%char :: d /\ pre <> [] /\ d <> [] /\ indexOfChar "@" pre = None /\
     normalizeEmail (VStr e) = VStr (pre ++ "@"%char :: correctedDomain d)).
Proof.
  intros n. unfold normalizeEmail.
  destruct e as [|c e'].
  { left. split; [reflexivity | right; reflexivity]. }
  change (negb (truthy (VStr (c :: e')))) with false. cbv iota zeta. fold n.
  unfold emailDomain.
  destruct (indexOfChar "@" n) as [i|] eqn:Ei; [|left; auto].
  destruct (indexOfChar_split _ _ _ Ei) as (pre & d & En & Hl & Hpre).
  destruct (Nat.ltb_spec i 1) as [Hi|Hi].
  { left. split; [reflexivity|]. left. f_equal. lia. }
  destruct (Nat.eqb_spec i (length n - 1)) as [Hend|Hend]; cbn [orb].
  { left. split; [reflexivity|]. right. unfold slice_from.
    apply drop_ge. lia. }
  right. exists pre, d.
  assert (Hd : slice_from (i + 1) n = d).
  { unfold slice_from. rewrite En, <- Hl.
    replace (length pre + 1) with (length (pre ++ ["@"%char])) by (rewrite length_app; simpl; lia).
    rewrite (app_assoc pre ["@"%char] d : pre ++ "@"%char :: d = (pre ++ ["@"%char]) ++ d).
    apply drop_app_length. }
  assert (Hp : slice 0 (i + 1) n = pre ++ ["@"%char]).
  { unfold slice. rewrite Nat.sub_0_r, drop_0, En, <- Hl.
    replace (length pre + 1) with (length (pre ++ ["@"%char])) by (rewrite length_app; simpl; lia).
    rewrite (app_assoc pre ["@"%char] d : pre ++ "@"%char :: d = (pre ++ ["@"%char]) ++ d).
    apply take_app_length. }
  rewrite Hd, Hp, <- app_assoc. repeat split; auto.
  - intros ->. simpl in Hl. lia.
  - intros ->. rewrite En, length_app in Hend. simpl in Hend. lia.
Qed.

Lemma normalized_ends (e : jsstring) :
  let n := toLowerCase (trim e) in
  headIs isSpace n = false /\ lastIs isSpace n = false /\ toLowerCase n = n.
Proof.
  intros n. unfold n. rewrite <- trim_toLowerCase.
  destruct (trim_ends (toLowerCase e)) as [Hh Hl].
  split; [exact Hh|]. split; [exact Hl|].
  rewrite trim_toLowerCase. apply toLowerCase_idem.
Qed.



Lemma correctedDomain_shape (d : jsstring) :
  d <> [] -> lastIs isSpace d = false ->
  correctedDomain d <> [] /\ lastIs isSpace (correctedDomain d) = false.
Proof.
  intros Hd Hl. unfold correctedDomain.
  destruct (lookupCorrection d) as [v|] eqn:E.
  - apply lookupCorrection_cases in E. destruct E as (kv & Hin & _ & ->).
    simpl in Hin.
    repeat (destruct Hin as [<-|Hin]; [split; [discriminate | reflexivity]|]).
    contradiction.
  - destruct (str_eqb d (js "constructor")); [split; [discriminate | reflexivity]|].
    destruct (str_eqb d (js "__proto__")); [split; [discriminate | reflexivity]|]. auto.
Qed.


(** The address built by [normalizeEmail] is trimmed; once lower-cased it
    differs from it in the domain only. *)
Lemma normalizeEmail_result_normal (pre d cd : jsstring) :
  pre <> [] -> cd <> [] ->
  headIs isSpace (pre ++ "@"%char :: d) = false ->
  toLowerCase (pre ++ "@"%char :: d) = pre ++ "@"%char :: d ->
  lastIs isSpace cd = false ->
  toLowerCase (trim (pre ++ "@"%char :: cd)) = pre ++ "@"%char :: toLowerCase cd.
Proof.
  intros Hpre Hcd Hh Hlow Hl.
  rewrite trim_id.
  - rewrite toLowerCase_app in *.
    change (toLowerCase ("@"%char :: d)) with ("@"%char :: toLowerCase d) in Hlow.
    change (toLowerCase ("@"%char :: cd)) with ("@"%char :: toLowerCase cd).
    apply app_inj_1 in Hlow; [|unfold toLowerCase; apply length_map].
    destruct Hlow as [-> _]. reflexivity.
  - unfold headIs in *. rewrite head_app in *.
    destruct pre; [congruence | exact Hh].
  - unfold lastIs in *. rewrite last_app_cons.
    destruct cd as [|c cd']; [congruence|].
    change ("@"%char :: c :: cd') with (["@"%char] ++ c :: cd').
    now rewrite last_app_cons.
Qed.





Section EmailValidity.

(** The test of [emailRegex] on what follows the ['@']. *)
Local Abbreviation domainOk :=
  (fun domain : jsstring =>
     forallb isEmailChar domain
     && existsb (fun c => char_eqb c "."%char) (slice 1 (length domain - 2) domain)).

Lemma emailChars_split (pre d : jsstring) :
  forallb isEmailChar pre = true ->
  takeWhile isEmailChar (pre ++ "@"%char :: d) = pre /\
  dropWhile isEmailChar (pre ++ "@"%char :: d) = "@"%char :: d.
Proof.
  induction pre as [|c pre IH]; intros H; [split; reflexivity|].
  simpl in H. apply andb_prop in H. destruct H as [Hc Hp].
  destruct (IH Hp) as [E1 E2]. simpl. rewrite Hc. now rewrite E1, E2.
Qed.

Lemma emailChars_stop (pre d : jsstring) :
  forallb isEmailChar pre = false -> indexOfChar "@" pre = None ->
  exists x rest, dropWhile isEmailChar (pre ++ "@"%char :: d) = x :: rest /\
                 char_eqb x "@" = false.
Proof.
  induction pre as [|c pre IH]; intros H Hno; [discriminate|].
  cbn [indexOfChar] in Hno. destruct (char_eqb c "@") eqn:Ec; [discriminate|].
  destruct (indexOfChar "@" pre) eqn:Ei; [discriminate|].
  simpl in H. simpl. destruct (isEmailChar c) eqn:E.
  - apply IH; auto.
  - eauto.
Qed.

Lemma emailRegex_split (pre d : jsstring) :
  indexOfChar "@" pre = None ->
  emailRegex (pre ++ "@"%char :: d)
    = nonEmpty pre && forallb isEmailChar pre && domainOk d.
Proof.
  intros Hno. unfold emailRegex.
  destruct (forallb isEmailChar pre) eqn:E.
  - destruct (emailChars_split pre d E) as [-> ->].
    change (char_eqb "@" "@") with true. rewrite !andb_true_r. now rewrite andb_assoc.
  - destruct (emailChars_stop pre d E Hno) as (x & rest & -> & Hx).
    rewrite Hx. now rewrite andb_false_r, andb_false_r.
Qed.

Lemma emailRegex_no_at (s : jsstring) :
  indexOfChar "@" s = None -> emailRegex s = false.
Proof.
  intros Hno. unfold emailRegex.
  destruct (dropWhile isEmailChar s) as [|a rest] eqn:E; [reflexivity|].
  assert (Ha : char_eqb a "@" = false).
  { clear -E Hno. induction s as [|c s IH]; [discriminate|].
    cbn [indexOfChar] in Hno. destruct (char_eqb c "@") eqn:Ec; [discriminate|].
    destruct (indexOfChar "@" s) eqn:Ei; [discriminate|].
    simpl in E. destruct (isEmailChar c); [now apply IH|].
    injection E as <- _. exact Ec. }
  rewrite Ha. now rewrite andb_false_r.
Qed.

Lemma correctedDomain_valid (d : jsstring) :
  toLowerCase d = d ->
  domainOk (toLowerCase (correctedDomain d)) = domainOk d.
Proof.
  intros Hlow. unfold correctedDomain.
  destruct (lookupCorrection d) as [v|] eqn:E.
  - apply lookupCorrection_cases in E. destruct E as (kv & Hin & -> & ->).
    simpl in Hin. repeat (destruct Hin as [<-|Hin]; [reflexivity|]). contradiction.
  - destruct (str_eqb d (js "constructor")) eqn:E1;
      [apply str_eqb_eq in E1; subst d; reflexivity|].
    destruct (str_eqb d (js "__proto__")) eqn:E2;
      [apply str_eqb_eq in E2; subst d; reflexivity|].
    now rewrite Hlow.
Qed.

End EmailValidity.

(** X27: [normalizeEmail] never changes the verdict of [isValidEmail]: an
    address is valid after normalisation exactly when it was before. *)
Theorem isValidEmail_normalizeEmail (email : JsValue) :
  isValidEmail (normalizeEmail email) = isValidEmail email.
Proof.
  destruct email as [| |b|z|e|xs|kvs]; try reflexivity.
  - now destruct b.
  - cbn [normalizeEmail]. unfold orEmpty. now destruct (truthy (VNum z)).
  - destruct e as [|c e']; [reflexivity|]. set (e := c :: e') in *.
    assert (Hv : forall s, isValidEmail (VStr s) = emailRegex (toLowerCase (trim s))).
    { intros [|x s]; reflexivity. }
    destruct (normalized_ends e) as (Hh & Hl & Hlow).
    destruct (normalizeEmail_structure e) as [[E _]|(pre & d & En & Hpre & Hd & Hno & E)].
    + now rewrite E, !Hv, normalized_fixed.
    + rewrite E, !Hv.
      assert (Hd_last : lastIs isSpace d = false).
      { unfold lastIs in *. rewrite En, last_app_cons in Hl.
        destruct d as [|y d']; [congruence|].
        change ("@"%char :: y :: d') with (["@"%char] ++ y :: d') in Hl.
        now rewrite last_app_cons in Hl. }
      assert (Hd_low : toLowerCase d = d).
      { rewrite En, toLowerCase_app in Hlow.
        change (toLowerCase ("@"%char :: d)) with ("@"%char :: toLowerCase d) in Hlow.
        apply app_inj_1 in Hlow; [|unfold toLowerCase; apply length_map].
        destruct Hlow as [_ Hlow]. now injection Hlow. }
      destruct (correctedDomain_shape d Hd Hd_last) as [Hcd Hcl].
      rewrite (normalizeEmail_result_normal pre d); auto;
        [|now rewrite <- En | now rewrite <- En].
      rewrite En, !emailRegex_split by exact Hno.
      now rewrite correctedDomain_valid.
Qed.

(** ** Nested properties *)

Lemma getProperty_replaceProperty (obj : Record_) (key k : jsstring) (value : JsValue) :
  hasProperty obj key = true ->
  getProperty (replaceProperty obj key value) k
    = if str_eqb key k then value else getProperty obj k.
Proof.
  induction obj as [|[k0 v0] obj IH]; [discriminate|]. simpl. intros H.
  destruct (str_eqb k0 key) eqn:E0.
  - apply str_eqb_eq in E0. subst k0. simpl. now destruct (str_eqb key k).
  - simpl in H. simpl. destruct (str_eqb k0 k) eqn:E1.
    + apply str_eqb_eq in E1. subst k0.
      destruct (str_eqb key k) eqn:E2; [|reflexivity].
      apply str_eqb_eq in E2. subst. rewrite (proj2 (str_eqb_eq k k) eq_refl) in E0.
      discriminate.
    + now apply IH.
Qed.

Lemma getProperty_absent (obj : Record_) (key : jsstring) :
  hasProperty obj key = false -> getProperty obj key = VUndefined.
Proof.
  induction obj as [|[k0 v0] obj IH]; [reflexivity|]. simpl.
  destruct (str_eqb k0 key); [discriminate | exact IH].
Qed.

Lemma getProperty_insertIndexProperty (obj : Record_) (n : N) (key k : jsstring)
    (value : JsValue) :
  hasProperty obj key = false ->
  getProperty (insertIndexProperty obj n key value) k
    = if str_eqb key k then value else getProperty obj k.
Proof.
  induction obj as [|[k0 v0] obj IH]; intros H.
  - simpl. now destruct (str_eqb key k).
  - simpl in H. apply orb_false_elim in H. destruct H as [H0 H].
    cbn [insertIndexProperty].
    assert (Hhead : getProperty ((key, value) :: (k0, v0) :: obj) k
                    = if str_eqb key k then value else getProperty ((k0, v0) :: obj) k)
      by reflexivity.
    destruct (arrayIndex k0) as [m|]; [destruct (n <? m)%N|]; try exact Hhead.
    cbn [getProperty]. rewrite (IH H).
    destruct (str_eqb k0 k) eqn:E1; [|reflexivity].
    destruct (str_eqb key k) eqn:E2; [|reflexivity].
    apply str_eqb_eq in E1, E2. subst.
    rewrite (proj2 (str_eqb_eq k k) eq_refl) in H0. discriminate.
Qed.

Lemma getProperty_app_absent (obj : Record_) (key k : jsstring) (value : JsValue) :
  hasProperty obj key = false ->
  getProperty (obj ++ [(key, value)]) k
    = if str_eqb key k then value else getProperty obj k.
Proof.
  induction obj as [|[k0 v0] obj IH]; intros H.
  - simpl. now destruct (str_eqb key k).
  - simpl in H. apply orb_false_elim in H. destruct H as [H0 H].
    simpl. rewrite (IH H).
    destruct (str_eqb k0 k) eqn:E1; [|reflexivity].
    destruct (str_eqb key k) eqn:E2; [|reflexivity].
    apply str_eqb_eq in E1, E2. subst.
    rewrite (proj2 (str_eqb_eq k k) eq_refl) in H0. discriminate.
Qed.

(** Reading a property after an assignment. *)
Lemma getProperty_setProperty (obj : Record_) (key k : jsstring) (value : JsValue) :
  getProperty (setProperty obj key value) k
    = if str_eqb key k then value else getProperty obj k.
Proof.
  unfold setProperty. destruct (hasProperty obj key) eqn:H.
  - now apply getProperty_replaceProperty.
  - destruct (arrayIndex key).
    + now apply getProperty_insertIndexProperty.
    + now apply getProperty_app_absent.
Qed.

Lemma str_eqb_refl (k : jsstring) : str_eqb k k = true.
Proof. now apply str_eqb_eq. Qed.

Lemma str_eqb_neq (a b : jsstring) : a <> b -> str_eqb a b = false.
Proof.
  intros H. destruct (str_eqb a b) eqn:E; [|reflexivity].
  apply str_eqb_eq in E. contradiction.
Qed.

Lemma getPath_setPath (obj : Record_) (parts : list jsstring) (value : JsValue) :
  parts <> [] -> getPath (VObj (setPath obj parts value)) parts = value.
Proof.
  revert obj. induction parts as [|part rest IH]; intros obj Hne; [congruence|].
  destruct rest as [|part' rest'].
  - cbn [setPath getPath]. now rewrite getProperty_setProperty, str_eqb_refl.
  - change (setPath obj (part :: part' :: rest') value)
      with (setProperty obj part
              (VObj (setPath (match getProperty obj part with
                              | VObj kvs => kvs
                              | _ => []
                              end) (part' :: rest') value))).
    cbn [getPath]. rewrite getProperty_setProperty, str_eqb_refl.
    apply IH. discriminate.
Qed.

Lemma getPath_non_object (v : JsValue) (part : jsstring) (rest : list jsstring) :
  isObject v = false ->
  getPath v (part :: rest) = VUndefined /\ getPath (VObj []) (part :: rest) = VUndefined.
Proof.
  intros Hv. split; [destruct v; try reflexivity; discriminate|].
  cbn [getPath getProperty]. destruct rest; reflexivity.
Qed.

Lemma getPath_setPath_diverging (obj : Record_) (common : list jsstring)
    (a b : jsstring) (r1 r2 : list jsstring) (value : JsValue) :
  a <> b ->
  getPath (VObj (setPath obj (common ++ a :: r1) value)) (common ++ b :: r2)
    = getPath (VObj obj) (common ++ b :: r2).
Proof.
  intros Hab. revert obj. induction common as [|c common IH]; intros obj.
  - cbn [app]. destruct r1 as [|p r1'].
    + cbn [setPath getPath]. now rewrite getProperty_setProperty, str_eqb_neq.
    + change (setPath obj (a :: p :: r1') value)
        with (setProperty obj a
                (VObj (setPath (match getProperty obj a with
                                | VObj kvs => kvs
                                | _ => []
                                end) (p :: r1') value))).
      cbn [getPath]. now rewrite getProperty_setProperty, str_eqb_neq.
  - change ((c :: common) ++ a :: r1) with (c :: (common ++ a :: r1)).
    change ((c :: common) ++ b :: r2) with (c :: (common ++ b :: r2)).
    destruct (common ++ a :: r1) as [|p rest] eqn:E.
    { destruct common; discriminate. }
    change (setPath obj (c :: p :: rest) value)
      with (setProperty obj c
              (VObj (setPath (match getProperty obj c with
                              | VObj kvs => kvs
                              | _ => []
                              end) (p :: rest) value))).
    cbn [getPath]. rewrite getProperty_setProperty, str_eqb_refl, IH.
    destruct (isObject (getProperty obj c)) eqn:Ho.
    + destruct (getProperty obj c); try discriminate. reflexivity.
    + assert (Hc : match getProperty obj c with VObj kvs => kvs | _ => [] end = [])
        by (destruct (getProperty obj c); try reflexivity; discriminate).
      rewrite Hc. destruct common as [|c' common'];
        cbn [app]; destruct (getPath_non_object _ b r2 Ho) as [H1 H2];
        try destruct (getPath_non_object _ c' (common' ++ b :: r2) Ho) as [H3 H4];
        congruence.
Qed.

Lemma splitChar_nonempty (c : ascii) (s : jsstring) : splitChar c s <> [].
Proof.
  destruct s as [|x s]; [discriminate|]. simpl.
  destruct (char_eqb x c); [discriminate|]. destruct (splitChar c s); discriminate.
Qed.

(** X28: on tree-shaped data and a path that names no property inherited
    from [Object.prototype], [getNestedProperty] reads back the value that
    [setNestedProperty] has stored under the same path, and reads what it
    read before under every path that leaves the written one at some
    part. *)
Theorem setNestedProperty_getNestedProperty (obj : Record_) (path : jsstring)
    (value : JsValue) :
  nonEmpty path = true -> ownPath path = true ->
  getNestedProperty (VObj (setNestedProperty obj path value)) path = value /\
  (forall other common a b r1 r2,
     nonEmpty other = true -> ownPath other = true ->
     splitChar "." path = common ++ a :: r1 ->
     splitChar "." other = common ++ b :: r2 -> a <> b ->
     getNestedProperty (VObj (setNestedProperty obj path value)) other
       = getNestedProperty (VObj obj) other).
Proof.
  intros Hne _. unfold getNestedProperty, setNestedProperty. rewrite Hne.
  cbn [isObject negb orb]. split.
  - apply getPath_setPath, splitChar_nonempty.
  - intros other common a b r1 r2 Hother _ E1 E2 Hab.
    rewrite Hother, E1, E2. cbn [negb]. now apply getPath_setPath_diverging.
Qed.

Lemma setNestedProperty_getNestedProperty_witness :
  getNestedProperty
    (VObj (setNestedProperty [(js "user", VObj [(js "name", VStr (js "Ann"))])]
             (js "user.phone.e164") (VStr (js "+15550001111"))))
    (js "user.phone.e164") = VStr (js "+15550001111").
Proof.
  apply (setNestedProperty_getNestedProperty
           [(js "user", VObj [(js "name", VStr (js "Ann"))])]
           (js "user.phone.e164") (VStr (js "+15550001111"))); reflexivity.
Defined.

(** ** Names: the components hold every word *)





















(** ** The metadata of the deduplication operation *)





(** ** The examples of the specification *)

Example fuzzyMatch_examples :
  (fuzzyMatch (js "John Smith") (js "John Smith") == 1)%Q /\
  (fuzzyMatch [] [] == 1)%Q /\
  (fuzzyMatch (js "a") [] == 0)%Q.
Proof. repeat split. Qed.

Example deduplicateFuzzy_example :
  let r := deduplicateFuzzy exampleRecords [js "name"] (8 # 10) in
  keptIndices exampleRecords [js "name"] (8 # 10) = [0; 2] /\
  removedCount r = 1 /\
  map (fun g => (keepIndex g, duplicateIndices g)) (duplicateGroups r) = [(0, [1])].
Proof. repeat split. Qed.

Example parseName_example :
  parseName (VStr (js "Dr. John Smith Jr."))
    = Returns (mkParsedName (VStr (js "Dr. John Smith Jr.")) (js "John") []
                 (js "Smith") (js "Dr.") (js "Jr.") (js "J.S.")).
Proof. reflexivity. Qed.

Example case_conversion_examples :
  toSnakeCase (js "firstName") = js "first_name" /\
  toCamelCase (js "first_name") = js "firstName".
Proof. split; reflexivity. Qed.
